(** * kicad-jlcpcb-tools: the catalog library and the CSV export utility

    A shallow embedding of [library.py] (the streaming decompressor
    [LZMAIterReader] and the storage class [Library]) and of [gencsv.py],
    with the properties of the synchronization pipeline and of the search
    operation stated over it.

    Conventions.
    - Python [bytes] is [list byte]; Python [str] is [string], the sequence
      of its UTF-8 code units.
    - A method that mutates [self] is a function from the state to an
      outcome and the next state; a raised exception is the outcome
      [Raise e], and the state it leaves behind is kept.
    - [while True] loops take a step budget; the outcome [OutOfFuel] marks
      an exhausted budget and is shown not to occur for the budgets used.
    - The libraries the code calls (lzma, sqlite3) are interfaces: a class
      whose fields are the calls the code makes. *)

From Stdlib Require Import Strings.String Strings.Ascii Strings.Byte.
From Stdlib Require Import Numbers.DecimalString.
From Stdlib Require Import List Bool Arith Lia ZArith.
From Stdlib Require Import Sorting.Permutation Sorting.Sorted.
Import ListNotations.

(* ================================================================== *)
(** * Part I: definitions                                              *)
(* ================================================================== *)

(** ** Bytes *)

Definition bytes := list byte.

Definition CR : byte := x0d.
Definition LF : byte := x0a.

(** [b'\r\n'] *)
Definition CRLF : bytes := [CR; LF].

Definition starts_crlf (s : bytes) : bool :=
  match s with
  | c :: d :: _ => Byte.eqb c CR && Byte.eqb d LF
  | _ => false
  end.

(** [s.find(b'\r\n')]: the lowest index at which CRLF occurs; Python's
    [-1] is [None]. *)
Fixpoint find_crlf (s : bytes) : option nat :=
  match s with
  | [] => None
  | _ :: s' => if starts_crlf s then Some 0 else option_map S (find_crlf s')
  end.

(** ** Exceptions and outcomes *)

Inductive Exn : Type :=
| StopIteration
| LZMAError
| EOFError
| UnicodeDecodeError
| CsvError
| ValueError (msg : string)
| ZeroDivisionError
| OperationalError
| ProgrammingError
| OverflowError.

Inductive res (A : Type) : Type :=
| Return (a : A)
| Raise (e : Exn)
| OutOfFuel.

Arguments Return {A} a.
Arguments Raise {A} e.
Arguments OutOfFuel {A}.

(** ** The decompressor interface

    [lzma.LZMADecompressor]: an object with internal state whose
    [decompress(data)] returns the bytes that can be produced from the input
    seen so far, or raises ([LZMAError] on corrupt data, [EOFError] once the
    end of the stream was reached). *)

Class Decompressor : Type := {
  dstate : Type;
  LZMADecompressor : dstate;
  decompress : dstate -> bytes -> Exn + (dstate * bytes)
}.

(** ** LZMAIterReader *)

Section Reader.
Context {D : Decompressor}.

Record LZMAIterReader : Type := mkReader {
  iter : list bytes;      (* the chunks the iterator has still to yield *)
  chunk : bytes;
  linebuf : bytes;
  lzmad : dstate
}.

(** [__init__] *)
Definition init (it : list bytes) : LZMAIterReader :=
  {| iter := it; chunk := []; linebuf := []; lzmad := LZMADecompressor |}.

(** [read]: refill [chunk] from the iterator when it is empty, then hand
    out all of it.  [next(self.iter)] on an exhausted iterator raises
    [StopIteration], which leaves [read] with the state unchanged. *)
Definition read (r : LZMAIterReader) : res bytes * LZMAIterReader :=
  let refill :=
    if Nat.eqb (length (chunk r)) 0 then
      match iter r with
      | [] => (Raise StopIteration, r)
      | data :: rest =>
          let r1 := {| iter := rest; chunk := chunk r;
                       linebuf := linebuf r; lzmad := lzmad r |} in
          match decompress (lzmad r) data with
          | inl e => (Raise e, r1)
          | inr (d', out) =>
              (Return tt, {| iter := rest; chunk := out;
                             linebuf := linebuf r; lzmad := d' |})
          end
      end
    else (Return tt, r) in
  match refill with
  | (Return _, r1) =>
      let n := length (chunk r1) in
      let amt := Nat.min n (length (chunk r1)) in
      let rtn := firstn amt (chunk r1) in
      (Return rtn, {| iter := iter r1; chunk := skipn amt (chunk r1);
                      linebuf := linebuf r1; lzmad := lzmad r1 |})
  | (Raise e, r1) => (Raise e, r1)
  | (OutOfFuel, r1) => (OutOfFuel, r1)
  end.

(** The [while True] loop of [readline]: leave with the index of the
    first CRLF in [linebuf]. *)
Fixpoint readline_loop (fuel : nat) (r : LZMAIterReader)
  : res nat * LZMAIterReader :=
  match find_crlf (linebuf r) with
  | Some idx => (Return idx, r)
  | None =>
      match fuel with
      | 0 => (OutOfFuel, r)
      | S fuel' =>
          match read r with
          | (Return newdata, r1) =>
              if Nat.eqb (length newdata) 0 then (Raise StopIteration, r1)
              else readline_loop fuel'
                     {| iter := iter r1; chunk := chunk r1;
                        linebuf := linebuf r1 ++ newdata;
                        lzmad := lzmad r1 |}
          | (Raise e, r1) => (Raise e, r1)
          | (OutOfFuel, r1) => (OutOfFuel, r1)
          end
      end
  end.

(** What still separates the loop of [readline] from the end of the
    iterator. *)
Definition loop_measure (r : LZMAIterReader) : nat :=
  length (iter r) + (if Nat.eqb (length (chunk r)) 0 then 0 else 1).

(** Every turn of the loop that goes on takes a chunk off the iterator,
    except a first one that finds [chunk] filled. *)
Definition readline_budget (r : LZMAIterReader) : nat :=
  S (S (length (iter r))).

Definition readline (r : LZMAIterReader) : res bytes * LZMAIterReader :=
  match readline_loop (readline_budget r) r with
  | (Return idx, r1) =>
      let idx := idx + 2 in
      let rtn := firstn idx (linebuf r1) in
      (Return rtn, {| iter := iter r1; chunk := chunk r1;
                      linebuf := skipn idx (linebuf r1);
                      lzmad := lzmad r1 |})
  | (Raise e, r1) => (Raise e, r1)
  | (OutOfFuel, r1) => (OutOfFuel, r1)
  end.

(** [__next__] *)
Definition next (r : LZMAIterReader) : res bytes * LZMAIterReader :=
  readline r.

(** The bytes still to come out of the decompressor for the chunks in
    [it]; a chunk it rejects gives none and leaves it as it was. *)
Fixpoint pending_output (d : dstate) (it : list bytes) : nat :=
  match it with
  | [] => 0
  | data :: rest =>
      match decompress d data with
      | inl _ => pending_output d rest
      | inr (d', out) => length out + pending_output d' rest
      end
  end.

Definition reader_size (r : LZMAIterReader) : nat :=
  length (linebuf r) + length (chunk r) + pending_output (lzmad r) (iter r).

(** [list(reader)]: call [__next__] until it raises; the lines it
    returned, how the iteration ended, and the reader it leaves. *)
Fixpoint drain (fuel : nat) (r : LZMAIterReader)
  : list bytes * res unit * LZMAIterReader :=
  match fuel with
  | 0 => ([], OutOfFuel, r)
  | S fuel' =>
      match next r with
      | (Return line, r1) =>
          let '(ls, e, r2) := drain fuel' r1 in (line :: ls, e, r2)
      | (Raise e, r1) => ([], Raise e, r1)
      | (OutOfFuel, r1) => ([], OutOfFuel, r1)
      end
  end.

Definition lines_of_chunks (it : list bytes) : list bytes * res unit :=
  let r := init it in
  let '(ls, e, _) := drain (S (reader_size r)) r in (ls, e).

End Reader.

(** ** What the specification asks of the decompressor

    Splitting decoded text on the line terminator: the complete lines, each
    with its CRLF; bytes after the last CRLF are no line. *)

Fixpoint split_lines_from (cur : bytes) (s : bytes) : list bytes :=
  match s with
  | [] => []
  | c :: s' =>
      match s' with
      | d :: s'' =>
          if Byte.eqb c CR && Byte.eqb d LF
          then rev (d :: c :: cur) :: split_lines_from [] s''
          else split_lines_from (c :: cur) s'
      | [] => []
      end
  end.

Definition spec_split_lines (text : bytes) : list bytes :=
  split_lines_from [] text.

(** Decompressing the whole stream at once, then splitting. *)
Definition spec_lines {D : Decompressor} (stream : bytes)
  : option (list bytes) :=
  match decompress LZMADecompressor stream with
  | inl _ => None
  | inr (_, text) => Some (spec_split_lines text)
  end.

(** Decoding chunk after chunk with one decompressor object: the output of
    each call. *)
Fixpoint decode_chunks {D : Decompressor} (d : dstate) (it : list bytes)
  : Exn + list bytes :=
  match it with
  | [] => inr []
  | data :: rest =>
      match decompress d data with
      | inl e => inl e
      | inr (d', out) =>
          match decode_chunks d' rest with
          | inl e => inl e
          | inr outs => inr (out :: outs)
          end
      end
  end.

(** A decompressor is streaming when a stream fed in two pieces, both of
    which it takes, gives the two parts of what it gives for the stream fed
    at once, and a new decompressor takes an empty input.  Nothing is asked
    of a call that raises: after the end of the stream lzma raises EOFError
    on every further call, also on no bytes, while it ignores what follows
    the end of the stream within one call. *)
Class Streaming (D : Decompressor) : Prop := {
  decompress_new_nil :
    exists d : dstate, decompress LZMADecompressor [] = inr (d, []);
  decompress_app : forall (d d1 d2 : dstate) (a b o1 o2 : bytes),
    decompress d a = inr (d1, o1) ->
    decompress d1 b = inr (d2, o2) ->
    exists d' : dstate, decompress d (a ++ b) = inr (d', o1 ++ o2)
}.

Definition nonempty (b : bytes) : Prop := b <> [].

(** ** A concrete decompressor for concrete inputs

    The LZMA decoder itself is not modelled.  This container has the six
    magic bytes of an .xz stream in front of a stored payload; like
    [LZMADecompressor] it yields nothing while it is still inside the
    stream header, wherever the chunk boundaries are. *)

Definition xz_magic : bytes := [xfd; x37; x7a; x58; x5a; x00].

Fixpoint stored_decompress (pending data : bytes) : Exn + (bytes * bytes) :=
  match pending with
  | [] => inr ([], data)
  | m :: pending' =>
      match data with
      | [] => inr (pending, [])
      | b :: data' =>
          if Byte.eqb m b then stored_decompress pending' data'
          else inl LZMAError
      end
  end.

#[export] Instance StoredXZ : Decompressor := {|
  dstate := bytes;
  LZMADecompressor := xz_magic;
  decompress := stored_decompress
|}.

(** ** Text *)

(** The double-quote character, as a text. *)
Definition dq : string := String "034"%char EmptyString.

(** Truth value of a [str]: false exactly for the empty one. *)
Definition truthy (s : string) : bool :=
  match s with
  | EmptyString => false
  | String _ _ => true
  end.

(** [str(n)] for an [int]. *)
Definition str_int (n : Z) : string :=
  NilZero.string_of_int (Z.to_int n).

(** [sep.join(l)] *)
Definition join (sep : string) (l : list string) : string :=
  String.concat sep l.

Definition has_char (c : ascii) (s : string) : bool :=
  existsb (Ascii.eqb c) (list_ascii_of_string s).

(** A value is plain when it has no apostrophe and no NUL: pasted between
    apostrophes into a statement it is one SQL string literal with that
    value. *)
Definition plain (s : string) : bool :=
  negb (has_char "'"%char s) && negb (has_char "000"%char s).

(** ** The store

    The SQLite file: the [parts] table with its column names and rows, and
    the [rotation] table of (regex, correction) rows.  [None] is a table
    that does not exist.  All columns are untyped and hold text. *)

Record Table : Type := mkTable {
  columns : list string;
  rows : list (list string)
}.

Record DB : Type := mkDB {
  parts : option Table;
  rotation : option (list (string * string))
}.

(** What the code leaves to SQLite.  A method whose statement text is
    constant, or whose values are bound through [?], is modelled by its
    effect on the tables.  A method that pastes values into the text is
    modelled that way for plain values; for the others the text is a
    different statement, whose effect on the table it names is the
    engine's. *)
Class SqlEngine : Type := {
  (** does CREATE TABLE accept these column names *)
  accepts_columns : list string -> bool;
  (** a pasted statement on [parts] / on [rotation] *)
  exec_parts : string -> option Table -> Exn + option Table;
  exec_rotation : string -> option (list (string * string))
                  -> Exn + option (list (string * string));
  (** [execute(query).fetchall()] *)
  fetchall : string -> DB -> Exn + list (list string)
}.

(** ** Events posted to the parent window *)

Inductive Event : Type :=
| ResetGaugeEvent
| UpdateGaugeEvent (num den : Z)     (* value = num / den * 100 *)
| MessageEvent (title text style : string).

Section Library.
Context {E : SqlEngine}.

(** [delete_parts_table] *)
Definition delete_parts_table (db : DB) : res unit * DB :=
  (Return tt, {| parts := None; rotation := rotation db |}).

(** [create_rotation_table] *)
Definition create_rotation_table (db : DB) : res unit * DB :=
  match rotation db with
  | Some _ => (Return tt, db)
  | None => (Return tt, {| parts := parts db; rotation := Some [] |})
  end.

Definition delete_correction_sql (regex : string) : string :=
  ("DELETE FROM rotation WHERE regex = '" ++ regex ++ "'")%string.

(** [delete_correction_data] *)
Definition delete_correction_data (regex : string) (db : DB) : res unit * DB :=
  if plain regex then
    match rotation db with
    | None => (Raise OperationalError, db)
    | Some rs =>
        (Return tt,
         {| parts := parts db;
            rotation :=
              Some (filter (fun r => negb (String.eqb (fst r) regex)) rs) |})
    end
  else
    match exec_rotation (delete_correction_sql regex) (rotation db) with
    | inl e => (Raise e, db)
    | inr t => (Return tt, {| parts := parts db; rotation := t |})
    end.

Definition update_correction_sql (regex rotation : string) : string :=
  ("UPDATE rotation SET correction = '" ++ rotation
     ++ "' WHERE regex = '" ++ regex ++ "'")%string.

(** [update_correction_data] *)
Definition update_correction_data (regex rot : string) (db : DB)
  : res unit * DB :=
  if plain regex && plain rot then
    match rotation db with
    | None => (Raise OperationalError, db)
    | Some rs =>
        (Return tt,
         {| parts := parts db;
            rotation :=
              Some (map (fun r => if String.eqb (fst r) regex
                                  then (fst r, rot) else r) rs) |})
    end
  else
    match exec_rotation (update_correction_sql regex rot) (rotation db) with
    | inl e => (Raise e, db)
    | inr t => (Return tt, {| parts := parts db; rotation := t |})
    end.

(** [insert_correction_data]: the values are bound. *)
Definition insert_correction_data (regex rot : string) (db : DB)
  : res unit * DB :=
  match rotation db with
  | None => (Raise OperationalError, db)
  | Some rs =>
      (Return tt, {| parts := parts db;
                     rotation := Some (rs ++ [(regex, rot)]) |})
  end.

Definition create_parts_sql (cols : list string) : string :=
  ("CREATE TABLE IF NOT EXISTS parts ("
     ++ join "," (map (fun c => " '" ++ c ++ "'") cols) ++ ")")%string.

(** [create_parts_table].  With IF NOT EXISTS a statement that parses does
    nothing on an existing table, whatever the names are; the names are
    looked at only when the table is made.  An empty column list does not
    parse. *)
Definition create_parts_table (cols : list string) (db : DB) : res unit * DB :=
  if forallb plain cols then
    match parts db with
    | Some _ =>
        match cols with
        | [] => (Raise OperationalError, db)
        | _ :: _ => (Return tt, db)
        end
    | None =>
        if accepts_columns cols then
          (Return tt, {| parts := Some {| columns := cols; rows := [] |};
                         rotation := rotation db |})
        else (Raise OperationalError, db)
    end
  else
    match exec_parts (create_parts_sql cols) (parts db) with
    | inl e => (Raise e, db)
    | inr t => (Return tt, {| parts := t; rotation := rotation db |})
    end.

Definition get_stock_sql (lcsc : string) : string :=
  ("SELECT Stock FROM parts where " ++ dq ++ "LCSC Part" ++ dq ++ " = "
     ++ dq ++ lcsc ++ dq)%string.

(** [get_stock]: [fetchone()] is the first row, if any. *)
Definition get_stock (lcsc : string) (db : DB) : res (option (list string)) :=
  match fetchall (get_stock_sql lcsc) db with
  | inl e => Raise e
  | inr rs => Return (hd_error rs)
  end.

End Library.

(** ** Operations on the rotation table *)

Inductive RotationOp : Type :=
| Insert (regex rot : string)
| Update (regex rot : string)
| Delete (regex : string).

Definition run_op {E : SqlEngine} (op : RotationOp) (db : DB) : res unit * DB :=
  match op with
  | Insert regex rot => insert_correction_data regex rot db
  | Update regex rot => update_correction_data regex rot db
  | Delete regex => delete_correction_data regex db
  end.

(** A sequence of calls; a call that raises leaves the store as it was and
    the next call goes on from there. *)
Definition run_ops {E : SqlEngine} (ops : list RotationOp) (db : DB) : DB :=
  fold_left (fun d op => snd (run_op op d)) ops db.

Definition stored_regexes (db : DB) : list string :=
  match rotation db with
  | None => []
  | Some rs => map fst rs
  end.

(** No two stored rotation rows share a regex. *)
Definition unique_regex (db : DB) : Prop := NoDup (stored_regexes db).

Definition mem_str (s : string) (l : list string) : bool :=
  existsb (String.eqb s) l.

(** The values an operation pastes into its statement are plain. *)
Definition plain_op (op : RotationOp) : bool :=
  match op with
  | Insert _ _ => true
  | Update regex rot => plain regex && plain rot
  | Delete regex => plain regex
  end.

(** Every insert of the sequence is of a regex that is not stored when it
    is made, and every pasted value is plain. *)
Fixpoint guarded {E : SqlEngine} (ops : list RotationOp) (db : DB) : bool :=
  match ops with
  | [] => true
  | op :: rest =>
      plain_op op
      && match op with
         | Insert regex _ => negb (mem_str regex (stored_regexes db))
         | _ => true
         end
      && guarded rest (snd (run_op op db))
  end.

(** The store right after [create_rotation_table] on a new file. *)
Definition fresh_db : DB := {| parts := None; rotation := Some [] |}.

(** An engine for concrete inputs: it accepts distinct, non-empty column
    lists, rejects every statement with a non-plain value as a syntax
    error, and finds no row. *)
Fixpoint distinct (l : list string) : bool :=
  match l with
  | [] => true
  | x :: l' => negb (mem_str x l') && distinct l'
  end.

#[export] Instance PlainEngine : SqlEngine := {|
  accepts_columns :=
    fun cols => negb (Nat.eqb (length cols) 0) && distinct cols;
  exec_parts := fun _ _ => inl OperationalError;
  exec_rotation := fun _ _ => inl OperationalError;
  fetchall := fun _ _ => inr []
|}.

(** ** shlex.split

    [shlex.split(s)] is [list(lex)] for a lexer in POSIX mode with
    [whitespace_split] on and no comment characters.  [read_char] is one
    turn of the loop of [read_token] on a character; [shlex_loop] runs the
    turns over the input, starts the next token after each one, and ends
    the way [read_token] does at the end of the input. *)

Inductive LexState : Type :=
| LexSpace                            (* state ' ' *)
| LexWord                             (* state 'a' *)
| LexQuote (q : ascii)                (* state is the quote character *)
| LexEscape (escapedstate : LexState). (* state is the escape character *)

Record Shlex : Type := mkShlex {
  lstate : LexState;
  token : string;
  quoted : bool
}.

Definition is_whitespace (c : ascii) : bool :=
  Ascii.eqb c " "%char || Ascii.eqb c "009"%char
  || Ascii.eqb c "013"%char || Ascii.eqb c "010"%char.

Definition is_quote (c : ascii) : bool :=
  Ascii.eqb c "'"%char || Ascii.eqb c "034"%char.

Definition is_escape (c : ascii) : bool := Ascii.eqb c "\"%char.

(** [escapedquotes]: inside these a backslash escapes. *)
Definition is_escapedquote (c : ascii) : bool := Ascii.eqb c "034"%char.

Definition push (s : string) (c : ascii) : string :=
  (s ++ String c EmptyString)%string.

Inductive Turn : Type :=
| Continue (l : Shlex)
| Break (l : Shlex).

Definition read_char (l : Shlex) (c : ascii) : Turn :=
  match lstate l with
  | LexSpace =>
      if is_whitespace c then
        if truthy (token l) || quoted l then Break l else Continue l
      else if is_escape c then
        Continue {| lstate := LexEscape LexWord; token := token l;
                    quoted := quoted l |}
      else if is_quote c then
        Continue {| lstate := LexQuote c; token := token l;
                    quoted := quoted l |}
      else
        Continue {| lstate := LexWord; token := String c EmptyString;
                    quoted := quoted l |}
  | LexQuote q =>
      if Ascii.eqb c q then
        Continue {| lstate := LexWord; token := token l; quoted := true |}
      else if is_escape c && is_escapedquote q then
        Continue {| lstate := LexEscape (LexQuote q); token := token l;
                    quoted := true |}
      else
        Continue {| lstate := LexQuote q; token := push (token l) c;
                    quoted := true |}
  | LexEscape back =>
      let kept :=
        match back with
        | LexQuote q =>
            if negb (is_escape c) && negb (Ascii.eqb c q)
            then push (token l) "\"%char else token l
        | _ => token l
        end in
      Continue {| lstate := back; token := push kept c; quoted := quoted l |}
  | LexWord =>
      if is_whitespace c then
        let l' := {| lstate := LexSpace; token := token l;
                     quoted := quoted l |} in
        if truthy (token l) || quoted l then Break l' else Continue l'
      else if is_quote c then
        Continue {| lstate := LexQuote c; token := token l;
                    quoted := quoted l |}
      else if is_escape c then
        Continue {| lstate := LexEscape LexWord; token := token l;
                    quoted := quoted l |}
      else
        Continue {| lstate := LexWord; token := push (token l) c;
                    quoted := quoted l |}
  end.

(** The value [read_token] returns for the token it has: [None] for an
    empty token that was not quoted. *)
Definition token_result (l : Shlex) : option string :=
  if negb (quoted l) && negb (truthy (token l)) then None else Some (token l).

Fixpoint shlex_loop (l : Shlex) (input : string) : Exn + list string :=
  match input with
  | EmptyString =>
      match lstate l with
      | LexSpace | LexWord =>
          match token_result l with
          | None => inr []
          | Some t => inr [t]
          end
      | LexQuote _ => inl (ValueError "No closing quotation")
      | LexEscape _ => inl (ValueError "No escaped character")
      end
  | String c rest =>
      match read_char l c with
      | Continue l' => shlex_loop l' rest
      | Break l' =>
          match token_result l' with
          | None => inr []
          | Some t =>
              match shlex_loop {| lstate := lstate l'; token := EmptyString;
                                  quoted := false |} rest with
              | inl e => inl e
              | inr ts => inr (t :: ts)
              end
          end
      end
  end.

Definition shlex_split (s : string) : Exn + list string :=
  shlex_loop {| lstate := LexSpace; token := EmptyString; quoted := false |} s.

(** [str(e)] for the exceptions that carry a message. *)
Definition str_exn (e : Exn) : string :=
  match e with
  | ValueError msg => msg
  | _ => EmptyString
  end.

(** ** Library.search *)

Record Library : Type := mkLibrary {
  order_by : string;
  order_dir : string
}.

Record Parameters : Type := mkParameters {
  keyword : string;
  manufacturer : string;
  package : string;
  category : string;
  part_no : string;
  solder_joints : string;
  basic : bool;
  extended : bool;
  stock : bool
}.

(** What a call of [search] did: the value it returned ([None] for a bare
    [return]), the events it posted to the parent, and the statements it
    ran, each with the values bound to it. *)
Record SearchRun : Type := mkSearchRun {
  returned : res (option (list (list string)));
  posted : list Event;
  executed : list (string * list string)
}.

Section Search.
Context {E : SqlEngine}.
Local Open Scope string_scope.

Definition search_columns : list string :=
  ["LCSC Part"; "MFR.Part"; "Package"; "Solder Joint"; "Library Type";
   "Manufacturer"; "Description"; "Price"; "Stock"].

Definition keyword_columns : list string :=
  ["LCSC Part"; "Description"; "MFR.Part"; "Package"; "Manufacturer"].

Definition select_prefix : string :=
  "SELECT " ++ join "," (map (fun c => dq ++ c ++ dq) search_columns)
    ++ " FROM parts WHERE ".

(** The clause of one keyword. *)
Definition keyword_chunk (kw : string) : string :=
  "(" ++ join " OR "
           (map (fun c => dq ++ c ++ dq ++ " LIKE "
                             ++ dq ++ "%" ++ kw ++ "%" ++ dq)
                keyword_columns)
      ++ ")".

Definition like_chunk (col p : string) : string :=
  dq ++ col ++ dq ++ " LIKE " ++ dq ++ p ++ dq.

Definition category_chunk (p : string) : string :=
  "(" ++ dq ++ "First Category" ++ dq ++ " LIKE " ++ dq ++ p ++ dq
      ++ " OR " ++ dq ++ "Second Category" ++ dq ++ " LIKE " ++ dq ++ p ++ dq
      ++ ")".

Definition library_types (p : Parameters) : list string :=
  let basic_lit := dq ++ "Basic" ++ dq in
  let extended_lit := dq ++ "Extended" ++ dq in
  ((if basic p then [basic_lit] else [])
   ++ (if extended p then [extended_lit] else []))%list.

Definition library_type_chunk (types : list string) : string :=
  dq ++ "Library Type" ++ dq ++ " IN (" ++ join "," types ++ ")".

Definition stock_chunk : string :=
  dq ++ "Stock" ++ dq ++ " > " ++ dq ++ "0" ++ dq.

Definition when (b : bool) (chunk : string) : list string :=
  if b then [chunk] else [].

(** [query_chunks], in the order the code appends to it. *)
Definition query_chunks (keywords : list string) (p : Parameters)
  : list string :=
  (map keyword_chunk keywords
   ++ when (truthy (manufacturer p))
           (like_chunk "Manufacturer" (manufacturer p))
   ++ when (truthy (package p)) (like_chunk "Package" (package p))
   ++ when (truthy (category p)) (category_chunk (category p))
   ++ when (truthy (part_no p)) (like_chunk "MFR.Part" (part_no p))
   ++ when (truthy (solder_joints p))
           (like_chunk "Solder Joint" (solder_joints p))
   ++ match library_types p with
      | [] => []
      | types => [library_type_chunk types]
      end
   ++ when (stock p) stock_chunk)%list.

Definition order_suffix (lib : Library) : string :=
  " ORDER BY " ++ dq ++ order_by lib ++ dq ++ " COLLATE naturalsort "
    ++ order_dir lib ++ " LIMIT 1000".

Definition search_query (lib : Library) (chunks : list string) : string :=
  select_prefix ++ join " AND " chunks ++ order_suffix lib.

Definition search (lib : Library) (p : Parameters) (db : DB) : SearchRun :=
  match shlex_split (keyword p) with
  | inl e =>
      {| returned := Return None;
         posted := [MessageEvent "Query error"
                      ("Unable to split keywords: " ++ str_exn e) "error"];
         executed := [] |}
  | inr keywords =>
      match query_chunks keywords p with
      | [] => {| returned := Return (Some []); posted := []; executed := [] |}
      | chunks =>
          let query := search_query lib chunks in
          {| returned := match fetchall query db with
                         | inl e => Raise e
                         | inr rs => Return (Some rs)
                         end;
             posted := [];
             executed := [(query, [])] |}
      end
  end.

End Search.

(** No structured filter, library-type flag or stock-only flag is set. *)
Definition no_filter (p : Parameters) : bool :=
  negb (truthy (manufacturer p)) && negb (truthy (package p))
  && negb (truthy (category p)) && negb (truthy (part_no p))
  && negb (truthy (solder_joints p))
  && negb (basic p) && negb (extended p) && negb (stock p).

(** [needle] occurs in [s] as it is. *)
Definition occurs_in (needle s : string) : Prop :=
  exists pre post : string, s = (pre ++ needle ++ post)%string.

(** The structured filters of an assignment: column and value. *)
Definition given_filters (p : Parameters) : list (string * string) :=
  filter (fun cv => truthy (snd cv))
    [("Manufacturer", manufacturer p); ("Package", package p);
     ("First Category", category p); ("Second Category", category p);
     ("MFR.Part", part_no p); ("Solder Joint", solder_joints p)]%string.

(** ** Decoding a line: [x.decode('utf-8')]

    Text is kept as its UTF-8 code units, so decoding a line is checking
    that it is well-formed UTF-8.  [utf8_step] is the automaton of the
    well-formed byte sequences: the state says what may follow. *)

Inductive Utf8State : Type :=
| U_start          (* at a character boundary *)
| U_tail1          (* one continuation byte to come *)
| U_tail2
| U_tail3
| U_after_E0       (* second byte must be A0..BF *)
| U_after_ED       (* second byte must be 80..9F *)
| U_after_F0       (* second byte must be 90..BF *)
| U_after_F4.      (* second byte must be 80..8F *)

Definition between (lo n hi : nat) : bool := Nat.leb lo n && Nat.leb n hi.

Definition utf8_step (q : Utf8State) (b : byte) : option Utf8State :=
  let n := Byte.to_nat b in
  match q with
  | U_start =>
      if Nat.ltb n 128 then Some U_start
      else if between 194 n 223 then Some U_tail1
      else if Nat.eqb n 224 then Some U_after_E0
      else if Nat.eqb n 237 then Some U_after_ED
      else if between 225 n 239 then Some U_tail2
      else if Nat.eqb n 240 then Some U_after_F0
      else if between 241 n 243 then Some U_tail3
      else if Nat.eqb n 244 then Some U_after_F4
      else None
  | U_tail1 => if between 128 n 191 then Some U_start else None
  | U_tail2 => if between 128 n 191 then Some U_tail1 else None
  | U_tail3 => if between 128 n 191 then Some U_tail2 else None
  | U_after_E0 => if between 160 n 191 then Some U_tail1 else None
  | U_after_ED => if between 128 n 159 then Some U_tail1 else None
  | U_after_F0 => if between 144 n 191 then Some U_tail2 else None
  | U_after_F4 => if between 128 n 143 then Some U_tail2 else None
  end.

Fixpoint utf8_run (q : Utf8State) (s : bytes) : option Utf8State :=
  match s with
  | [] => Some q
  | b :: s' =>
      match utf8_step q b with
      | None => None
      | Some q' => utf8_run q' s'
      end
  end.

Definition utf8_valid (s : bytes) : bool :=
  match utf8_run U_start s with
  | Some U_start => true
  | _ => false
  end.

Definition decode_utf8 (line : bytes) : res string :=
  if utf8_valid line then Return (string_of_list_byte line)
  else Raise UnicodeDecodeError.

(** [s.encode('utf-8')] *)
Definition encode_utf8 (s : string) : bytes := list_byte_of_string s.

(** ** csv.reader

    The reader of the [csv] module for the default dialect (delimiter
    comma, quote character double quote, doubled quotes, no escape
    character, not strict).  [parse_process_char] is the automaton of the
    module; it is fed the characters of a line and then the end-of-line
    mark.  A code unit that continues a character is not counted in
    [field_len]. *)

Inductive ParserState : Type :=
| START_RECORD
| START_FIELD
| IN_FIELD
| IN_QUOTED_FIELD
| QUOTE_IN_QUOTED_FIELD
| EAT_CRNL.

Record Parser : Type := mkParser {
  pstate : ParserState;
  fields : list string;
  field : string;
  field_len : N
}.

Inductive Sym : Type :=
| Chr (c : ascii)
| EOL.

(** [csv.field_size_limit()] *)
Definition field_limit : N := 131072%N.

Definition is_continuation (c : ascii) : bool :=
  between 128 (nat_of_ascii c) 191.

Definition set_pstate (p : Parser) (st : ParserState) : Parser :=
  {| pstate := st; fields := fields p; field := field p;
     field_len := field_len p |}.

Definition parse_save_field (p : Parser) : Parser :=
  {| pstate := pstate p; fields := fields p ++ [field p];
     field := EmptyString; field_len := 0%N |}.

Definition parse_add_char (p : Parser) (c : ascii) : Exn + Parser :=
  if is_continuation c then
    inr {| pstate := pstate p; fields := fields p; field := push (field p) c;
           field_len := field_len p |}
  else if N.leb field_limit (field_len p) then inl CsvError
  else inr {| pstate := pstate p; fields := fields p; field := push (field p) c;
              field_len := N.succ (field_len p) |}.

Definition is_newline (c : ascii) : bool :=
  Ascii.eqb c "010"%char || Ascii.eqb c "013"%char.

Definition is_delimiter (c : ascii) : bool := Ascii.eqb c ","%char.
Definition is_quotechar (c : ascii) : bool := Ascii.eqb c "034"%char.

(** The case [START_FIELD]. *)
Definition parse_start_field (p : Parser) (s : Sym) : Exn + Parser :=
  match s with
  | EOL => inr (set_pstate (parse_save_field p) START_RECORD)
  | Chr c =>
      if is_newline c then inr (set_pstate (parse_save_field p) EAT_CRNL)
      else if is_quotechar c then inr (set_pstate p IN_QUOTED_FIELD)
      else if is_delimiter c then inr (parse_save_field p)
      else match parse_add_char p c with
           | inl e => inl e
           | inr p' => inr (set_pstate p' IN_FIELD)
           end
  end.

Definition parse_process_char (p : Parser) (s : Sym) : Exn + Parser :=
  match pstate p with
  | START_RECORD =>
      match s with
      | EOL => inr p
      | Chr c =>
          if is_newline c then inr (set_pstate p EAT_CRNL)
          else parse_start_field (set_pstate p START_FIELD) s
      end
  | START_FIELD => parse_start_field p s
  | IN_FIELD =>
      match s with
      | EOL => inr (set_pstate (parse_save_field p) START_RECORD)
      | Chr c =>
          if is_newline c then inr (set_pstate (parse_save_field p) EAT_CRNL)
          else if is_delimiter c
          then inr (set_pstate (parse_save_field p) START_FIELD)
          else parse_add_char p c
      end
  | IN_QUOTED_FIELD =>
      match s with
      | EOL => inr p
      | Chr c =>
          if is_quotechar c then inr (set_pstate p QUOTE_IN_QUOTED_FIELD)
          else parse_add_char p c
      end
  | QUOTE_IN_QUOTED_FIELD =>
      match s with
      | EOL => inr (set_pstate (parse_save_field p) START_RECORD)
      | Chr c =>
          if is_quotechar c then
            match parse_add_char p c with
            | inl e => inl e
            | inr p' => inr (set_pstate p' IN_QUOTED_FIELD)
            end
          else if is_delimiter c
          then inr (set_pstate (parse_save_field p) START_FIELD)
          else if is_newline c
          then inr (set_pstate (parse_save_field p) EAT_CRNL)
          else match parse_add_char p c with
               | inl e => inl e
               | inr p' => inr (set_pstate p' IN_FIELD)
               end
      end
  | EAT_CRNL =>
      match s with
      | EOL => inr (set_pstate p START_RECORD)
      | Chr c => if is_newline c then inr p else inl CsvError
      end
  end.

(** The characters of one line, in order. *)
Fixpoint parse_chars (p : Parser) (line : string) : Exn + Parser :=
  match line with
  | EmptyString => inr p
  | String c rest =>
      match parse_process_char p (Chr c) with
      | inl e => inl e
      | inr p' => parse_chars p' rest
      end
  end.

(** One line: its characters, then the end-of-line mark. *)
Definition parse_line (p : Parser) (line : string) : Exn + Parser :=
  match parse_chars p line with
  | inl e => inl e
  | inr p' => parse_process_char p' EOL
  end.

(** [parse_reset] *)
Definition parse_reset : Parser :=
  {| pstate := START_RECORD; fields := []; field := EmptyString;
     field_len := 0%N |}.

Definition pstate_eqb (a b : ParserState) : bool :=
  match a, b with
  | START_RECORD, START_RECORD | START_FIELD, START_FIELD
  | IN_FIELD, IN_FIELD | IN_QUOTED_FIELD, IN_QUOTED_FIELD
  | QUOTE_IN_QUOTED_FIELD, QUOTE_IN_QUOTED_FIELD | EAT_CRNL, EAT_CRNL => true
  | _, _ => false
  end.

Section CsvReader.
Context {D : Decompressor}.

(** The [do ... while] loop of the reader's [__next__], over the lines of
    [map(lambda x: x.decode('utf-8'), l)]: take lines until a record is
    complete.  When the lines end inside a record, what was read of it is
    returned as a record. *)
Fixpoint csv_lines_loop (fuel : nat) (p : Parser) (r : LZMAIterReader)
  : res (list string) * LZMAIterReader :=
  match fuel with
  | 0 => (OutOfFuel, r)
  | S fuel' =>
      match next r with
      | (Raise StopIteration, r1) =>
          if negb (N.eqb (field_len p) 0)
             || pstate_eqb (pstate p) IN_QUOTED_FIELD
          then (Return (fields (parse_save_field p)), r1)
          else (Raise StopIteration, r1)
      | (Raise e, r1) => (Raise e, r1)
      | (OutOfFuel, r1) => (OutOfFuel, r1)
      | (Return line, r1) =>
          match decode_utf8 line with
          | Return text =>
              match parse_line p text with
              | inl e => (Raise e, r1)
              | inr p' =>
                  if pstate_eqb (pstate p') START_RECORD
                  then (Return (fields p'), r1)
                  else csv_lines_loop fuel' p' r1
              end
          | Raise e => (Raise e, r1)
          | OutOfFuel => (OutOfFuel, r1)
          end
      end
  end.

(** [next(csv_reader)] *)
Definition csv_next (r : LZMAIterReader) : res (list string) * LZMAIterReader :=
  csv_lines_loop (S (reader_size r)) parse_reset r.

End CsvReader.

(** ** The bulk load

    The connection of the import: the [parts] table as the connection
    found it, and the rows inserted in the open transaction.  [commit]
    appends them to the table; a connection closed without [commit] loses
    them. *)

(** Preparing [INSERT INTO parts VALUES (?,...,?)] with [ncols] marks: the
    table must exist and have that many columns. *)
Definition prepare_insert (ncols : nat) (t : option Table) : bool :=
  match t with
  | Some tb => negb (Nat.eqb ncols 0) && Nat.eqb (length (columns tb)) ncols
  | None => false
  end.

(** Binding and inserting the rows of a batch, one after the other: a row
    with another number of values stops the batch. *)
Fixpoint bind_rows (ncols : nat) (buffer pending : list (list string))
  : res unit * list (list string) :=
  match buffer with
  | [] => (Return tt, pending)
  | row :: rest =>
      if Nat.eqb (length row) ncols
      then bind_rows ncols rest (pending ++ [row])
      else (Raise ProgrammingError, pending)
  end.

(** [con.executemany(query, buffer)] *)
Definition executemany (ncols : nat) (t : option Table)
    (buffer pending : list (list string)) : res unit * list (list string) :=
  if prepare_insert ncols t then bind_rows ncols buffer pending
  else (Raise OperationalError, pending).

(** [con.commit()] *)
Definition commit (t : option Table) (pending : list (list string))
  : option Table :=
  match t with
  | Some tb => Some {| columns := columns tb; rows := rows tb ++ pending |}
  | None => None
  end.

Section BulkLoad.
(** The rows come from an iterator: a state of type [Src], [nxt] for
    [__next__], and [tell] for what [r.raw.tell()] answers in that state. *)
Variable Src : Type.
Variable nxt : Src -> res (list string) * Src.
Variable tell : Src -> Z.
(** [len(headers)], the declared size, and the table the connection sees. *)
Variable ncols : nat.
Variable size : Z.
Variable table : option Table.

Record Load : Type := mkLoad {
  source : Src;
  buffer : list (list string);
  pending : list (list string);
  load_posted : list Event;
  batches : list (list (list string))      (* the calls of executemany *)
}.

(** The [for count, row in enumerate(csv_reader)] loop. *)
Fixpoint load_loop (fuel : nat) (count : N) (st : Load) : res unit * Load :=
  match fuel with
  | 0 => (OutOfFuel, st)
  | S fuel' =>
      match nxt (source st) with
      | (Raise StopIteration, s1) =>
          (Return tt, {| source := s1; buffer := buffer st;
                         pending := pending st; load_posted := load_posted st;
                         batches := batches st |})
      | (Raise e, s1) =>
          (Raise e, {| source := s1; buffer := buffer st;
                       pending := pending st; load_posted := load_posted st;
                       batches := batches st |})
      | (OutOfFuel, s1) =>
          (OutOfFuel, {| source := s1; buffer := buffer st;
                         pending := pending st; load_posted := load_posted st;
                         batches := batches st |})
      | (Return row, s1) =>
          let buf := buffer st ++ [row] in
          if N.eqb (N.modulo count 1000) 0 then
            if Z.eqb size 0 then
              (Raise ZeroDivisionError,
               {| source := s1; buffer := buf; pending := pending st;
                  load_posted := load_posted st; batches := batches st |})
            else
              let posted :=
                load_posted st ++ [UpdateGaugeEvent (tell s1) size] in
              match executemany ncols table buf (pending st) with
              | (Return _, pend) =>
                  load_loop fuel' (N.succ count)
                    {| source := s1; buffer := []; pending := pend;
                       load_posted := posted; batches := batches st ++ [buf] |}
              | (Raise e, pend) =>
                  (Raise e, {| source := s1; buffer := buf; pending := pend;
                               load_posted := posted;
                               batches := batches st ++ [buf] |})
              | (OutOfFuel, pend) =>
                  (OutOfFuel, {| source := s1; buffer := buf; pending := pend;
                                 load_posted := posted;
                                 batches := batches st ++ [buf] |})
              end
          else
            load_loop fuel' (N.succ count)
              {| source := s1; buffer := buf; pending := pending st;
                 load_posted := load_posted st; batches := batches st |}
      end
  end.

(** The loop, the flush of what is left in the buffer, and the commit:
    the table afterwards, when all of it went through. *)
Definition load_rows (fuel : nat) (s : Src)
  : res (option Table) * Load :=
  match load_loop fuel 0
          {| source := s; buffer := []; pending := []; load_posted := [];
             batches := [] |} with
  | (Return _, st) =>
      match buffer st with
      | [] => (Return (commit table (pending st)), st)
      | buf =>
          match executemany ncols table buf (pending st) with
          | (Return _, pend) =>
              (Return (commit table pend),
               {| source := source st; buffer := buf; pending := pend;
                  load_posted := load_posted st;
                  batches := batches st ++ [buf] |})
          | (Raise e, pend) =>
              (Raise e, {| source := source st; buffer := buf; pending := pend;
                           load_posted := load_posted st;
                           batches := batches st ++ [buf] |})
          | (OutOfFuel, pend) => (OutOfFuel, st)
          end
      end
  | (Raise e, st) => (Raise e, st)
  | (OutOfFuel, st) => (OutOfFuel, st)
  end.

End BulkLoad.

Arguments mkLoad {Src}.
Arguments source {Src}.
Arguments buffer {Src}.
Arguments pending {Src}.
Arguments load_posted {Src}.
Arguments batches {Src}.
Arguments load_loop {Src}.
Arguments load_rows {Src}.

(** A list as an iterator. *)
Definition list_next (A : Type) (l : list A) : res A * list A :=
  match l with
  | [] => (Raise StopIteration, [])
  | x :: l' => (Return x, l')
  end.

(** ** The host: the footprints of the project *)

Record Footprint : Type := mkFootprint {
  reference : string;      (* fp[0] *)
  lcsc : string            (* fp[3]; empty when the footprint has no part *)
}.

(** ** The remote file *)

Inductive ContentLength : Type :=
| NoHeader
| NotInteger                 (* a header that [int()] rejects *)
| Length (n : Z).

Record Response : Type := mkResponse {
  status_code : Z;
  content_length : ContentLength;
  body : list bytes            (* what [iter_content] yields *)
}.

Record Run : Type := mkRun {
  db_after : DB;
  run_posted : list Event;
  inserted : list (list (list string));   (* the calls of [executemany] *)
  stock_set : list (string * string);     (* the calls of [store.set_stock] *)
  outcome : res unit
}.

Definition total_length (chunks : list bytes) : Z :=
  fold_right (fun c n => (Z.of_nat (length c) + n)%Z) 0%Z chunks.

Section Download.
Context {D : Decompressor} {E : SqlEngine}.
Local Open Scope string_scope.

(** [update_stock]: the loop over the footprints that have a part. *)
Fixpoint update_stock_loop (n total : Z) (fps : list Footprint) (db : DB)
    (posted : list Event) (calls : list (string * string))
  : res unit * list Event * list (string * string) :=
  match fps with
  | [] => (Return tt, posted, calls)
  | fp :: rest =>
      match get_stock (lcsc fp) db with
      | Return (Some (value :: _)) =>
          update_stock_loop (n + 1) total rest db
            (posted ++ [UpdateGaugeEvent n total])%list
            (calls ++ [(reference fp, value)])%list
      | Return _ => update_stock_loop (n + 1) total rest db posted calls
      | Raise e => (Raise e, posted, calls)
      | OutOfFuel => (OutOfFuel, posted, calls)
      end
  end.

Definition update_stock (store : list Footprint) (db : DB)
  : res unit * list Event * list (string * string) :=
  let footprints := filter (fun fp => truthy (lcsc fp)) store in
  update_stock_loop 0 (Z.of_nat (length footprints)) footprints db [] [].

(** [r.raw.tell()]: the bytes of the body taken off the iterator so far. *)
Definition raw_tell (resp : Response) (r : LZMAIterReader) : Z :=
  (total_length (body resp) - total_length (iter r))%Z.

Definition download_error (text : string) : Event :=
  MessageEvent "Download Error"
    ("Failed to download the JLCPCB database CSV, " ++ text) "error".

(** [size / 1024 / 1024] in the debug line of [download]: the true division
    of an integer by 1024 is the nearest double, and Python raises
    OverflowError when that is beyond the largest one, that is from
    [2^1034 - 2^980] on in absolute value.  The second division is on a
    double and does not raise. *)
Definition float_overflow_bound : Z := (2 ^ 1034 - 2 ^ 980)%Z.

Definition true_div_overflows (size : Z) : bool :=
  Z.leb float_overflow_bound (Z.abs size).

(** [download].  [elapsed] is the text of the running time in the closing
    message.  The debug line with the size in MiB is formatted after the
    size check and before the reader is made. *)
Definition download (resp : Response) (store : list Footprint)
    (elapsed : string) (db : DB) : Run :=
  if negb (Z.eqb (status_code resp) 200) then
    {| db_after := db;
       run_posted := [ResetGaugeEvent;
                      download_error
                        ("error code " ++ str_int (status_code resp))];
       inserted := []; stock_set := []; outcome := Return tt |}
  else
    match content_length resp with
    | NoHeader =>
        {| db_after := db;
           run_posted := [ResetGaugeEvent;
                          download_error "unable to determine size"];
           inserted := []; stock_set := []; outcome := Return tt |}
    | NotInteger =>
        {| db_after := db; run_posted := [ResetGaugeEvent];
           inserted := []; stock_set := [];
           outcome := Raise (ValueError "invalid literal for int()") |}
    | Length size =>
        let posted0 :=
          (ResetGaugeEvent ::
           (if Z.ltb size 1000
            then [download_error
                    ("file too small (" ++ str_int size ++ " bytes)")]
            else []))%list in
        if true_div_overflows size then
          {| db_after := db; run_posted := posted0;
             inserted := []; stock_set := [];
             outcome := Raise OverflowError |}
        else
        match csv_next (init (body resp)) with
        | (Return headers, l1) =>
            let db1 := snd (delete_parts_table db) in
            match create_parts_table headers db1 with
            | (Return _, db2) =>
                let db3 := snd (create_rotation_table db2) in
                match load_rows csv_next (raw_tell resp) (length headers) size
                        (parts db3) (S (reader_size l1)) l1 with
                | (Return t, st) =>
                    let db4 := {| parts := t; rotation := rotation db3 |} in
                    let '(o, stock_posted, calls) := update_stock store db4 in
                    match o with
                    | Return _ =>
                        {| db_after := db4;
                           run_posted :=
                             (posted0 ++ load_posted st ++ [ResetGaugeEvent]
                              ++ stock_posted
                              ++ [ResetGaugeEvent;
                                  MessageEvent "Success"
                                    ("Sucessfully downloaded and imported the JLCPCB database in "
                                     ++ elapsed ++ " seconds!") "info"])%list;
                           inserted := batches st; stock_set := calls;
                           outcome := Return tt |}
                    | _ =>
                        {| db_after := db4;
                           run_posted :=
                             (posted0 ++ load_posted st ++ [ResetGaugeEvent]
                              ++ stock_posted)%list;
                           inserted := batches st; stock_set := calls;
                           outcome := o |}
                    end
                | (o, st) =>
                    {| db_after := db3;
                       run_posted := (posted0 ++ load_posted st)%list;
                       inserted := batches st; stock_set := [];
                       outcome := match o with
                                  | Return _ => Return tt
                                  | Raise e => Raise e
                                  | OutOfFuel => OutOfFuel
                                  end |}
                end
            | (o, db2) =>
                {| db_after := db2; run_posted := posted0;
                   inserted := []; stock_set := [];
                   outcome := o |}
            end
        | (o, _) =>
            {| db_after := db; run_posted := posted0;
               inserted := []; stock_set := [];
               outcome := match o with
                          | Return _ => Return tt
                          | Raise e => Raise e
                          | OutOfFuel => OutOfFuel
                          end |}
        end
    end.

End Download.

(** The response with another declared length. *)
Definition with_length (resp : Response) (size : Z) : Response :=
  {| status_code := status_code resp; content_length := Length size;
     body := body resp |}.

(** Two states of the load that differ at most in the events posted. *)
Definition same_load {Src : Type} (a b : Load Src) : Prop :=
  source a = source b /\ buffer a = buffer b /\ pending a = pending b
  /\ batches a = batches b.

(** ** csv.writer

    [writerow] of the [csv] module for the default dialect: a field is
    written between double quotes, with its double quotes doubled, when it
    holds a delimiter, a double quote, or a character of the line
    terminator; a row that is one empty field is written as two quotes.
    The row ends with CRLF. *)

Definition crlf : string := String "013"%char (String "010"%char EmptyString).

Definition needs_quoting (c : ascii) : bool :=
  is_delimiter c || is_quotechar c || is_newline c.

Fixpoint has_special (s : string) : bool :=
  match s with
  | EmptyString => false
  | String c s' => needs_quoting c || has_special s'
  end.

Fixpoint escape_quotes (s : string) : string :=
  match s with
  | EmptyString => EmptyString
  | String c s' =>
      if is_quotechar c then String c (String c (escape_quotes s'))
      else String c (escape_quotes s')
  end.

Definition write_field (f : string) : string :=
  if has_special f then (dq ++ escape_quotes f ++ dq)%string else f.

Definition writerow (row : list string) : string :=
  match row with
  | [EmptyString] => (dq ++ dq ++ crlf)%string
  | _ => (join "," (map write_field row) ++ crlf)%string
  end.

(** The text of a file written row after row. *)
Definition csv_text (rows : list (list string)) : string :=
  String.concat EmptyString (map writerow rows).

(** ** gencsv.py *)

Module Gencsv.

(** A cell of a row of [v_components]. *)
Inductive Value : Type :=
| Null
| Int (z : Z)
| Text (s : string).

(** [str(v)] *)
Definition str (v : Value) : string :=
  match v with
  | Null => "None"
  | Int z => str_int z
  | Text s => s
  end.

(** What [csv.writer] writes for a value: nothing for [None], [str(v)]
    for a number, the text itself. *)
Definition csv_value (v : Value) : string :=
  match v with
  | Null => EmptyString
  | Int z => str_int z
  | Text s => s
  end.

(** An element of [json.loads(r["price"])].  The bounds are integers or
    [null]; [price] is the text [str()] gives the number. *)
Record PriceTier : Type := mkPriceTier {
  qFrom : option Z;
  qTo : option Z;
  price : string
}.

Record Component : Type := mkComponent {
  lcsc : Value;
  category : Value;
  subcategory : Value;
  mfr : Value;
  package : Value;
  joints : Value;
  manufacturer : Value;
  basic : Value;
  description : Value;
  datasheet : Value;
  stock : Value;
  prices : list PriceTier          (* json.loads(r["price"]) *)
}.

Definition header : list string :=
  ["LCSC Part"; "First Category"; "Second Category"; "MFR.Part"; "Package";
   "Solder Joint"; "Manufacturer"; "Library Type"; "Description";
   "Datasheet"; "Price"; "Stock"]%string.

(** [r["basic"] == 0] *)
Definition libtype (r : Component) : string :=
  match basic r with
  | Int 0 => "Basic"
  | _ => "Extended"
  end.

(** Truth value of a bound: [None] and [0] are false. *)
Definition bound_str (b : option Z) : string :=
  match b with
  | None => EmptyString
  | Some z => if Z.eqb z 0 then EmptyString else str_int z
  end.

Definition tier_str (t : PriceTier) : string :=
  (bound_str (qFrom t) ++ "-" ++ bound_str (qTo t) ++ ":" ++ price t)%string.

Definition pricestr (r : Component) : string :=
  join "," (map tier_str (prices r)).

(** The row handed to [csvf.writerow], as the texts the writer writes. *)
Definition export_row (r : Component) : list string :=
  [("C" ++ str (lcsc r))%string; csv_value (category r);
   csv_value (subcategory r); csv_value (mfr r); csv_value (package r);
   csv_value (joints r); csv_value (manufacturer r); libtype r;
   csv_value (description r); csv_value (datasheet r); pricestr r;
   csv_value (stock r)].

(** The text written through [io.TextIOWrapper(lzmaf, "utf-8")]. *)
Definition export_text (rs : list Component) : string :=
  csv_text (header :: map export_row rs).

End Gencsv.

(** [lzma.LZMAFile(csvname, "w")]: the compressed file of what is written
    to it; the decompressor gives the data back. *)
Class Compressor (D : Decompressor) : Type := {
  lzma_compress : bytes -> bytes;
  decompress_compress :
    forall data : bytes,
    exists d, decompress LZMADecompressor (lzma_compress data) = inr (d, data)
}.

(** [gencsv]: the bytes of the file it leaves. *)
Definition gencsv {D : Decompressor} {C : Compressor D}
    (rs : list Gencsv.Component) : bytes :=
  lzma_compress (encode_utf8 (Gencsv.export_text rs)).

(** ** The export format in the words of the specification

    The Library Type is [Basic] for the flag 0 and [Extended] for anything
    else.  A price tier is flattened to [qFrom-qTo:price]; a bound that is
    missing or 0 is left empty, the tier having no bound on that side.
    The tiers are joined by commas.  The other fields are the values of
    the record, the part number after a [C]. *)

Definition spec_library_type (flag : Gencsv.Value) : string :=
  match flag with
  | Gencsv.Int z => if Z.eqb z 0 then "Basic" else "Extended"
  | _ => "Extended"
  end.

Definition spec_bound (b : option Z) : string :=
  match b with
  | Some z => if Z.eqb z 0 then EmptyString else str_int z
  | None => EmptyString
  end.

Definition spec_tier (t : Gencsv.PriceTier) : string :=
  (spec_bound (Gencsv.qFrom t) ++ "-" ++ spec_bound (Gencsv.qTo t) ++ ":"
     ++ Gencsv.price t)%string.

Fixpoint spec_prices (ts : list Gencsv.PriceTier) : string :=
  match ts with
  | [] => EmptyString
  | t :: ts' =>
      match ts' with
      | [] => spec_tier t
      | _ :: _ => (spec_tier t ++ "," ++ spec_prices ts')%string
      end
  end.

Definition spec_row (r : Gencsv.Component) : list string :=
  [("C" ++ Gencsv.str (Gencsv.lcsc r))%string;
   Gencsv.csv_value (Gencsv.category r);
   Gencsv.csv_value (Gencsv.subcategory r);
   Gencsv.csv_value (Gencsv.mfr r);
   Gencsv.csv_value (Gencsv.package r);
   Gencsv.csv_value (Gencsv.joints r);
   Gencsv.csv_value (Gencsv.manufacturer r);
   spec_library_type (Gencsv.basic r);
   Gencsv.csv_value (Gencsv.description r);
   Gencsv.csv_value (Gencsv.datasheet r);
   spec_prices (Gencsv.prices r);
   Gencsv.csv_value (Gencsv.stock r)].

(** ** Devices of the round-trip proof *)

(** The number of characters of a text: its code units that do not
    continue a character. *)
Fixpoint char_count (s : string) : N :=
  match s with
  | EmptyString => 0%N
  | String c s' =>
      if is_continuation c then char_count s' else N.succ (char_count s')
  end.

(** A field the reader accepts: well-formed text within the field size
    limit. *)
Definition valid_field (f : string) : Prop :=
  utf8_valid (encode_utf8 f) = true /\ (char_count f <= field_limit)%N.

(** The reader [r] has the text [t] still to give: buffered or to come out
    of the decompressor, no chunk but the last decoding to nothing. *)
Definition reads {D : Decompressor} (r : LZMAIterReader) (t : bytes) : Prop :=
  chunk r = [] /\
  exists outs, decode_chunks (lzmad r) (iter r) = inr outs
               /\ Forall nonempty (removelast outs)
               /\ linebuf r ++ concat outs = t.

(** The first line of a text and what follows it. *)
Fixpoint first_line (s : string) : option (string * string) :=
  match s with
  | EmptyString => None
  | String c s' =>
      match s' with
      | String d s'' =>
          if Ascii.eqb c "013"%char && Ascii.eqb d "010"%char
          then Some (crlf, s'')
          else match first_line s' with
               | Some (l, rest) => Some (String c l, rest)
               | None => None
               end
      | EmptyString => None
      end
  end.

(** What follows a field in the text of a row. *)
Fixpoint tail_text (todo : list string) : string :=
  match todo with
  | [] => crlf
  | f :: todo' => ("," ++ write_field f ++ tail_text todo')%string
  end.

(** The reader's parser in the middle of the text of [row]: what it holds
    and the text still to come. *)
Inductive Config (row : list string) : Parser -> string -> Prop :=
| Cfg_record (f : string) (todo : list string) :
    row = f :: todo -> todo <> [] ->
    Config row parse_reset (write_field f ++ tail_text todo)%string
| Cfg_field (done : list string) (f : string) (todo : list string) :
    row = done ++ f :: todo ->
    Config row {| pstate := START_FIELD; fields := done; field := EmptyString;
                  field_len := 0 |}
           (write_field f ++ tail_text todo)%string
| Cfg_unquoted (done : list string) (pre post : string) (todo : list string) :
    row = done ++ (pre ++ post)%string :: todo ->
    has_special post = false ->
    Config row {| pstate := IN_FIELD; fields := done; field := pre;
                  field_len := char_count pre |}
           (post ++ tail_text todo)%string
| Cfg_quoted (done : list string) (pre post : string) (todo : list string) :
    row = done ++ (pre ++ post)%string :: todo ->
    Config row {| pstate := IN_QUOTED_FIELD; fields := done; field := pre;
                  field_len := char_count pre |}
           (escape_quotes post ++ dq ++ tail_text todo)%string
| Cfg_pair (done : list string) (pre post : string) (todo : list string) :
    row = done ++ (pre ++ String "034"%char post)%string :: todo ->
    Config row {| pstate := QUOTE_IN_QUOTED_FIELD; fields := done; field := pre;
                  field_len := char_count pre |}
           (dq ++ escape_quotes post ++ dq ++ tail_text todo)%string
| Cfg_closed (done : list string) (f : string) (todo : list string) :
    row = done ++ f :: todo ->
    Config row {| pstate := QUOTE_IN_QUOTED_FIELD; fields := done; field := f;
                  field_len := char_count f |}
           (tail_text todo)
| Cfg_cr :
    Config row {| pstate := EAT_CRNL; fields := row; field := EmptyString;
                  field_len := 0 |}
           (String "010"%char EmptyString)
| Cfg_done :
    Config row {| pstate := EAT_CRNL; fields := row; field := EmptyString;
                  field_len := 0 |}
           EmptyString.

(** The parser when the text of [row] is read up to its last LF. *)
Definition final_parser (row : list string) : Parser :=
  {| pstate := EAT_CRNL; fields := row; field := EmptyString; field_len := 0 |}.

(** What the parser is in after a line feed of the text of [row]: inside
    a quoted field, or at the end of the record. *)
Definition after_lf (row : list string) (p : Parser) (rem : string) : Prop :=
  pstate p = IN_QUOTED_FIELD \/ (rem = EmptyString /\ p = final_parser row).

Definition is_ascii_byte (x : byte) : Prop := Byte.to_nat x < 128.

(** A row the reader gives back as it was written: two fields or more,
    each within the field size limit. *)
Definition readable_row (row : list string) : Prop :=
  2 <= length row /\ Forall (fun f => (char_count f <= field_limit)%N) row.

(** The reader [s] stands in front of the text of [rows]. *)
Definition reads_rows {D : Decompressor} (s : LZMAIterReader)
    (rows : list (list string)) : Prop :=
  reads s (encode_utf8 (csv_text rows))
  /\ utf8_valid (encode_utf8 (csv_text rows)) = true
  /\ Forall readable_row rows.

(** The container of [StoredXZ] as a compressor. *)
Definition stored_compress (data : bytes) : bytes := xz_magic ++ data.

#[export] Instance StoredXZ_compressor : Compressor StoredXZ := {|
  lzma_compress := stored_compress;
  decompress_compress := fun data =>
    ex_intro
      (fun d => stored_decompress xz_magic (stored_compress data) = inr (d, data))
      [] eq_refl
|}.

(** ** Library.__init__ and set_order_by *)

(** The ordering a new [Library] starts with. *)
Definition Library_init : Library :=
  {| order_by := "LCSC Part"; order_dir := "ASC" |}.

Inductive IndexError : Type :=
| list_index_out_of_range.

(** [l[n]]: a negative index counts from the end of the list. *)
Definition getitem {A : Type} (l : list A) (n : Z) : IndexError + A :=
  let i := if Z.ltb n 0 then (n + Z.of_nat (length l))%Z else n in
  if Z.ltb i 0 then inl list_index_out_of_range
  else match nth_error l (Z.to_nat i) with
       | Some x => inr x
       | None => inl list_index_out_of_range
       end.

(** The list [order_by] of [set_order_by]. *)
Definition order_columns : list string :=
  ["LCSC Part"; "MFR.Part"; "Package"; "Solder Joint"; "Library Type";
   "Manufacturer"; "Description"; "Price"; "Stock"]%string.

(** [set_order_by]: the column is looked up first, so a call that raises
    leaves the library as it was. *)
Definition set_order_by (n : Z) (lib : Library) : IndexError + Library :=
  match getitem order_columns n with
  | inl e => inl e
  | inr col =>
      if String.eqb (order_by lib) col && String.eqb (order_dir lib) "ASC"
      then inr {| order_by := order_by lib; order_dir := "DESC" |}
      else inr {| order_by := col; order_dir := "ASC" |}
  end.

(** A sequence of calls on a library; a call that raises changes
    nothing. *)
Definition set_orders (ns : list Z) (lib : Library) : Library :=
  fold_left (fun l n => match set_order_by n l with
                        | inr l' => l'
                        | inl _ => l
                        end) ns lib.

(** ** Reading the rotation table *)

(** A row of [rotation] as [fetchone] and [fetchall] give it. *)
Definition correction_row (r : string * string) : list string :=
  [fst r; snd r].

(** [ORDER BY regex ASC]: texts are compared byte by byte.  SQLite does
    not fix the order of rows with the same regex, so the sort is an
    interface: the rows come back rearranged, neighbours in order. *)
Definition regex_le (a b : string * string) : Prop :=
  String.leb (fst a) (fst b) = true.

Class OrderBy : Type := {
  order_by_regex : list (string * string) -> list (string * string);
  order_by_regex_perm : forall rs, Permutation rs (order_by_regex rs);
  order_by_regex_sorted : forall rs, Sorted regex_le (order_by_regex rs)
}.

Section Corrections.
Context {E : SqlEngine}.

Definition get_correction_sql (regex : string) : string :=
  ("SELECT * FROM rotation WHERE regex = '" ++ regex ++ "'")%string.

(** [get_correction_data]: [fetchone()] is the first row, if any.  The
    regex is pasted into the statement, as in [delete_correction_data]. *)
Definition get_correction_data (regex : string) (db : DB)
  : res (option (list string)) :=
  if plain regex then
    match rotation db with
    | None => Raise OperationalError
    | Some rs =>
        Return (hd_error
                  (map correction_row
                     (filter (fun r => String.eqb (fst r) regex) rs)))
    end
  else
    match fetchall (get_correction_sql regex) db with
    | inl e => Raise e
    | inr rs => Return (hd_error rs)
    end.

(** [get_all_correction_data] *)
Definition get_all_correction_data {O : OrderBy} (db : DB)
  : res (list (list string)) :=
  match rotation db with
  | None => Raise OperationalError
  | Some rs => Return (map correction_row (order_by_regex rs))
  end.

(** The footprint has a part, and [get_stock] finds a row with [value]
    in front for it. *)
Definition stock_found (db : DB) (fp : Footprint) (value : string) : Prop :=
  truthy (lcsc fp) = true
  /\ exists row, get_stock (lcsc fp) db = Return (Some (value :: row)).

End Corrections.

(** A sort for concrete inputs: insertion from the right. *)
Fixpoint insert_row (r : string * string) (l : list (string * string))
  : list (string * string) :=
  match l with
  | [] => [r]
  | x :: l' =>
      if String.leb (fst r) (fst x) then r :: l else x :: insert_row r l'
  end.

Definition insertion_sort (rs : list (string * string))
  : list (string * string) :=
  fold_right insert_row [] rs.

(** Rows of a listing, the first by its regex strictly before the
    second. *)
Definition row_lt (a b : list string) : Prop :=
  String.ltb (hd EmptyString a) (hd EmptyString b) = true.

(** ** Keywords without quoting *)

(** The words of a text: its maximal runs of characters that are not
    whitespace.  [cur] is the word being read. *)
Fixpoint words_from (cur : string) (s : string) : list string :=
  match s with
  | EmptyString => if truthy cur then [cur] else []
  | String c s' =>
      if is_whitespace c
      then (if truthy cur then cur :: words_from EmptyString s'
            else words_from EmptyString s')
      else words_from (push cur c) s'
  end.

Definition split_words (s : string) : list string :=
  words_from EmptyString s.

(** The text has no quote character and no backslash. *)
Fixpoint unquoted (s : string) : bool :=
  match s with
  | EmptyString => true
  | String c s' => negb (is_quote c) && negb (is_escape c) && unquoted s'
  end.

(** ** Devices of the properties of the import *)

(** The sizes of the groups when [m] rows are taken 1000 at a time. *)
Definition group_sizes (m : nat) : list nat :=
  repeat 1000 (m / 1000)
  ++ (if Nat.eqb (m mod 1000) 0 then [] else [m mod 1000]).

(** An update of the gauge with a value from 0 to 100 percent; the other
    events are no matter. *)
Definition gauge_in_range (ev : Event) : Prop :=
  match ev with
  | UpdateGaugeEvent num den => (0 <= num <= den)%Z
  | _ => True
  end.

Definition is_update (ev : Event) : Prop :=
  match ev with
  | UpdateGaugeEvent _ _ => True
  | _ => False
  end.

(** The closing message of a run that went through. *)
Definition is_success (ev : Event) : Prop :=
  match ev with
  | MessageEvent title _ _ => title = "Success"%string
  | _ => False
  end.

(** What is left of the iterator of [r1] is an end of that of [r]. *)
Definition taken {D : Decompressor} (r r1 : LZMAIterReader) : Prop :=
  exists pre, iter r = pre ++ iter r1.

(** Sample components for the export. *)
Definition sample_components : list Gencsv.Component :=
  [ {| Gencsv.lcsc := Gencsv.Int 25804;
       Gencsv.category := Gencsv.Text "Resistors";
       Gencsv.subcategory := Gencsv.Text "Chip Resistor - Surface Mount";
       Gencsv.mfr := Gencsv.Text "0603WAF1002T5E";
       Gencsv.package := Gencsv.Text "0603";
       Gencsv.joints := Gencsv.Int 2;
       Gencsv.manufacturer := Gencsv.Text "UNI-ROYAL(Uniroyal Elec)";
       Gencsv.basic := Gencsv.Int 0;
       Gencsv.description := Gencsv.Text "10k, 1%";
       Gencsv.datasheet := Gencsv.Null;
       Gencsv.stock := Gencsv.Int 1000;
       Gencsv.prices :=
         [ {| Gencsv.qFrom := Some 1%Z; Gencsv.qTo := Some 9%Z;
              Gencsv.price := "0.0051" |};
           {| Gencsv.qFrom := Some 10%Z; Gencsv.qTo := None;
              Gencsv.price := "0.0038" |} ] |};
    {| Gencsv.lcsc := Gencsv.Int 7;
       Gencsv.category := Gencsv.Text "Capacitors";
       Gencsv.subcategory := Gencsv.Null;
       Gencsv.mfr := Gencsv.Text "CL10";
       Gencsv.package := Gencsv.Text "0603";
       Gencsv.joints := Gencsv.Int 2;
       Gencsv.manufacturer := Gencsv.Text "Samsung";
       Gencsv.basic := Gencsv.Int 1;
       Gencsv.description :=
         Gencsv.Text (String "034"%char (String "013"%char
                        (String "010"%char "100nF")));
       Gencsv.datasheet := Gencsv.Text "https://example.org/a,b";
       Gencsv.stock := Gencsv.Int 0;
       Gencsv.prices :=
         [ {| Gencsv.qFrom := Some 0%Z; Gencsv.qTo := Some 99%Z;
              Gencsv.price := "0.01" |};
           {| Gencsv.qFrom := Some 100%Z; Gencsv.qTo := None;
              Gencsv.price := "0.005" |} ] |} ]%string.

(** Sample data for the bulk load: a header of five columns and [n] data
    rows. *)
Definition header5 : list string :=
  ["LCSC Part"; "MFR.Part"; "Package"; "Library Type"; "Stock"]%string.

Definition numbered_rows (n : nat) : list (list string) :=
  map (fun i => [("C" ++ str_int (Z.of_nat i))%string; "RC0603"; "0603";
                 "Basic"; "100"]%string)
      (seq 1 n).

(** The file of the sample: the csv text, in the container of
    [StoredXZ]. *)
Definition sample_file (n : nat) : bytes :=
  (xz_magic ++ encode_utf8 (csv_text (header5 :: numbered_rows n)))%list.

(** A second container for concrete inputs: the payload ends at the
    first NUL byte; what follows it in the chunk is not used, and a later
    chunk is refused with [EOFError], as an [LZMADecompressor] that has
    reached the end of its stream refuses more data. *)
Fixpoint until_nul (data : bytes) : bytes * bool :=
  match data with
  | [] => ([], false)
  | b :: data' =>
      if Byte.eqb b x00 then ([], true)
      else let (out, ended) := until_nul data' in (b :: out, ended)
  end.

Definition nul_decompress (ended : bool) (data : bytes)
  : Exn + (bool * bytes) :=
  if ended then inl EOFError
  else let (out, ended') := until_nul data in inr (ended', out).

Definition NulTerminated : Decompressor := {|
  dstate := bool;
  LZMADecompressor := false;
  decompress := nul_decompress
|}.

(** Sample data for the further properties. *)
Definition ab_cd : bytes := [x61; x62; x0d; x0a; x63; x64; x0d; x0a].

Definition sample_corrections : list (string * string) :=
  [("R.*", "90"); ("C.*", "0"); ("D.*", "180")]%string.

Definition sample_store : DB :=
  {| parts := Some {| columns := ["a"; "b"]%string;
                      rows := [["0"; "0"]]%string |};
     rotation := Some sample_corrections |}.

(** A file whose lines end with a bare LF. *)
Definition lf_only_file : bytes :=
  (xz_magic ++ [x61; x2c; x62; x0a; x31; x2c; x32; x0a])%list.

(** A file whose second data row has one value for two columns, and a
    file whose header names a column twice. *)
Definition short_row_file : bytes :=
  (xz_magic
   ++ encode_utf8 (csv_text [["a"; "b"]; ["1"; "2"]; ["3"]]%string))%list.

Definition twice_a_file : bytes :=
  (xz_magic ++ encode_utf8 (csv_text [["a"; "a"]; ["1"; "2"]]%string))%list.

Definition two_tier_part : Gencsv.Component :=
  {| Gencsv.lcsc := Gencsv.Int 1;
     Gencsv.category := Gencsv.Null;
     Gencsv.subcategory := Gencsv.Null;
     Gencsv.mfr := Gencsv.Null;
     Gencsv.package := Gencsv.Null;
     Gencsv.joints := Gencsv.Int 2;
     Gencsv.manufacturer := Gencsv.Null;
     Gencsv.basic := Gencsv.Int 0;
     Gencsv.description := Gencsv.Null;
     Gencsv.datasheet := Gencsv.Null;
     Gencsv.stock := Gencsv.Int 5;
     Gencsv.prices :=
       [ {| Gencsv.qFrom := Some 1%Z; Gencsv.qTo := Some 9%Z;
            Gencsv.price := "0.5" |};
         {| Gencsv.qFrom := Some 10%Z; Gencsv.qTo := None;
            Gencsv.price := "0.4" |} ]%string |}.

(** A record with two price tiers and the description [t]. *)
Definition described_part (t : string) : Gencsv.Component :=
  {| Gencsv.lcsc := Gencsv.Int 1;
     Gencsv.category := Gencsv.Null;
     Gencsv.subcategory := Gencsv.Null;
     Gencsv.mfr := Gencsv.Null;
     Gencsv.package := Gencsv.Null;
     Gencsv.joints := Gencsv.Int 2;
     Gencsv.manufacturer := Gencsv.Null;
     Gencsv.basic := Gencsv.Int 0;
     Gencsv.description := Gencsv.Text t;
     Gencsv.datasheet := Gencsv.Null;
     Gencsv.stock := Gencsv.Int 5;
     Gencsv.prices :=
       [ {| Gencsv.qFrom := Some 1%Z; Gencsv.qTo := Some 9%Z;
            Gencsv.price := "0.5" |};
         {| Gencsv.qFrom := Some 10%Z; Gencsv.qTo := None;
            Gencsv.price := "0.4" |} ]%string |}.

(** What follows the description in the text of its row. *)
Definition described_rest : string :=
  (",," ++ dq ++ "1-9:0.5,10-:0.4" ++ dq ++ ",5")%string.

(** The text of [n] letters a. *)
Fixpoint letters (n : nat) : string :=
  match n with
  | 0 => EmptyString
  | S n' => String "a"%char (letters n')
  end.

(* ================================================================== *)
(** * Part II: properties                                              *)
(* ================================================================== *)

(** ** The line reader *)

Lemma starts_crlf_iff (s : bytes) :
  starts_crlf s = true <-> exists t, s = CR :: LF :: t.
Proof.
  split.
  - destruct s as [|c [|d t]]; simpl; try discriminate.
    intros H. apply andb_prop in H. destruct H as [Hc Hd].
    apply Byte.byte_dec_bl in Hc, Hd. subst. now exists t.
  - intros [t ->]. reflexivity.
Qed.

Lemma find_crlf_cons (c : byte) (s : bytes) :
  find_crlf (c :: s)
  = if starts_crlf (c :: s) then Some 0 else option_map S (find_crlf s).
Proof. reflexivity. Qed.

(** The index [find] returns is that of a CRLF, and the text up to and
    including it has its first CRLF there. *)
Lemma find_crlf_Some (s : bytes) (i : nat) :
  find_crlf s = Some i ->
  exists a b, s = a ++ CRLF ++ b /\ length a = i /\
              find_crlf (a ++ CRLF) = Some i.
Proof.
  revert i. induction s as [|c s IH]; intros i H; [discriminate|].
  rewrite find_crlf_cons in H.
  destruct (starts_crlf (c :: s)) eqn:E.
  - injection H as <-. apply starts_crlf_iff in E. destruct E as [t E].
    exists [], t. rewrite E. repeat split.
  - destruct (find_crlf s) as [j|] eqn:F; [|discriminate].
    injection H as <-.
    destruct (IH j eq_refl) as (a & b & -> & Hlen & Hf).
    exists (c :: a), b. repeat split; [simpl; now rewrite Hlen|].
    change ((c :: a) ++ CRLF) with (c :: (a ++ CRLF)).
    rewrite find_crlf_cons, Hf.
    assert (starts_crlf (c :: a ++ CRLF) = false) as ->; [|reflexivity].
    destruct a as [|d a]; simpl in *.
    + destruct (Byte.eqb c CR); reflexivity.
    + exact E.
Qed.

Section ReaderFacts.
Context {D : Decompressor}.

Lemma skipn_min_all (A : Type) (l : list A) :
  skipn (Nat.min (length l) (length l)) l = [].
Proof. rewrite Nat.min_id. apply skipn_all. Qed.

Lemma firstn_min_all (A : Type) (l : list A) :
  firstn (Nat.min (length l) (length l)) l = l.
Proof. rewrite Nat.min_id. apply firstn_all. Qed.

(** [read] hands out the whole of [chunk] and leaves it empty. *)
Lemma read_Return (r : LZMAIterReader) (data : bytes) (r1 : LZMAIterReader) :
  read r = (Return data, r1) ->
  chunk r1 = [] /\ linebuf r1 = linebuf r /\
  ((chunk r <> [] /\ data = chunk r /\ iter r1 = iter r /\ lzmad r1 = lzmad r)
   \/ (chunk r = [] /\ exists c rest,
         iter r = c :: rest /\ iter r1 = rest /\
         decompress (lzmad r) c = inr (lzmad r1, data))).
Proof.
  unfold read. destruct (chunk r) as [|b ch] eqn:Ech; simpl.
  - destruct (iter r) as [|c rest] eqn:Eit; [discriminate|].
    destruct (decompress (lzmad r) c) as [e|[d' out]] eqn:Ed; [discriminate|].
    cbn [chunk iter linebuf lzmad].
    rewrite skipn_min_all, firstn_min_all. intros H. injection H as <- <-.
    cbn. repeat split. right. split; [reflexivity|].
    exists c, rest. now rewrite Ed.
  - rewrite Ech. rewrite skipn_min_all, firstn_min_all.
    intros H. injection H as <- <-. cbn. repeat split.
    left. repeat split. discriminate.
Qed.

Lemma read_no_OutOfFuel (r r1 : LZMAIterReader) :
  read r <> (OutOfFuel, r1).
Proof.
  unfold read. destruct (Nat.eqb (length (chunk r)) 0).
  - destruct (iter r) as [|c rest]; [discriminate|].
    destruct (decompress (lzmad r) c) as [e|[d' out]]; discriminate.
  - discriminate.
Qed.

Lemma readline_loop_enough (fuel : nat) (r : LZMAIterReader) :
  loop_measure r < fuel ->
  forall r1, readline_loop fuel r <> (OutOfFuel, r1).
Proof.
  revert r. induction fuel as [|fuel IH]; intros r Hm r1; [lia|].
  cbn [readline_loop]. destruct (find_crlf (linebuf r)); [discriminate|].
  destruct (read r) as [[data | e |] r2] eqn:Er; try discriminate.
  - destruct (Nat.eqb (length data) 0) eqn:El; [discriminate|].
    apply IH. apply read_Return in Er.
    destruct Er as (Hc & _ & [(Hne & _ & Hit & _) | (He & c & rest & Hit & Hit1 & _)]);
      unfold loop_measure in *; cbn [iter chunk]; rewrite Hc; simpl.
    + rewrite Hit. destruct (chunk r); [congruence|]. simpl in Hm. lia.
    + rewrite Hit1. rewrite Hit in Hm. simpl in Hm. lia.
  - exfalso. eapply read_no_OutOfFuel; eauto.
Qed.

(** [readline] always comes back: with a line, or with an exception. *)
Lemma readline_no_OutOfFuel (r r1 : LZMAIterReader) :
  readline r <> (OutOfFuel, r1).
Proof.
  unfold readline.
  destruct (readline_loop (readline_budget r) r) as [[idx | e |] r2] eqn:E;
    try discriminate.
  exfalso. eapply readline_loop_enough; [|exact E].
  unfold loop_measure, readline_budget.
  destruct (Nat.eqb (length (chunk r)) 0); lia.
Qed.

Lemma readline_loop_Return (fuel : nat) (r : LZMAIterReader) (idx : nat)
      (r1 : LZMAIterReader) :
  readline_loop fuel r = (Return idx, r1) ->
  find_crlf (linebuf r1) = Some idx.
Proof.
  revert r. induction fuel as [|fuel IH]; intros r; cbn [readline_loop].
  - destruct (find_crlf (linebuf r)) eqn:F; [|discriminate].
    intros H. injection H as <- <-. exact F.
  - destruct (find_crlf (linebuf r)) eqn:F.
    + intros H. injection H as <- <-. exact F.
    + destruct (read r) as [[data | e |] r2]; try discriminate.
      destruct (Nat.eqb (length data) 0); [discriminate|]. apply IH.
Qed.

Lemma firstn_app_exact (A : Type) (a b : list A) (n : nat) :
  length a = n -> firstn n (a ++ b) = a.
Proof.
  intros <-. rewrite firstn_app, Nat.sub_diag, firstn_all. simpl.
  apply app_nil_r.
Qed.

Lemma skipn_app_exact (A : Type) (a b : list A) (n : nat) :
  length a = n -> skipn n (a ++ b) = b.
Proof.
  intros <-. rewrite skipn_app, Nat.sub_diag, skipn_all. reflexivity.
Qed.

(** A line that [readline] returns is the text of [linebuf] up to and
    including its first CRLF. *)
Lemma readline_Return (r : LZMAIterReader) (line : bytes) (r1 : LZMAIterReader) :
  readline r = (Return line, r1) ->
  exists body, line = body ++ CRLF /\ find_crlf line = Some (length body).
Proof.
  unfold readline.
  destruct (readline_loop (readline_budget r) r) as [[idx | e |] r2] eqn:E;
    try discriminate.
  intros H. injection H as <- <-.
  apply readline_loop_Return in E. apply find_crlf_Some in E.
  destruct E as (a & b & Hl & Hlen & Hf). exists a. rewrite Hl.
  assert (firstn (idx + 2) (a ++ CRLF ++ b) = a ++ CRLF) as ->.
  { rewrite app_assoc. apply firstn_app_exact.
    rewrite length_app. simpl. lia. }
  split; [reflexivity|]. now rewrite Hlen.
Qed.

(** With the iterator exhausted and nothing buffered but text without a
    CRLF, [readline] raises [StopIteration]: the text is never returned. *)
Lemma readline_trailing (text : bytes) (d : dstate) :
  find_crlf text = None ->
  readline {| iter := []; chunk := []; linebuf := text; lzmad := d |}
  = (Raise StopIteration,
     {| iter := []; chunk := []; linebuf := text; lzmad := d |}).
Proof.
  intros F. unfold readline, readline_budget. cbn [iter length readline_loop linebuf].
  rewrite F. reflexivity.
Qed.

End ReaderFacts.

(** C10.  Every line that [readline] returns ends with the two bytes CRLF
    and has no CRLF before that one (its first CRLF is its last two bytes),
    so a line break that is a bare LF never ends a line; and text without a
    CRLF that is left in the buffer when the chunks are exhausted is not
    returned as a line: [readline] raises [StopIteration] and the text
    stays behind. *)
Theorem readline_splits_at_crlf_only {D : Decompressor}
    (r : LZMAIterReader) (line : bytes) (r1 : LZMAIterReader)
    (text : bytes) (d : dstate) :
  (readline r = (Return line, r1) ->
   exists body, line = body ++ CRLF /\ find_crlf line = Some (length body))
  /\
  (find_crlf text = None ->
   readline {| iter := []; chunk := []; linebuf := text; lzmad := d |}
   = (Raise StopIteration,
      {| iter := []; chunk := []; linebuf := text; lzmad := d |})).
Proof.
  split.
  - apply readline_Return.
  - apply readline_trailing.
Qed.

(** At the chunk [magic ++ "ab\r\ncd\nef"] the first line is ["ab\r\n"];
    the rest, ["cd\nef"], has a bare LF only and gives no line. *)
Lemma readline_splits_at_crlf_only_witness :
  (exists body, [x61; x62; x0d; x0a] = body ++ CRLF /\
                find_crlf [x61; x62; x0d; x0a] = Some (length body))
  /\ readline {| iter := []; chunk := []; linebuf := [x63; x64; x0a; x65; x66];
                 lzmad := ([] : @dstate StoredXZ) |}
     = (Raise StopIteration,
        {| iter := []; chunk := []; linebuf := [x63; x64; x0a; x65; x66];
           lzmad := ([] : @dstate StoredXZ) |}).
Proof.
  pose proof (@readline_splits_at_crlf_only StoredXZ
                (init [xz_magic ++ [x61; x62; x0d; x0a; x63; x64; x0a; x65; x66]])
                [x61; x62; x0d; x0a]
                {| iter := []; chunk := []; linebuf := [x63; x64; x0a; x65; x66];
                   lzmad := ([] : @dstate StoredXZ) |}
                [x63; x64; x0a; x65; x66] []) as [H1 H2].
  split.
  - apply H1. reflexivity.
  - apply H2. reflexivity.
Defined.

(** ** The reader against the specification's splitting *)

Lemma find_crlf_app_Some (a b : bytes) (i : nat) :
  find_crlf a = Some i -> find_crlf (a ++ b) = Some i.
Proof.
  revert i. induction a as [|c a IH]; intros i H; [discriminate|].
  rewrite find_crlf_cons in H. rewrite <- app_comm_cons, find_crlf_cons.
  destruct (starts_crlf (c :: a)) eqn:E.
  - apply starts_crlf_iff in E. destruct E as [t E].
    injection E as -> ->. exact H.
  - destruct (find_crlf a) as [j|] eqn:F; [|discriminate].
    rewrite (IH j eq_refl).
    destruct a as [|d a]; [discriminate|].
    simpl in E |- *. now rewrite E.
Qed.

Lemma find_crlf_app_None (a b : bytes) :
  find_crlf (a ++ b) = None -> find_crlf a = None.
Proof.
  intros H. destruct (find_crlf a) as [i|] eqn:F; [|reflexivity].
  apply find_crlf_app_Some with (b := b) in F. congruence.
Qed.

Lemma find_crlf_bound (s : bytes) (i : nat) :
  find_crlf s = Some i -> i + 2 <= length s.
Proof.
  intros H. apply find_crlf_Some in H. destruct H as (a & b & -> & <- & _).
  rewrite length_app. simpl. lia.
Qed.

Lemma split_lines_from_cons2 (cur : bytes) (c d : byte) (s : bytes) :
  split_lines_from cur (c :: d :: s)
  = if Byte.eqb c CR && Byte.eqb d LF
    then rev (d :: c :: cur) :: split_lines_from [] s
    else split_lines_from (c :: cur) (d :: s).
Proof. reflexivity. Qed.

(** The specification's splitting, one line at a time. *)
Lemma split_lines_from_find (s cur : bytes) :
  split_lines_from cur s
  = match find_crlf s with
    | None => []
    | Some i => (rev cur ++ firstn (i + 2) s)
                :: split_lines_from [] (skipn (i + 2) s)
    end.
Proof.
  revert cur. induction s as [|c s IH]; intros cur; [reflexivity|].
  rewrite find_crlf_cons. destruct s as [|d s]; [reflexivity|].
  rewrite split_lines_from_cons2. cbn [starts_crlf].
  destruct (Byte.eqb c CR && Byte.eqb d LF).
  - simpl. now rewrite <- !app_assoc.
  - rewrite IH. destruct (find_crlf (d :: s)) as [j|]; [|reflexivity].
    simpl. now rewrite <- app_assoc.
Qed.

Lemma spec_split_lines_find (s : bytes) :
  spec_split_lines s
  = match find_crlf s with
    | None => []
    | Some i => firstn (i + 2) s :: spec_split_lines (skipn (i + 2) s)
    end.
Proof. unfold spec_split_lines. now rewrite split_lines_from_find. Qed.

Section ReaderSpec.
Context {D : Decompressor}.

Lemma decode_chunks_cons (d : dstate) (c : bytes) (rest : list bytes)
      (outs : list bytes) :
  decode_chunks d (c :: rest) = inr outs ->
  exists d1 o1 outs1,
    decompress d c = inr (d1, o1) /\ decode_chunks d1 rest = inr outs1 /\
    outs = o1 :: outs1.
Proof.
  simpl. destruct (decompress d c) as [e|[d1 o1]]; [discriminate|].
  destruct (decode_chunks d1 rest) as [e|outs1] eqn:E; [discriminate|].
  intros H. injection H as <-. exists d1, o1, outs1. repeat split. exact E.
Qed.

Lemma decode_chunks_length (it : list bytes) (d : dstate) (outs : list bytes) :
  decode_chunks d it = inr outs -> length outs = length it.
Proof.
  revert d outs. induction it as [|c rest IH]; intros d outs H.
  - injection H as <-. reflexivity.
  - apply decode_chunks_cons in H.
    destruct H as (d1 & o1 & outs1 & _ & H & ->). simpl. f_equal. eauto.
Qed.

(** The loop of [readline] when every chunk but the last decodes to
    something: it stops at the first CRLF of the text to come, or raises
    [StopIteration] when there is none. *)
Lemma readline_loop_spec (it : list bytes) :
  forall (fuel : nat) (buf : bytes) (d : dstate) (outs : list bytes),
  decode_chunks d it = inr outs ->
  Forall nonempty (removelast outs) ->
  length it < fuel ->
  match find_crlf (buf ++ concat outs) with
  | None =>
      exists r', readline_loop fuel
                   {| iter := it; chunk := []; linebuf := buf; lzmad := d |}
                 = (Raise StopIteration, r')
  | Some i =>
      exists it' d' outs' buf',
        readline_loop fuel
          {| iter := it; chunk := []; linebuf := buf; lzmad := d |}
        = (Return i, {| iter := it'; chunk := []; linebuf := buf'; lzmad := d' |})
        /\ decode_chunks d' it' = inr outs'
        /\ Forall nonempty (removelast outs')
        /\ buf' ++ concat outs' = buf ++ concat outs
        /\ length it' <= length it
  end.
Proof.
  induction it as [|c rest IH]; intros fuel buf d outs Hdec Hne Hfuel.
  - injection Hdec as <-. simpl. rewrite app_nil_r.
    destruct fuel as [|fuel]; [lia|]. cbn [readline_loop linebuf].
    destruct (find_crlf buf) as [i|] eqn:F.
    + exists [], d, [], buf. simpl. rewrite app_nil_r. repeat split; auto.
    + eexists. reflexivity.
  - destruct fuel as [|fuel]; [simpl in Hfuel; lia|].
    cbn [readline_loop linebuf].
    destruct (find_crlf buf) as [i|] eqn:F.
    + rewrite (find_crlf_app_Some buf _ i F).
      exists (c :: rest), d, outs, buf. repeat split; auto.
    + apply decode_chunks_cons in Hdec.
      destruct Hdec as (d1 & o1 & outs1 & Hd & Hdec1 & ->).
      unfold read. cbn [chunk length Nat.eqb iter lzmad linebuf].
      rewrite Hd. cbn [chunk iter linebuf lzmad].
      rewrite skipn_min_all, firstn_min_all.
      destruct o1 as [|b o1].
      * (* an empty output: the loop takes it for the end of the data *)
        destruct outs1 as [|o2 outs2].
        -- simpl. rewrite app_nil_r, F. eexists. reflexivity.
        -- simpl in Hne. inversion Hne as [|? ? Hbad _]. now elim Hbad.
      * cbn [length Nat.eqb].
        assert (Hne1 : Forall nonempty (removelast outs1)).
        { destruct outs1 as [|o2 outs2]; [constructor|].
          simpl in Hne. now inversion Hne. }
        specialize (IH fuel (buf ++ b :: o1) d1 outs1 Hdec1 Hne1
                       ltac:(simpl in Hfuel; lia)).
        cbn [concat]. rewrite app_assoc.
        destruct (find_crlf ((buf ++ b :: o1) ++ concat outs1)) as [i|].
        -- destruct IH as (it' & d' & outs' & buf' & E & H1 & H2 & H3 & H4).
           exists it', d', outs', buf'. repeat split; auto.
        -- exact IH.
Qed.

End ReaderSpec.

Section ReaderLines.
Context {D : Decompressor}.

Lemma firstn_app_le (A : Type) (a b : list A) (n : nat) :
  n <= length a -> firstn n (a ++ b) = firstn n a.
Proof.
  intros H. rewrite firstn_app.
  replace (n - length a) with 0 by lia. simpl. apply app_nil_r.
Qed.

Lemma skipn_app_le (A : Type) (a b : list A) (n : nat) :
  n <= length a -> skipn n (a ++ b) = skipn n a ++ b.
Proof.
  intros H. rewrite skipn_app.
  replace (n - length a) with 0 by lia. reflexivity.
Qed.

(** One call of [readline] against the text still to come. *)
Lemma readline_spec (it : list bytes) (buf : bytes) (d : dstate)
      (outs : list bytes) :
  decode_chunks d it = inr outs ->
  Forall nonempty (removelast outs) ->
  match find_crlf (buf ++ concat outs) with
  | None =>
      exists r', readline {| iter := it; chunk := []; linebuf := buf; lzmad := d |}
                 = (Raise StopIteration, r')
  | Some i =>
      exists it' d' outs' buf',
        readline {| iter := it; chunk := []; linebuf := buf; lzmad := d |}
        = (Return (firstn (i + 2) (buf ++ concat outs)),
           {| iter := it'; chunk := []; linebuf := buf'; lzmad := d' |})
        /\ decode_chunks d' it' = inr outs'
        /\ Forall nonempty (removelast outs')
        /\ buf' ++ concat outs' = skipn (i + 2) (buf ++ concat outs)
        /\ length it' <= length it
  end.
Proof.
  intros Hdec Hne.
  pose proof (@readline_loop_spec D it (S (S (length it))) buf d outs Hdec Hne
                ltac:(lia)) as L.
  unfold readline, readline_budget. cbn [iter].
  destruct (find_crlf (buf ++ concat outs)) as [i|] eqn:F.
  - destruct L as (it' & d' & outs' & buf0 & E & H1 & H2 & H3 & H4).
    rewrite E. cbn [linebuf iter chunk lzmad].
    apply readline_loop_Return in E. cbn [linebuf] in E.
    apply find_crlf_bound in E.
    exists it', d', outs', (skipn (i + 2) buf0).
    rewrite <- H3. rewrite firstn_app_le, skipn_app_le by exact E.
    repeat split; auto.
  - destruct L as [r' E]. rewrite E. now exists r'.
Qed.

(** Iterating the reader when every chunk but the last decodes to
    something: the lines are those of the whole decoded text. *)
Lemma drain_spec (fuel : nat) :
  forall (it : list bytes) (buf : bytes) (d : dstate) (outs : list bytes),
  decode_chunks d it = inr outs ->
  Forall nonempty (removelast outs) ->
  length (buf ++ concat outs) < fuel ->
  exists r',
    drain fuel {| iter := it; chunk := []; linebuf := buf; lzmad := d |}
    = (spec_split_lines (buf ++ concat outs), Raise StopIteration, r').
Proof.
  induction fuel as [|fuel IH]; intros it buf d outs Hdec Hne Hfuel; [lia|].
  cbn [drain]. unfold next.
  pose proof (readline_spec it buf d outs Hdec Hne) as R.
  rewrite spec_split_lines_find.
  destruct (find_crlf (buf ++ concat outs)) as [i|] eqn:F.
  - destruct R as (it' & d' & outs' & buf' & E & H1 & H2 & H3 & H4).
    rewrite E. apply find_crlf_bound in F.
    destruct (IH it' buf' d' outs' H1 H2) as [r' E'].
    { rewrite H3, length_skipn. lia. }
    rewrite E', H3. now exists r'.
  - destruct R as [r' E]. rewrite E. now exists r'.
Qed.

Lemma pending_output_decode (it : list bytes) (d : dstate) (outs : list bytes) :
  decode_chunks d it = inr outs ->
  pending_output d it = length (concat outs).
Proof.
  revert d outs. induction it as [|c rest IH]; intros d outs H.
  - injection H as <-. reflexivity.
  - apply decode_chunks_cons in H.
    destruct H as (d1 & o1 & outs1 & Hd & H & ->).
    simpl. rewrite Hd, length_app. f_equal. eauto.
Qed.

(** The reader agrees with the specification for every chunking in which
    no chunk but the last decodes to nothing. *)
Theorem lines_of_chunks_spec (it : list bytes) (outs : list bytes) :
  decode_chunks LZMADecompressor it = inr outs ->
  Forall nonempty (removelast outs) ->
  lines_of_chunks it = (spec_split_lines (concat outs), Raise StopIteration).
Proof.
  intros Hdec Hne. unfold lines_of_chunks, init, reader_size.
  cbn [linebuf chunk iter lzmad length]. rewrite (pending_output_decode it _ outs Hdec).
  destruct (@drain_spec (S (length (concat outs))) it [] LZMADecompressor outs
              Hdec Hne ltac:(simpl; lia)) as [r' E].
  simpl in E |- *. rewrite E. reflexivity.
Qed.

(** For a streaming decompressor the outputs of the chunks make up the
    output of the whole stream. *)
Lemma decode_chunks_whole_from {HS : Streaming D} (it : list bytes) :
  forall (d : dstate) (outs : list bytes),
  it <> [] ->
  decode_chunks d it = inr outs ->
  exists d', decompress d (concat it) = inr (d', concat outs).
Proof.
  induction it as [|c rest IH]; intros d outs Hne H; [congruence|].
  apply decode_chunks_cons in H.
  destruct H as (d1 & o1 & outs1 & Hd & H & ->).
  destruct rest as [|c2 rest].
  - simpl in H. injection H as <-. simpl. rewrite !app_nil_r. now exists d1.
  - assert (Hne2 : c2 :: rest <> []) by discriminate.
    destruct (IH d1 outs1 Hne2 H) as [d2 E].
    change (concat (c :: c2 :: rest)) with (c ++ concat (c2 :: rest)).
    change (concat (o1 :: outs1)) with (o1 ++ concat outs1).
    exact (decompress_app _ _ _ _ _ _ _ Hd E).
Qed.

Lemma decode_chunks_whole {HS : Streaming D} (it : list bytes)
    (outs : list bytes) :
  decode_chunks LZMADecompressor it = inr outs ->
  exists d', decompress LZMADecompressor (concat it) = inr (d', concat outs).
Proof.
  intros H. destruct it as [|c rest].
  - simpl in H. injection H as <-. apply decompress_new_nil.
  - apply decode_chunks_whole_from; [discriminate | exact H].
Qed.

(** For a streaming decompressor, and a chunking in which no chunk but
    the last decodes to nothing, the reader returns the lines of the
    stream decompressed at once. *)
Theorem lines_of_chunks_whole {HS : Streaming D} (it : list bytes)
        (outs : list bytes) :
  decode_chunks LZMADecompressor it = inr outs ->
  Forall nonempty (removelast outs) ->
  exists ls, spec_lines (concat it) = Some ls /\
             lines_of_chunks it = (ls, Raise StopIteration).
Proof.
  intros Hdec Hne. exists (spec_split_lines (concat outs)). split.
  - unfold spec_lines. destruct (decode_chunks_whole it outs Hdec) as [d' E].
    now rewrite E.
  - now apply lines_of_chunks_spec.
Qed.

End ReaderLines.

(** The iteration of the reader always ends. *)
Section ReaderTotal.
Context {D : Decompressor}.

Lemma read_size (r : LZMAIterReader) (data : bytes) (r1 : LZMAIterReader) :
  read r = (Return data, r1) ->
  reader_size r1 + length data = reader_size r.
Proof.
  intros H. apply read_Return in H.
  destruct H as (Hc & Hl & [(Hne & -> & Hit & Hd) | (He & c & rest & Hit & Hit1 & Hd)]);
    unfold reader_size; rewrite Hc, Hl.
  - rewrite Hit, Hd. simpl. lia.
  - rewrite He, Hit, Hit1. simpl. rewrite Hd. lia.
Qed.

Lemma readline_loop_size (fuel : nat) :
  forall (r : LZMAIterReader) (idx : nat) (r1 : LZMAIterReader),
  readline_loop fuel r = (Return idx, r1) -> reader_size r1 = reader_size r.
Proof.
  induction fuel as [|fuel IH]; intros r idx r1; cbn [readline_loop].
  - destruct (find_crlf (linebuf r)); [|discriminate].
    intros H. now injection H as <- <-.
  - destruct (find_crlf (linebuf r)).
    + intros H. now injection H as <- <-.
    + destruct (read r) as [[data | e |] r2] eqn:Er; try discriminate.
      destruct (Nat.eqb (length data) 0); [discriminate|].
      intros H. apply IH in H. apply read_size in Er.
      rewrite H. unfold reader_size in *. cbn [linebuf chunk iter lzmad].
      rewrite length_app. lia.
Qed.

Lemma readline_size (r : LZMAIterReader) (line : bytes) (r1 : LZMAIterReader) :
  readline r = (Return line, r1) -> reader_size r1 + 2 <= reader_size r.
Proof.
  unfold readline.
  destruct (readline_loop (readline_budget r) r) as [[idx | e |] r2] eqn:E;
    try discriminate.
  intros H. injection H as <- <-.
  pose proof (readline_loop_Return _ _ _ _ E) as F.
  apply find_crlf_bound in F. apply readline_loop_size in E.
  rewrite <- E. unfold reader_size. cbn [linebuf chunk iter lzmad].
  rewrite length_skipn. lia.
Qed.

Lemma drain_enough (fuel : nat) :
  forall (r : LZMAIterReader) (ls : list bytes) (r' : LZMAIterReader),
  reader_size r < fuel -> drain fuel r <> (ls, OutOfFuel, r').
Proof.
  induction fuel as [|fuel IH]; intros r ls r' Hf; [lia|].
  cbn [drain]. unfold next.
  destruct (readline r) as [[line | e |] r1] eqn:E.
  - apply readline_size in E.
    destruct (drain fuel r1) as [[ls1 e1] r2] eqn:E1.
    intros H. injection H as _ -> _.
    apply (IH r1 ls1 r2); [lia | exact E1].
  - discriminate.
  - exfalso. eapply readline_no_OutOfFuel; eauto.
Qed.

Theorem lines_of_chunks_total (it : list bytes) (ls : list bytes) :
  lines_of_chunks it <> (ls, OutOfFuel).
Proof.
  unfold lines_of_chunks.
  destruct (drain (S (reader_size (init it))) (init it)) as [[ls1 e1] r2] eqn:E.
  intros H. injection H as _ ->.
  apply (drain_enough (S (reader_size (init it))) (init it) ls1 r2); [lia|exact E].
Qed.

End ReaderTotal.

Lemma stored_decompress_app (p a b : bytes) :
  stored_decompress p (a ++ b)
  = match stored_decompress p a with
    | inl e => inl e
    | inr (d1, o1) =>
        match stored_decompress d1 b with
        | inl e => inl e
        | inr (d2, o2) => inr (d2, o1 ++ o2)
        end
    end.
Proof.
  revert a. induction p as [|m p IH]; intros a; [reflexivity|].
  destruct a as [|x a].
  - destruct b as [|y b]; simpl; [reflexivity|].
    destruct (Byte.eqb m y); [|reflexivity].
    destruct (stored_decompress p b) as [e|[d2 o2]]; reflexivity.
  - simpl. destruct (Byte.eqb m x); [apply IH | reflexivity].
Qed.

#[export] Instance StoredXZ_streaming : Streaming StoredXZ.
Proof.
  split.
  - exists xz_magic. reflexivity.
  - intros d d1 d2 a b o1 o2 Ha Hb. exists d2.
    cbn [decompress StoredXZ] in *.
    rewrite stored_decompress_app, Ha, Hb. reflexivity.
Qed.

(** C1.  The line sequence of the reader depends on the chunk boundaries.
    For the stream [magic ++ "ab\r\ncd\r\n"]: decompressed at once and
    split, and read as one chunk, it has the two lines ["ab\r\n"] and
    ["cd\r\n"]; read as the two chunks [magic] and ["ab\r\ncd\r\n"] it has
    no line, because the first chunk decodes to nothing and [readline]
    takes the empty [read] for the end of the data. *)
Theorem reader_stops_at_chunk_without_output :
  let payload := [x61; x62; x0d; x0a; x63; x64; x0d; x0a] in
  let l1 := [x61; x62; x0d; x0a] in
  let l2 := [x63; x64; x0d; x0a] in
  spec_lines (xz_magic ++ payload) = Some [l1; l2]
  /\ lines_of_chunks [xz_magic ++ payload] = ([l1; l2], Raise StopIteration)
  /\ lines_of_chunks [xz_magic; payload] = ([], Raise StopIteration).
Proof. repeat split. Qed.

(** ** The rotation table *)

Lemma mem_str_In (s : string) (l : list string) :
  mem_str s l = true <-> In s l.
Proof.
  unfold mem_str. rewrite existsb_exists. split.
  - intros (x & Hx & He). apply String.eqb_eq in He. now subst.
  - intros H. exists s. split; [exact H | apply String.eqb_refl].
Qed.

Lemma NoDup_map_fst_filter (A B : Type) (f : A * B -> bool) (l : list (A * B)) :
  NoDup (map fst l) -> NoDup (map fst (filter f l)).
Proof.
  induction l as [|x l IH]; simpl; intros H; [constructor|].
  inversion H as [|? ? Hn Hd]; subst.
  destruct (f x); simpl; [constructor|]; auto.
  intros Hin. apply Hn. apply in_map_iff in Hin.
  destruct Hin as (y & Hy & Hin). apply filter_In in Hin.
  apply in_map_iff. exists y. tauto.
Qed.

Section RotationFacts.
Context {E : SqlEngine}.

(** One guarded call keeps the regex values distinct. *)
Lemma run_op_unique (op : RotationOp) (db : DB) :
  plain_op op = true ->
  match op with
  | Insert regex _ => mem_str regex (stored_regexes db) = false
  | _ => True
  end ->
  unique_regex db -> unique_regex (snd (run_op op db)).
Proof.
  unfold unique_regex, stored_regexes. destruct db as [p [rs|]].
  - destruct op as [regex rot | regex rot | regex]; simpl; intros Hp Hg Hu.
    + unfold insert_correction_data. simpl.
      rewrite map_app. simpl. apply NoDup_app_remove_l with (l := []).
      simpl. apply NoDup_Add with (a := regex) (l := map fst rs).
      * rewrite <- (app_nil_r (map fst rs)) at 1. apply Add_app.
      * split; [exact Hu|].
        intros Hin. apply mem_str_In in Hin. congruence.
    + unfold update_correction_data. rewrite Hp. simpl.
      rewrite map_map.
      erewrite map_ext; [exact Hu|].
      intros [a b]. simpl. now destruct (String.eqb a regex).
    + unfold delete_correction_data. rewrite Hp. simpl.
      now apply NoDup_map_fst_filter.
  - destruct op as [regex rot | regex rot | regex]; simpl; intros Hp Hg Hu.
    + constructor.
    + unfold update_correction_data. rewrite Hp. constructor.
    + unfold delete_correction_data. rewrite Hp. constructor.
Qed.

Lemma run_ops_unique (ops : list RotationOp) :
  forall db : DB,
  guarded ops db = true -> unique_regex db -> unique_regex (run_ops ops db).
Proof.
  induction ops as [|op ops IH]; intros db Hg Hu; [exact Hu|].
  simpl in Hg. apply andb_prop in Hg. destruct Hg as [Hg Hrest].
  apply andb_prop in Hg. destruct Hg as [Hp Hi].
  unfold run_ops. simpl. apply IH; [exact Hrest|].
  apply run_op_unique; [exact Hp | | exact Hu].
  destruct op; auto. now apply negb_true_iff in Hi.
Qed.

End RotationFacts.

(** The rotation table has no unique key: [insert_correction_data] applied
    twice with one regex stores two rows with that regex. *)
Lemma rotation_regex_not_unique :
  ~ unique_regex (@run_ops PlainEngine
                    [Insert "^R" "0"; Insert "^R" "90"] fresh_db).
Proof.
  unfold unique_regex. simpl. intros H.
  inversion H as [|? ? Hn _]. apply Hn. now left.
Qed.

(** C4 (amended).  From the freshly created rotation table, every sequence
    of insert, update and delete calls in which each insert is of a regex
    not stored at that moment, and the values pasted into the UPDATE and
    DELETE statements have no apostrophe and no NUL character, leaves no
    two stored rows with the same regex. *)
Theorem rotation_regex_unique_when_guarded {E : SqlEngine}
    (ops : list RotationOp) :
  guarded ops fresh_db = true -> unique_regex (run_ops ops fresh_db).
Proof.
  intros Hg. apply run_ops_unique; [exact Hg|]. constructor.
Qed.

Lemma rotation_regex_unique_when_guarded_witness :
  unique_regex (@run_ops PlainEngine
                  [Insert "^R" "0"; Insert "^C" "90"; Update "^R" "180";
                   Delete "^C"; Insert "^C" "270"] fresh_db).
Proof.
  apply (@rotation_regex_unique_when_guarded PlainEngine). reflexivity.
Defined.

(** ** The search operation *)

Section SearchFacts.
Context {E : SqlEngine}.
Local Open Scope string_scope.

Lemma append_assoc (a b c : string) : (a ++ b) ++ c = a ++ (b ++ c).
Proof. induction a as [|x a IH]; simpl; [reflexivity | now rewrite IH]. Qed.

Lemma append_nil_r (a : string) : a ++ EmptyString = a.
Proof. induction a as [|x a IH]; simpl; [reflexivity | now rewrite IH]. Qed.

Lemma occurs_in_refl (s : string) : occurs_in s s.
Proof. exists EmptyString, EmptyString. simpl. now rewrite append_nil_r. Qed.

Lemma occurs_in_app_l (n s pre : string) :
  occurs_in n s -> occurs_in n (pre ++ s).
Proof.
  intros (a & b & ->). exists (pre ++ a), b. now rewrite append_assoc.
Qed.

Lemma occurs_in_app_r (n s post : string) :
  occurs_in n s -> occurs_in n (s ++ post).
Proof.
  intros (a & b & ->). exists a, (b ++ post). now rewrite !append_assoc.
Qed.

Lemma occurs_in_trans (a b c : string) :
  occurs_in a b -> occurs_in b c -> occurs_in a c.
Proof.
  intros (p1 & q1 & ->) (p2 & q2 & ->).
  exists (p2 ++ p1), (q1 ++ q2). now rewrite !append_assoc.
Qed.

Lemma occurs_in_join (sep x : string) (l : list string) :
  In x l -> occurs_in x (join sep l).
Proof.
  unfold join. induction l as [|y l IH]; intros H; [contradiction|].
  destruct H as [-> | H].
  - destruct l as [|z l]; simpl; [apply occurs_in_refl|].
    apply occurs_in_app_r, occurs_in_refl.
  - destruct l as [|z l]; [contradiction|].
    change (String.concat sep (y :: z :: l))
      with (y ++ sep ++ String.concat sep (z :: l)).
    apply occurs_in_app_l, occurs_in_app_l, IH, H.
Qed.

(** Each clause is part of the statement text. *)
Lemma chunk_in_query (lib : Library) (chunks : list string) (c : string) :
  In c chunks -> occurs_in c (search_query lib chunks).
Proof.
  intros H. unfold search_query.
  apply occurs_in_app_l, occurs_in_app_r, occurs_in_join, H.
Qed.

Lemma keyword_in_chunk (kw : string) :
  occurs_in (dq ++ "%" ++ kw ++ "%" ++ dq) (keyword_chunk kw).
Proof.
  unfold keyword_chunk.
  apply occurs_in_app_l, occurs_in_app_r.
  apply occurs_in_trans
    with (b := dq ++ "LCSC Part" ++ dq ++ " LIKE " ++ dq ++ "%" ++ kw ++ "%" ++ dq).
  - exists (dq ++ "LCSC Part" ++ dq ++ " LIKE "), EmptyString.
    now rewrite append_nil_r, !append_assoc.
  - apply occurs_in_join. left. reflexivity.
Qed.

Lemma in_when (b : bool) (c : string) : b = true -> In c (when b c).
Proof. intros ->. now left. Qed.

(** The clause list holds a clause with each given filter pasted in. *)
Lemma filter_in_chunks (kws : list string) (p : Parameters) (col v : string) :
  In (col, v) (given_filters p) ->
  exists c, In c (query_chunks kws p) /\ occurs_in (like_chunk col v) c.
Proof.
  unfold given_filters. intros H. apply filter_In in H.
  destruct H as [H Ht]. simpl in Ht. unfold query_chunks.
  simpl in H.
  destruct H as [H | [H | [H | [H | [H | [H | []]]]]]];
    injection H as <- <-.
  - exists (like_chunk "Manufacturer" (manufacturer p)).
    split; [|apply occurs_in_refl].
    apply in_or_app. right. apply in_or_app. left. now apply in_when.
  - exists (like_chunk "Package" (package p)).
    split; [|apply occurs_in_refl].
    do 2 (apply in_or_app; right). apply in_or_app. left. now apply in_when.
  - exists (category_chunk (category p)). split.
    + do 3 (apply in_or_app; right). apply in_or_app. left. now apply in_when.
    + unfold category_chunk, like_chunk.
      exists "(", (" OR " ++ dq ++ "Second Category" ++ dq ++ " LIKE "
                     ++ dq ++ category p ++ dq ++ ")").
      now rewrite !append_assoc.
  - exists (category_chunk (category p)). split.
    + do 3 (apply in_or_app; right). apply in_or_app. left. now apply in_when.
    + unfold category_chunk, like_chunk.
      exists ("(" ++ dq ++ "First Category" ++ dq ++ " LIKE " ++ dq
                  ++ category p ++ dq ++ " OR "), ")".
      now rewrite !append_assoc.
  - exists (like_chunk "MFR.Part" (part_no p)).
    split; [|apply occurs_in_refl].
    do 4 (apply in_or_app; right). apply in_or_app. left. now apply in_when.
  - exists (like_chunk "Solder Joint" (solder_joints p)).
    split; [|apply occurs_in_refl].
    do 5 (apply in_or_app; right). apply in_or_app. left. now apply in_when.
Qed.

Lemma no_filter_chunks (p : Parameters) :
  no_filter p = true -> query_chunks [] p = [].
Proof.
  unfold no_filter, query_chunks, library_types. intros H.
  repeat (apply andb_prop in H; destruct H as [H ?]).
  repeat match goal with
         | H : negb _ = true |- _ => apply negb_true_iff in H; rewrite H
         end.
  reflexivity.
Qed.

Lemma has_char_cons (c x : ascii) (w : string) :
  has_char c (String x w) = Ascii.eqb c x || has_char c w.
Proof. reflexivity. Qed.

(** A keyword that opens a double quote and never closes it. *)
Lemma shlex_open_quote (w : string) :
  forall l : Shlex,
  lstate l = LexQuote "034"%char ->
  has_char "034"%char w = false -> has_char "\"%char w = false ->
  shlex_loop l w = inl (ValueError "No closing quotation").
Proof.
  induction w as [|c w IH]; intros l Hl Hq He; simpl.
  - now rewrite Hl.
  - rewrite has_char_cons in Hq, He.
    apply orb_false_elim in Hq, He. destruct Hq as [Hq Hq'], He as [He He'].
    unfold read_char. rewrite Hl.
    rewrite Ascii.eqb_sym, Hq. unfold is_escape. rewrite Ascii.eqb_sym, He.
    cbn [andb]. apply IH; auto.
Qed.

End SearchFacts.

Section SearchClaims.
Local Open Scope string_scope.

(** Sample inputs of the search operation. *)
Lemma shlex_split_unbalanced_10k :
shlex_split (dq ++ "10k") = inl (ValueError "No closing quotation").
Proof. reflexivity. Qed.

(** C7.  When the keyword string yields no token and no structured filter,
  library-type flag or stock-only flag is set, [search] returns the empty
  list at once: it posts nothing and runs no statement. *)
Theorem search_without_clause_runs_nothing {E : SqlEngine}
  (lib : Library) (p : Parameters) (db : DB) :
shlex_split (keyword p) = inr [] ->
no_filter p = true ->
search lib p db
= {| returned := Return (Some []); posted := []; executed := [] |}.
Proof.
intros Hk Hf. unfold search. rewrite Hk, (no_filter_chunks p Hf). reflexivity.
Qed.

Lemma search_without_clause_runs_nothing_witness :
@search PlainEngine (mkLibrary "LCSC Part" "ASC")
  (mkParameters "   " EmptyString EmptyString EmptyString EmptyString
                EmptyString false false false)
  {| parts := Some {| columns := ["LCSC Part"]; rows := [["C1"]] |};
     rotation := None |}
= {| returned := Return (Some []); posted := []; executed := [] |}.
Proof.
apply (@search_without_clause_runs_nothing PlainEngine); reflexivity.
Defined.

(** On the keyword with the unbalanced quote [search] does not return an
  empty result set: it returns [None]. *)
Lemma search_unbalanced_quote_returns_none :
returned (@search PlainEngine (mkLibrary "LCSC Part" "ASC")
            (mkParameters (dq ++ "10k") EmptyString EmptyString EmptyString
                          EmptyString EmptyString false false false)
            fresh_db)
<> Return (Some []).
Proof. discriminate. Qed.

(** C5 (amended).  When the keyword string does not split (an unbalanced
  quote, a trailing backslash), [search] does not raise: it posts one
  error message to the parent, with the title [Query error] and the
  splitter's message, runs no statement, and returns [None], which is no
  result set rather than an empty one. *)
Theorem search_reports_keyword_error {E : SqlEngine}
  (lib : Library) (p : Parameters) (db : DB) (e : Exn) :
shlex_split (keyword p) = inl e ->
search lib p db
= {| returned := Return None;
     posted := [MessageEvent "Query error"
                  ("Unable to split keywords: " ++ str_exn e) "error"];
     executed := [] |}.
Proof. intros Hk. unfold search. now rewrite Hk. Qed.

Lemma search_reports_keyword_error_witness :
@search PlainEngine (mkLibrary "LCSC Part" "ASC")
  (mkParameters (dq ++ "10k") EmptyString EmptyString EmptyString
                EmptyString EmptyString false false false)
  fresh_db
= {| returned := Return None;
     posted := [MessageEvent "Query error"
                  "Unable to split keywords: No closing quotation" "error"];
     executed := [] |}.
Proof.
apply (@search_reports_keyword_error PlainEngine
         (mkLibrary "LCSC Part" "ASC")
         (mkParameters (dq ++ "10k") EmptyString EmptyString EmptyString
                       EmptyString EmptyString false false false)
         fresh_db (ValueError "No closing quotation")).
reflexivity.
Defined.

(** Two runs that differ only in the keyword run different SQL texts. *)
Lemma search_sql_depends_on_keyword :
executed (@search PlainEngine (mkLibrary "LCSC Part" "ASC")
            (mkParameters "10k" EmptyString EmptyString EmptyString
                          EmptyString EmptyString false false false)
            fresh_db)
<> executed (@search PlainEngine (mkLibrary "LCSC Part" "ASC")
               (mkParameters "22k" EmptyString EmptyString EmptyString
                             EmptyString EmptyString false false false)
               fresh_db).
Proof. discriminate. Qed.

(** C3 (amended).  When the keyword string splits and there is at least
  one clause, [search] runs one statement and binds no value to it; every
  keyword token and every given structured filter value is pasted into
  the statement text as it is, between double quotes (a token between
  percent signs as well). *)
Theorem search_pastes_values {E : SqlEngine}
  (lib : Library) (p : Parameters) (db : DB) (keywords : list string) :
shlex_split (keyword p) = inr keywords ->
query_chunks keywords p <> [] ->
exists query : string,
  executed (search lib p db) = [(query, [])]
  /\ (forall kw, In kw keywords ->
                 occurs_in (dq ++ "%" ++ kw ++ "%" ++ dq) query)
  /\ (forall col v, In (col, v) (given_filters p) ->
                    occurs_in (like_chunk col v) query).
Proof.
intros Hk Hc. exists (search_query lib (query_chunks keywords p)).
split; [|split].
- unfold search. rewrite Hk.
  destruct (query_chunks keywords p); [congruence | reflexivity].
- intros kw Hin. eapply occurs_in_trans; [apply keyword_in_chunk|].
  apply chunk_in_query. unfold query_chunks. apply in_or_app. left.
  now apply in_map.
- intros col v Hin.
  destruct (filter_in_chunks keywords p col v Hin) as (c & Hc1 & Hc2).
  eapply occurs_in_trans; [exact Hc2|]. now apply chunk_in_query.
Qed.

Lemma search_pastes_values_witness :
exists query : string,
  executed (@search PlainEngine (mkLibrary "LCSC Part" "ASC")
              (mkParameters "10k" "Yageo" EmptyString EmptyString
                            EmptyString EmptyString true false false)
              fresh_db) = [(query, [])]
  /\ (forall kw, In kw ["10k"%string] ->
                 occurs_in (dq ++ "%" ++ kw ++ "%" ++ dq) query)
  /\ (forall col v,
        In (col, v)
           (given_filters (mkParameters "10k" "Yageo" EmptyString EmptyString
                             EmptyString EmptyString true false false)) ->
        occurs_in (like_chunk col v) query).
Proof.
apply (@search_pastes_values PlainEngine); [reflexivity | discriminate].
Defined.

End SearchClaims.

(** ** The bulk load *)

Lemma bind_rows_all (ncols : nat) (buf pend : list (list string)) :
  Forall (fun row => length row = ncols) buf ->
  bind_rows ncols buf pend = (Return tt, pend ++ buf).
Proof.
  revert pend. induction buf as [|row buf IH]; intros pend H; simpl.
  - now rewrite app_nil_r.
  - inversion H as [|? ? Hr Hb]; subst. rewrite Nat.eqb_refl.
    rewrite IH by exact Hb. now rewrite <- app_assoc.
Qed.

Lemma executemany_all (ncols : nat) (t : option Table)
      (buf pend : list (list string)) :
  prepare_insert ncols t = true ->
  Forall (fun row => length row = ncols) buf ->
  executemany ncols t buf pend = (Return tt, pend ++ buf).
Proof.
  intros Hp Hb. unfold executemany. rewrite Hp. now apply bind_rows_all.
Qed.

Section RepresentedLoad.
(** The rows come from an iterator whose state [s] stands for the rows
    still to come, [Rep s rows]. *)
Variable Src : Type.
Variable nxt : Src -> res (list string) * Src.
Variable tell : Src -> Z.
Variable ncols : nat.
Variable size : Z.
Variable table : option Table.
Variable Rep : Src -> list (list string) -> Prop.
Hypothesis size_nonzero : size <> 0%Z.
Hypothesis prepared : prepare_insert ncols table = true.
Hypothesis rep_nil :
  forall s, Rep s [] -> exists s', nxt s = (Raise StopIteration, s').
Hypothesis rep_cons :
  forall s row rows, Rep s (row :: rows) ->
                     exists s', nxt s = (Return row, s') /\ Rep s' rows.

Let arity (row : list string) : Prop := length row = ncols.

(** Over rows of the right size the loop runs to the end, and every row
    is then in a batch that was inserted or in the buffer. *)
Lemma load_loop_rep (rows : list (list string)) :
  forall (fuel : nat) (count : N) (st : Load Src),
  Rep (source st) rows ->
  Forall arity rows -> Forall arity (buffer st) ->
  pending st = concat (batches st) ->
  length rows < fuel ->
  exists st',
    load_loop nxt tell ncols size table fuel count st = (Return tt, st')
    /\ pending st' = concat (batches st')
    /\ Forall arity (buffer st')
    /\ pending st' ++ buffer st' = pending st ++ buffer st ++ rows.
Proof.
  induction rows as [|row rows IH]; intros fuel count st Hs Hr Hb Hp Hf;
    destruct fuel as [|fuel]; try (simpl in Hf; lia); cbn [load_loop].
  - destruct (rep_nil _ Hs) as [s' ->].
    eexists. split; [reflexivity|]. cbn. rewrite app_nil_r. auto.
  - destruct (rep_cons _ _ _ Hs) as (s' & -> & Hs').
    inversion Hr as [|? ? Hrow Hrows]; subst.
    assert (Hbuf : Forall arity (buffer st ++ [row])).
    { apply Forall_app. split; [exact Hb | now constructor]. }
    destruct (N.eqb (N.modulo count 1000) 0).
    + destruct (Z.eqb_spec size 0) as [Hz|_]; [contradiction|].
      rewrite (executemany_all _ _ _ _ prepared Hbuf).
      edestruct (IH fuel (N.succ count)) as (st' & E & H1 & H2 & H3);
        [| | | | | exists st'; split; [exact E|]].
      * exact Hs'.
      * exact Hrows.
      * constructor.
      * cbn. rewrite concat_app. cbn. rewrite app_nil_r. now rewrite Hp.
      * simpl in Hf. lia.
      * cbn in H3. repeat split; auto. rewrite H3.
        now rewrite <- !app_assoc.
    + edestruct (IH fuel (N.succ count)) as (st' & E & H1 & H2 & H3);
        [| | | | | exists st'; split; [exact E|]].
      * exact Hs'.
      * exact Hrows.
      * exact Hbuf.
      * exact Hp.
      * simpl in Hf. lia.
      * cbn in H3. repeat split; auto. rewrite H3.
        now rewrite <- !app_assoc.
Qed.

(** Every row of the stream is persisted, in order: [N] rows give [N]
    rows, whatever the batches are. *)
Lemma load_rows_rep (rs : list (list string)) (tb : Table) (s : Src)
      (fuel : nat) :
  table = Some tb ->
  Rep s rs ->
  Forall arity rs ->
  length rs < fuel ->
  exists st,
    load_rows nxt tell ncols size table fuel s
    = (Return (Some {| columns := columns tb; rows := rows tb ++ rs |}), st)
    /\ concat (batches st) = rs.
Proof.
  intros Ht Hs Hr Hf. unfold load_rows.
  destruct (load_loop_rep rs fuel 0
              {| source := s; buffer := []; pending := []; load_posted := [];
                 batches := [] |} Hs Hr (Forall_nil _) eq_refl Hf)
    as (st' & E & H1 & H2 & H3).
  rewrite E. cbn in H3.
  destruct (buffer st') as [|row buf] eqn:Eb.
  - rewrite app_nil_r in H3. eexists. split.
    + rewrite Ht. cbn. now rewrite H3.
    + now rewrite <- H1.
  - rewrite (executemany_all _ _ _ _ prepared H2). eexists. split.
    + rewrite Ht. cbn. now rewrite H3.
    + cbn. rewrite concat_app. cbn. rewrite app_nil_r, <- H1. exact H3.
Qed.

End RepresentedLoad.

(** The same for a list of rows. *)
Lemma load_rows_list (tell : list (list string) -> Z) (ncols : nat) (size : Z)
      (rs : list (list string)) (tb : Table) :
  size <> 0%Z ->
  prepare_insert ncols (Some tb) = true ->
  Forall (fun row => length row = ncols) rs ->
  exists st,
    load_rows (@list_next _) tell ncols size (Some tb) (S (length rs)) rs
    = (Return (Some {| columns := columns tb; rows := rows tb ++ rs |}), st)
    /\ concat (batches st) = rs.
Proof.
  intros Hz Hp Hr.
  apply (@load_rows_rep _ (@list_next _) tell ncols size (Some tb)
           (fun s rows => s = rows) Hz Hp); auto.
  - intros s ->. now exists [].
  - intros s row rows ->. now exists rows.
Qed.

(** C2.  The bulk load persists every row of the stream, but not in
    batches of 1000, 1000 and 500: the loop flushes when [count % 1000] is
    zero, and [count] starts at zero, so the first row is a batch of its
    own.  Importing a file of a header of five columns and 2500 data rows
    persists the 2500 rows through four calls of [executemany], of 1,
    1000, 1000 and 499 rows. *)
Theorem bulk_load_2500_batches :
  let run := @download StoredXZ PlainEngine
               {| status_code := 200; content_length := Length 71446;
                  body := [sample_file 2500] |} [] "1" fresh_db in
  outcome run = Return tt
  /\ parts (db_after run)
     = Some {| columns := header5; rows := numbered_rows 2500 |}
  /\ length (numbered_rows 2500) = 2500
  /\ map (@length _) (inserted run) = [1; 1000; 1000; 499].
Proof. vm_compute. repeat split. Qed.

(** ** The declared size *)

Section SizeIndependence.
Variable Src : Type.
Variable nxt : Src -> res (list string) * Src.
Variable tell : Src -> Z.
Variable ncols : nat.
Variable table : option Table.
Variables size size' : Z.
Hypothesis size_nonzero : size <> 0%Z.
Hypothesis size'_nonzero : size' <> 0%Z.

(** The declared size only shows in the gauge events of the loop. *)
Lemma load_loop_size (fuel : nat) :
  forall (count : N) (a b : Load Src),
  same_load a b ->
  fst (load_loop nxt tell ncols size table fuel count a)
  = fst (load_loop nxt tell ncols size' table fuel count b)
  /\ same_load (snd (load_loop nxt tell ncols size table fuel count a))
               (snd (load_loop nxt tell ncols size' table fuel count b)).
Proof.
  induction fuel as [|fuel IH]; intros count a b (Hs & Hb & Hp & Hbt).
  - simpl. repeat split; auto.
  - cbn [load_loop]. rewrite <- Hs, <- Hb, <- Hp, <- Hbt.
    destruct (nxt (source a)) as [[row | e |] s1].
    + destruct (N.eqb (N.modulo count 1000) 0).
      * destruct (Z.eqb_spec size 0) as [|_]; [contradiction|].
        destruct (Z.eqb_spec size' 0) as [|_]; [contradiction|].
        destruct (executemany ncols table (buffer a ++ [row]) (pending a))
          as [[u | e |] pend].
        -- apply IH. repeat split.
        -- simpl. repeat split.
        -- simpl. repeat split.
      * apply IH. repeat split.
    + destruct e; simpl; repeat split.
    + simpl. repeat split.
Qed.

Lemma load_rows_size (fuel : nat) (s : Src) :
  fst (load_rows nxt tell ncols size table fuel s)
  = fst (load_rows nxt tell ncols size' table fuel s)
  /\ batches (snd (load_rows nxt tell ncols size table fuel s))
     = batches (snd (load_rows nxt tell ncols size' table fuel s)).
Proof.
  unfold load_rows.
  destruct (load_loop_size fuel 0
              {| source := s; buffer := []; pending := []; load_posted := [];
                 batches := [] |}
              {| source := s; buffer := []; pending := []; load_posted := [];
                 batches := [] |}) as [Ho (Hs & Hb & Hp & Hbt)].
  { repeat split. }
  destruct (load_loop nxt tell ncols size table fuel 0 _) as [o st].
  destruct (load_loop nxt tell ncols size' table fuel 0 _) as [o' st'].
  simpl in *. subst o'. destruct o as [u | e |]; try (split; [reflexivity|exact Hbt]).
  rewrite <- Hb, <- Hp. destruct (buffer st) as [|row buf];
    [split; [reflexivity|exact Hbt]|].
  destruct (executemany ncols table (row :: buf) (pending st))
    as [[u' | e |] pend]; cbn [fst snd batches]; rewrite ?Hbt; auto.
Qed.

End SizeIndependence.

Section DownloadFacts.
Context {D : Decompressor} {E : SqlEngine}.
Local Open Scope string_scope.

Lemma csv_next_no_body :
  csv_next (init []) = (Raise StopIteration, init []).
Proof. reflexivity. Qed.

(** What [download] does once the declared size is read, as far as the
    store, the outcome and the stock calls go: the same for any two sizes
    that are not zero and that the debug line can format. *)
Lemma download_size (resp : Response) (store : list Footprint)
      (elapsed : string) (db : DB) (size size' : Z) :
  status_code resp = 200%Z ->
  size <> 0%Z -> size' <> 0%Z ->
  true_div_overflows size = false -> true_div_overflows size' = false ->
  let run := download (with_length resp size) store elapsed db in
  let run' := download (with_length resp size') store elapsed db in
  db_after run = db_after run' /\ outcome run = outcome run'
  /\ inserted run = inserted run' /\ stock_set run = stock_set run'.
Proof.
  intros Hst Hz Hz' Hov Hov'. unfold download.
  change (raw_tell (with_length resp size)) with (raw_tell resp).
  change (raw_tell (with_length resp size')) with (raw_tell resp).
  unfold with_length.
  cbn [status_code content_length body]. rewrite Hst, Hov, Hov'.
  cbn [Z.eqb negb Pos.eqb].
  destruct (csv_next (init (body resp))) as [[headers | e |] l1];
    try (repeat split; reflexivity).
  destruct (create_parts_table headers (snd (delete_parts_table db)))
    as [[u | e |] db2]; try (repeat split; reflexivity).
  set (tbl := parts (snd (create_rotation_table db2))).
  set (rt := raw_tell resp).
  pose proof (@load_rows_size _ csv_next rt (length headers) tbl size size'
                Hz Hz' (S (reader_size l1)) l1) as Hl.
  destruct (load_rows csv_next rt (length headers) size tbl _ l1) as [o st].
  destruct (load_rows csv_next rt (length headers) size' tbl _ l1) as [o' st'].
  simpl in Hl. destruct Hl as [<- Hbt].
  destruct o as [t | e |]; try (repeat split; auto; reflexivity).
  destruct (update_stock store _) as [[o2 sp] calls].
  destruct o2; repeat split; auto.
Qed.

End DownloadFacts.

Section SizeClaim.
Context {D : Decompressor} {E : SqlEngine}.
Local Open Scope string_scope.

Lemma download_with_length (resp : Response) (store : list Footprint)
      (elapsed : string) (db : DB) (size : Z) :
  content_length resp = Length size ->
  download resp store elapsed db
  = download (with_length resp size) store elapsed db.
Proof.
  destruct resp as [st cl bd]. simpl. intros ->. reflexivity.
Qed.

(** A run that got past the checks of the status and of the size header
    starts its events with the gauge reset and, for a size under 1000, the
    notification. *)
Lemma download_small_posted (resp : Response) (store : list Footprint)
      (elapsed : string) (db : DB) (size : Z) :
  status_code resp = 200%Z ->
  content_length resp = Length size ->
  (size < 1000)%Z ->
  exists rest,
    run_posted (download resp store elapsed db)
    = (ResetGaugeEvent
       :: download_error ("file too small (" ++ str_int size ++ " bytes)")
       :: rest)%list.
Proof.
  intros Hst Hcl Hlt. unfold download. rewrite Hst, Hcl.
  cbn [Z.eqb negb Pos.eqb]. apply Z.ltb_lt in Hlt. rewrite Hlt.
  destruct (true_div_overflows size); [eexists; reflexivity|].
  destruct (csv_next (init (body resp))) as [[headers | e |] l1];
    try (eexists; reflexivity).
  destruct (create_parts_table headers (snd (delete_parts_table db)))
    as [[u | e |] db2]; try (eexists; reflexivity).
  destruct (load_rows _ _ _ _ _ _ _) as [[t | e |] st];
    try (eexists; reflexivity).
  destruct (update_stock store _) as [[[u2 | e |] sp] calls];
    eexists; reflexivity.
Qed.

(** A declared length under 1000 bytes that is not zero is reported and
    nothing more: the run posts the size notification, and the store it
    leaves, the way it ends, the batches it inserts and the stock values it
    sets are those of the same run with a declared length of 1000 or more.
    The same holds at the length zero when the response has no body. *)
Lemma small_size_same_import
    (resp : Response) (store : list Footprint) (elapsed : string) (db : DB)
    (size size' : Z) :
  status_code resp = 200%Z ->
  content_length resp = Length size ->
  (size < 1000)%Z -> (1000 <= size')%Z ->
  true_div_overflows size = false -> true_div_overflows size' = false ->
  (size <> 0%Z \/ body resp = []) ->
  let run := download resp store elapsed db in
  let run' := download (with_length resp size') store elapsed db in
  In (download_error ("file too small (" ++ str_int size ++ " bytes)"))
     (run_posted run)
  /\ db_after run = db_after run'
  /\ outcome run = outcome run'
  /\ inserted run = inserted run'
  /\ stock_set run = stock_set run'.
Proof.
  intros Hst Hcl Hlt Hge Hov Hov' Hbody run run'. split.
  - destruct (download_small_posted resp store elapsed db size Hst Hcl Hlt)
      as [rest Hp].
    unfold run. rewrite Hp. right. now left.
  - unfold run, run'. rewrite (download_with_length resp store elapsed db size Hcl).
    destruct Hbody as [Hnz | Hnil].
    + apply download_size; [exact Hst | exact Hnz | lia | exact Hov | exact Hov'].
    + unfold download, with_length. cbn [status_code content_length body].
      rewrite Hst, Hnil, Hov, Hov'. cbn [Z.eqb negb Pos.eqb].
      rewrite csv_next_no_body.
      repeat split.
Qed.

End SizeClaim.

(** C6.  A declared length under 1000 bytes is reported, but the import
    does not always proceed as for a length of 1000 or more.  For the file
    of a header and one row, with the declared length 0: the run posts the
    size notification, drops and recreates the parts table, reads the row
    and raises ZeroDivisionError at [progress = tell / size * 100], before
    anything is inserted; the parts table is left without rows.  The same
    response with the declared length 1000 is imported: the run ends
    without exception and the row is stored. *)
Theorem size_zero_is_reported_then_aborts :
  let resp :=
    {| status_code := 200; content_length := Length 0;
       body := [sample_file 1] |} in
  let run := @download StoredXZ PlainEngine resp [] "0.01" fresh_db in
  let run' := @download StoredXZ PlainEngine (with_length resp 1000) []
                "0.01" fresh_db in
  In (download_error "file too small (0 bytes)") (run_posted run)
  /\ outcome run = Raise ZeroDivisionError
  /\ inserted run = []
  /\ parts (db_after run) = Some {| columns := header5; rows := [] |}
  /\ outcome run' = Return tt
  /\ inserted run' = [numbered_rows 1]
  /\ parts (db_after run')
     = Some {| columns := header5; rows := numbered_rows 1 |}.
Proof.
  vm_compute. repeat split. right. left. reflexivity.
Qed.

(** ** The rotation table across a sync *)

Section Frame.
Context {D : Decompressor} {E : SqlEngine}.

Lemma create_parts_table_rotation (cols : list string) (db : DB) :
  rotation (snd (create_parts_table cols db)) = rotation db.
Proof.
  unfold create_parts_table.
  destruct (forallb plain cols).
  - destruct (parts db).
    + destruct cols; reflexivity.
    + destruct (accepts_columns cols); reflexivity.
  - destruct (exec_parts (create_parts_sql cols) (parts db)); reflexivity.
Qed.

Lemma create_rotation_table_Some (db : DB) (rs : list (string * string)) :
  rotation db = Some rs ->
  rotation (snd (create_rotation_table db)) = Some rs.
Proof. unfold create_rotation_table. intros H. now rewrite H. Qed.

(** C8.  Whatever the remote file is and however the run ends, the
    rotation table that was there before the sync is there afterwards with
    the same rows: [download] drops and recreates the [parts] table only. *)
Theorem download_keeps_rotation
    (resp : Response) (store : list Footprint) (elapsed : string) (db : DB)
    (rs : list (string * string)) :
  rotation db = Some rs ->
  rotation (db_after (download resp store elapsed db)) = Some rs.
Proof.
  intros Hr. unfold download.
  destruct (negb (Z.eqb (status_code resp) 200)); [exact Hr|].
  destruct (content_length resp) as [| |size]; try exact Hr.
  destruct (true_div_overflows size); [exact Hr|].
  destruct (csv_next (init (body resp))) as [[headers | e |] l1];
    try exact Hr.
  pose proof (create_parts_table_rotation headers (snd (delete_parts_table db)))
    as Hc.
  destruct (create_parts_table headers (snd (delete_parts_table db)))
    as [o db2].
  simpl in Hc. rewrite Hr in Hc.
  pose proof (create_rotation_table_Some db2 rs Hc) as H3.
  destruct o as [u | e |]; try exact Hc.
  destruct (load_rows _ _ _ _ _ _ _) as [[t | e |] st]; try exact H3.
  destruct (update_stock store _) as [[[u2 | e |] sp] calls]; exact H3.
Qed.

End Frame.

Lemma download_keeps_rotation_witness :
  rotation
    (db_after
       (@download StoredXZ PlainEngine
          {| status_code := 200; content_length := Length 22;
             body := [(xz_magic ++ encode_utf8 "a,b")%list;
                      [x0d; x0a; x31; x2c; x32; x0d; x0a]] |}
          [] "0.01"
          {| parts := Some {| columns := ["x"%string]; rows := [["old"%string]] |};
             rotation := Some [("^R"%string, "90"%string)] |}))
  = Some [("^R"%string, "90"%string)].
Proof.
  apply (@download_keeps_rotation StoredXZ PlainEngine). reflexivity.
Defined.

(** ** The csv reader on the text of the csv writer *)

Section Characters.
Local Open Scope string_scope.

Lemma needs_quoting_false (c : ascii) :
  needs_quoting c = false ->
  is_delimiter c = false /\ is_quotechar c = false /\ is_newline c = false.
Proof.
  unfold needs_quoting. intros H.
  apply orb_false_elim in H. destruct H as [H Hn].
  apply orb_false_elim in H. tauto.
Qed.

Lemma char_count_app (a b : string) :
  char_count (a ++ b) = (char_count a + char_count b)%N.
Proof.
  induction a as [|c a IH]; simpl; [reflexivity|].
  destruct (is_continuation c); rewrite IH; lia.
Qed.

Lemma char_count_push (s : string) (c : ascii) :
  char_count (push s c)
  = if is_continuation c then char_count s else N.succ (char_count s).
Proof.
  unfold push. rewrite char_count_app. simpl.
  destruct (is_continuation c); lia.
Qed.

Lemma push_app (pre post : string) (c : ascii) :
  push pre c ++ post = pre ++ String c post.
Proof. unfold push. now rewrite append_assoc. Qed.

Lemma char_count_push_le (pre post : string) (c : ascii) :
  (char_count (push pre c) <= char_count (pre ++ String c post))%N.
Proof.
  rewrite <- push_app, char_count_app. lia.
Qed.

(** Adding a character to a field that stays within the limit. *)
Lemma parse_add_char_ok (p : Parser) (c : ascii) :
  field_len p = char_count (field p) ->
  (char_count (push (field p) c) <= field_limit)%N ->
  parse_add_char p c
  = inr {| pstate := pstate p; fields := fields p; field := push (field p) c;
           field_len := char_count (push (field p) c) |}.
Proof.
  intros Hl Hlim. unfold parse_add_char. rewrite char_count_push in *.
  destruct (is_continuation c).
  - now rewrite Hl.
  - destruct (N.leb_spec field_limit (field_len p)) as [Hle|_]; [lia|].
    now rewrite Hl.
Qed.

End Characters.

Section ParserSteps.
Local Open Scope string_scope.
Variable row : list string.
Hypothesis within_limit : Forall (fun f => (char_count f <= field_limit)%N) row.

Lemma field_within_limit (done todo : list string) (f : string) :
  row = (done ++ f :: todo)%list -> (char_count f <= field_limit)%N.
Proof.
  intros H. rewrite H in within_limit.
  apply Forall_app in within_limit. destruct within_limit as [_ Hf].
  now inversion Hf.
Qed.

(** After a field: the delimiter starts the next field, the CR of the
    line terminator ends the record. *)
Lemma step_after_field (st : ParserState) (done : list string) (f : string)
      (todo : list string) (c : ascii) (rem' : string) :
  row = (done ++ f :: todo)%list ->
  tail_text todo = String c rem' ->
  exists p',
    Config row p' rem'
    /\ is_quotechar c = false
    /\ ((is_delimiter c = true /\ is_newline c = false
         /\ p' = {| pstate := START_FIELD; fields := done ++ [f];
                    field := EmptyString; field_len := 0 |})
        \/ (is_delimiter c = false /\ is_newline c = true
            /\ p' = {| pstate := EAT_CRNL; fields := done ++ [f];
                       field := EmptyString; field_len := 0 |})).
Proof.
  intros Hrow Ht. destruct todo as [|f1 todo]; simpl in Ht.
  - injection Ht as <- <-. eexists. split; [|split; [reflexivity|right; repeat split]].
    rewrite <- Hrow. apply Cfg_cr.
  - injection Ht as <- <-. eexists. split; [|split; [reflexivity|left; repeat split]].
    apply Cfg_field. rewrite Hrow. now rewrite <- app_assoc.
Qed.

(** One character, at the start of a field. *)
Lemma step_start_field (done : list string) (f : string) (todo : list string)
      (c : ascii) (rem' : string) :
  row = (done ++ f :: todo)%list ->
  write_field f ++ tail_text todo = String c rem' ->
  exists p',
    parse_start_field {| pstate := START_FIELD; fields := done;
                         field := EmptyString; field_len := 0 |} (Chr c)
    = inr p'
    /\ Config row p' rem'.
Proof.
  intros Hrow Heq. unfold write_field in Heq.
  destruct (has_special f) eqn:Hs.
  - rewrite !append_assoc in Heq. simpl in Heq. injection Heq as <- <-.
    eexists. split; [reflexivity|].
    apply (Cfg_quoted row done EmptyString f todo). exact Hrow.
  - destruct f as [|c0 f'].
    + simpl in Heq.
      destruct (step_after_field START_FIELD done EmptyString todo c rem' Hrow Heq)
        as (p' & Hc & Hq & [(Hd & Hn & ->) | (Hd & Hn & ->)]).
      * eexists. split; [|exact Hc].
        unfold parse_start_field. now rewrite Hn, Hq, Hd.
      * eexists. split; [|exact Hc].
        unfold parse_start_field. now rewrite Hn.
    + simpl in Heq. injection Heq as <- <-.
      simpl in Hs. apply orb_false_elim in Hs. destruct Hs as [Hc0 Hs].
      apply needs_quoting_false in Hc0. destruct Hc0 as (Hd & Hq & Hn).
      unfold parse_start_field. rewrite Hn, Hq, Hd.
      rewrite parse_add_char_ok; [|reflexivity|].
      * eexists. split; [reflexivity|].
        apply (Cfg_unquoted row done (push EmptyString c0) f' todo); [|exact Hs].
        exact Hrow.
      * cbn [field]. 
        pose proof (field_within_limit done todo (String c0 f') Hrow) as Hl.
        pose proof (char_count_push_le EmptyString f' c0) as Hle.
        simpl append in Hle. lia.
Qed.

Lemma not_newline_not_lf (c : ascii) :
  is_newline c = false -> c <> "010"%char.
Proof. intros H ->. discriminate. Qed.

(** One character of the text of the row. *)
Lemma config_step (p : Parser) (rem : string) :
  Config row p rem ->
  forall (c : ascii) (rem' : string),
  rem = String c rem' ->
  exists p',
    parse_process_char p (Chr c) = inr p'
    /\ Config row p' rem'
    /\ (c = "010"%char -> after_lf row p' rem').
Proof.
  intros H. destruct H as
      [ f todo Hrow Hne
      | done f todo Hrow
      | done pre post todo Hrow Hs
      | done pre post todo Hrow
      | done pre post todo Hrow
      | done f todo Hrow
      |
      | ]; intros c rem' Heq.
  - (* the first character of the record *)
    assert (Hrow' : row = ([] ++ f :: todo)%list) by exact Hrow.
    destruct (step_start_field [] f todo c rem' Hrow' Heq) as (p' & Hp & Hc).
    assert (Hn : is_newline c = false).
    { unfold write_field in Heq. destruct (has_special f) eqn:Hs.
      - rewrite !append_assoc in Heq. simpl in Heq. now injection Heq as <- _.
      - destruct f as [|c0 f']; simpl in Heq.
        + destruct todo as [|f1 todo]; [congruence|].
          simpl in Heq. now injection Heq as <- _.
        + injection Heq as <- _. simpl in Hs.
          apply orb_false_elim in Hs. destruct Hs as [Hs _].
          now apply needs_quoting_false in Hs. }
    exists p'. split; [|split; [exact Hc|]].
    + unfold parse_process_char, parse_reset. cbn [pstate]. rewrite Hn.
      exact Hp.
    + intros ->. discriminate.
  - (* the first character of a field *)
    destruct (step_start_field done f todo c rem' Hrow Heq) as (p' & Hp & Hc).
    exists p'. split; [exact Hp|]. split; [exact Hc|].
    intros ->. exfalso.
    unfold write_field in Heq. destruct (has_special f) eqn:Hs.
    + rewrite !append_assoc in Heq. simpl in Heq. discriminate.
    + destruct f as [|c0 f']; simpl in Heq.
      * destruct todo as [|f1 todo]; simpl in Heq; discriminate.
      * injection Heq as -> _. simpl in Hs. discriminate.
  - (* inside an unquoted field *)
    destruct post as [|c0 post']; simpl in Heq.
    + rewrite append_nil_r in Hrow.
      destruct (step_after_field IN_FIELD done pre todo c rem' Hrow Heq)
        as (p' & Hc & Hq & [(Hd & Hn & ->) | (Hd & Hn & ->)]).
      * eexists. split; [|split; [exact Hc|]].
        -- unfold parse_process_char. cbn [pstate]. now rewrite Hn, Hd.
        -- intros ->. discriminate.
      * eexists. split; [|split; [exact Hc|]].
        -- unfold parse_process_char. cbn [pstate]. now rewrite Hn.
        -- intros ->. exfalso. destruct todo; simpl in Heq; discriminate.
    + injection Heq as <- <-. simpl in Hs.
      apply orb_false_elim in Hs. destruct Hs as [Hc0 Hs].
      apply needs_quoting_false in Hc0. destruct Hc0 as (Hd & Hq & Hn).
      unfold parse_process_char. cbn [pstate]. rewrite Hn, Hd.
      rewrite parse_add_char_ok; [|reflexivity|].
      * eexists. split; [reflexivity|]. split.
        -- apply (Cfg_unquoted row done (push pre c0) post' todo); [|exact Hs].
           now rewrite push_app.
        -- intros ->. discriminate.
      * cbn [field].
        pose proof (field_within_limit done todo _ Hrow) as Hl.
        pose proof (char_count_push_le pre post' c0). lia.
  - (* inside a quoted field *)
    destruct post as [|c0 post']; simpl in Heq.
    + injection Heq as <- <-. rewrite append_nil_r in Hrow.
      eexists. split; [reflexivity|]. split.
      * apply (Cfg_closed row done pre todo Hrow).
      * intros H. discriminate.
    + destruct (is_quotechar c0) eqn:Hq; simpl in Heq; injection Heq as <- <-.
      * assert (c0 = "034"%char) as -> by (now apply Ascii.eqb_eq in Hq).
        eexists. split; [reflexivity|]. split.
        -- apply (Cfg_pair row done pre post' todo Hrow).
        -- intros H. discriminate.
      * unfold parse_process_char. cbn [pstate]. rewrite Hq.
        rewrite parse_add_char_ok; [|reflexivity|].
        -- eexists. split; [reflexivity|]. split.
           ++ apply (Cfg_quoted row done (push pre c0) post' todo).
              now rewrite push_app.
           ++ intros _. now left.
        -- cbn [field].
           pose proof (field_within_limit done todo _ Hrow) as Hl.
           pose proof (char_count_push_le pre post' c0). lia.
  - (* between the two quotes of a doubled quote *)
    simpl in Heq. injection Heq as <- <-.
    unfold parse_process_char. cbn [pstate is_quotechar Ascii.eqb].
    rewrite parse_add_char_ok; [|reflexivity|].
    + eexists. split; [reflexivity|]. split.
      * apply (Cfg_quoted row done (push pre "034"%char) post todo).
        now rewrite push_app.
      * intros H. discriminate.
    + cbn [field].
      pose proof (field_within_limit done todo _ Hrow) as Hl.
      pose proof (char_count_push_le pre post "034"%char). lia.
  - (* after the closing quote *)
    destruct (step_after_field QUOTE_IN_QUOTED_FIELD done f todo c rem' Hrow Heq)
      as (p' & Hc & Hq & [(Hd & Hn & ->) | (Hd & Hn & ->)]).
    + eexists. split; [|split; [exact Hc|]].
      * unfold parse_process_char. cbn [pstate]. now rewrite Hq, Hd.
      * intros ->. discriminate.
    + eexists. split; [|split; [exact Hc|]].
      * unfold parse_process_char. cbn [pstate]. now rewrite Hq, Hd, Hn.
      * intros ->. exfalso. destruct todo; simpl in Heq; discriminate.
  - (* between CR and LF *)
    injection Heq as <- <-. eexists. split; [reflexivity|]. split.
    + apply Cfg_done.
    + intros _. right. split; reflexivity.
  - discriminate.
Qed.

End ParserSteps.

Section Lines.
Local Open Scope string_scope.

Lemma first_line_cons2 (c d : ascii) (s : string) :
  first_line (String c (String d s))
  = if Ascii.eqb c "013"%char && Ascii.eqb d "010"%char
    then Some (crlf, s)
    else match first_line (String d s) with
         | Some (l, rest) => Some (String c l, rest)
         | None => None
         end.
Proof. reflexivity. Qed.

Lemma first_line_ind (P : string -> Prop) :
  P EmptyString ->
  (forall c, P (String c EmptyString)) ->
  (forall c d s, P (String d s) -> P (String c (String d s))) ->
  forall s, P s.
Proof.
  intros H0 H1 H2 s. induction s as [|c s IH]; [exact H0|].
  destruct s as [|d s]; [apply H1 | now apply H2].
Qed.

(** The first line is a prefix that ends with the first CRLF. *)
Lemma first_line_split (s l rest : string) :
  first_line s = Some (l, rest) ->
  s = l ++ rest /\ exists l0, l = l0 ++ crlf.
Proof.
  revert l rest. induction s as [| c | c d s IH] using first_line_ind;
    intros l rest H; try discriminate.
  rewrite first_line_cons2 in H.
  destruct (Ascii.eqb c "013"%char && Ascii.eqb d "010"%char) eqn:E.
  - injection H as <- <-. apply andb_prop in E. destruct E as [Ec Ed].
    apply Ascii.eqb_eq in Ec, Ed. subst. split; [reflexivity|].
    now exists EmptyString.
  - destruct (first_line (String d s)) as [[l1 rest1]|]; [|discriminate].
    injection H as <- <-. destruct (IH l1 rest1 eq_refl) as [Hs [l0 ->]].
    split; [simpl; now rewrite <- Hs|]. now exists (String c l0).
Qed.

Lemma first_line_app (a b l rest : string) :
  first_line a = Some (l, rest) -> first_line (a ++ b) = Some (l, rest ++ b).
Proof.
  revert l rest. induction a as [| c | c d a IH] using first_line_ind;
    intros l rest H; try discriminate.
  change (String c (String d a) ++ b) with (String c (String d (a ++ b))).
  rewrite first_line_cons2 in *.
  destruct (Ascii.eqb c "013"%char && Ascii.eqb d "010"%char).
  - now injection H as <- <-.
  - destruct (first_line (String d a)) as [[l1 rest1]|]; [|discriminate].
    injection H as <- <-.
    change (String d (a ++ b)) with (String d a ++ b).
    now rewrite (IH l1 rest1 eq_refl).
Qed.

(** A text in which a CRLF occurs has a first line. *)
Lemma first_line_exists (x y : string) :
  exists l rest, first_line (x ++ crlf ++ y) = Some (l, rest).
Proof.
  induction x as [|c x IH].
  - now exists crlf, y.
  - destruct IH as (l & rest & IH).
    destruct (x ++ crlf ++ y) as [|d s] eqn:E; [discriminate|].
    change (String c x ++ crlf ++ y) with (String c (x ++ crlf ++ y)).
    rewrite E, first_line_cons2.
    destruct (Ascii.eqb c "013"%char && Ascii.eqb d "010"%char).
    + now exists crlf, s.
    + rewrite IH. now exists (String c l), rest.
Qed.

Lemma tail_text_ends (todo : list string) :
  exists x, tail_text todo = x ++ crlf.
Proof.
  induction todo as [|f todo [x IH]].
  - now exists EmptyString.
  - exists ("," ++ write_field f ++ x). simpl. rewrite IH.
    now rewrite append_assoc.
Qed.

End Lines.

Section ParserLines.
Local Open Scope string_scope.
Variable row : list string.
Hypothesis within_limit : Forall (fun f => (char_count f <= field_limit)%N) row.

(** At the start of a line of the text of the row, there is a line. *)
Lemma config_has_line (p : Parser) (rem : string) :
  Config row p rem ->
  pstate p = START_RECORD \/ pstate p = IN_QUOTED_FIELD ->
  exists l rest, first_line rem = Some (l, rest).
Proof.
  intros H Hst. destruct H; cbn [pstate] in Hst;
    try (destruct Hst; discriminate).
  - destruct (tail_text_ends todo) as [x ->].
    rewrite <- append_assoc.
    rewrite <- (append_nil_r crlf). apply first_line_exists.
  - destruct (tail_text_ends todo) as [x ->].
    rewrite <- !append_assoc.
    rewrite <- (append_nil_r crlf). apply first_line_exists.
Qed.

(** The characters of one line of the text of the row. *)
Lemma config_line (rem : string) :
  forall (l rest : string) (p : Parser),
  first_line rem = Some (l, rest) ->
  Config row p rem ->
  exists p', parse_chars p l = inr p' /\ Config row p' rest
             /\ after_lf row p' rest.
Proof.
  induction rem as [| c | c d s IH] using first_line_ind;
    intros l rest p Hl Hc; try discriminate.
  rewrite first_line_cons2 in Hl.
  destruct (config_step row within_limit p _ Hc c (String d s) eq_refl)
    as (p1 & Hp1 & Hc1 & _).
  destruct (Ascii.eqb c "013"%char && Ascii.eqb d "010"%char) eqn:E.
  - injection Hl as <- <-. apply andb_prop in E. destruct E as [Ec Ed].
    apply Ascii.eqb_eq in Ec, Ed. subst c d.
    destruct (config_step row within_limit p1 _ Hc1 "010"%char s eq_refl)
      as (p2 & Hp2 & Hc2 & Hlf).
    exists p2. unfold crlf. cbn [parse_chars]. rewrite Hp1, Hp2.
    split; [reflexivity|]. split; [exact Hc2|]. now apply Hlf.
  - destruct (first_line (String d s)) as [[l1 rest1]|]; [|discriminate].
    injection Hl as <- <-.
    destruct (IH l1 rest1 p1 eq_refl Hc1) as (p' & Hp' & Hc' & Hlf).
    exists p'. cbn [parse_chars]. rewrite Hp1. auto.
Qed.

(** One line of the text of the row, with the end-of-line mark: the
    record is complete, or the parser waits inside a quoted field. *)
Lemma config_parse_line (rem l rest : string) (p : Parser) :
  first_line rem = Some (l, rest) ->
  Config row p rem ->
  exists p',
    parse_line p l = inr p'
    /\ ((pstate p' = START_RECORD /\ fields p' = row /\ rest = EmptyString)
        \/ (pstate p' = IN_QUOTED_FIELD /\ Config row p' rest)).
Proof.
  intros Hl Hc.
  destruct (config_line rem l rest p Hl Hc) as (p' & Hp & Hc' & [Hq | [-> ->]]).
  - exists p'. unfold parse_line. rewrite Hp.
    unfold parse_process_char. rewrite Hq. auto.
  - eexists. unfold parse_line. rewrite Hp. split; [reflexivity|].
    left. repeat split.
Qed.

End ParserLines.

(** ** Text and its bytes *)

Section Encoding.
Local Open Scope string_scope.

Lemma encode_cons (c : ascii) (s : string) :
  encode_utf8 (String c s) = byte_of_ascii c :: encode_utf8 s.
Proof. reflexivity. Qed.

Lemma encode_app (a b : string) :
  encode_utf8 (a ++ b) = (encode_utf8 a ++ encode_utf8 b)%list.
Proof.
  induction a as [|c a IH]; [reflexivity|].
  simpl append. rewrite !encode_cons, IH. reflexivity.
Qed.

Lemma encode_length (s : string) :
  length (encode_utf8 s) = String.length s.
Proof.
  induction s as [|c s IH]; [reflexivity|].
  rewrite encode_cons. simpl. now rewrite IH.
Qed.

Lemma decode_encode (s : string) :
  utf8_valid (encode_utf8 s) = true -> decode_utf8 (encode_utf8 s) = Return s.
Proof.
  intros H. unfold decode_utf8. rewrite H. unfold encode_utf8.
  now rewrite string_of_list_byte_of_string.
Qed.

Lemma byte_eqb_ascii (c x : ascii) :
  Byte.eqb (byte_of_ascii c) (byte_of_ascii x) = Ascii.eqb c x.
Proof.
  destruct (Ascii.eqb_spec c x) as [->|Hne].
  - apply Byte.byte_dec_lb. reflexivity.
  - destruct (Byte.eqb (byte_of_ascii c) (byte_of_ascii x)) eqn:E; [|reflexivity].
    apply Byte.byte_dec_bl in E. exfalso. apply Hne.
    rewrite <- (ascii_of_byte_of_ascii c), <- (ascii_of_byte_of_ascii x).
    now rewrite E.
Qed.

Lemma starts_crlf_encode (c d : ascii) (s : string) :
  starts_crlf (encode_utf8 (String c (String d s)))
  = Ascii.eqb c "013"%char && Ascii.eqb d "010"%char.
Proof.
  rewrite !encode_cons. cbn [starts_crlf].
  change CR with (byte_of_ascii "013"%char).
  change LF with (byte_of_ascii "010"%char).
  now rewrite !byte_eqb_ascii.
Qed.

(** The first line of a text, in its bytes. *)
Lemma find_crlf_first_line (s : string) :
  match first_line s with
  | Some (l, rest) =>
      exists i, find_crlf (encode_utf8 s) = Some i
                /\ firstn (i + 2) (encode_utf8 s) = encode_utf8 l
                /\ skipn (i + 2) (encode_utf8 s) = encode_utf8 rest
  | None => find_crlf (encode_utf8 s) = None
  end.
Proof.
  induction s as [| c | c d s IH] using first_line_ind; try reflexivity.
  rewrite first_line_cons2.
  rewrite (encode_cons c), find_crlf_cons, <- (encode_cons c), starts_crlf_encode.
  destruct (Ascii.eqb c "013"%char && Ascii.eqb d "010"%char) eqn:E.
  - exists 0. repeat split.
    apply andb_prop in E. destruct E as [Ec Ed].
    apply Ascii.eqb_eq in Ec, Ed. now subst.
  - destruct (first_line (String d s)) as [[l rest]|].
    + destruct IH as (i & Hf & Hl & Hr). exists (S i). rewrite Hf.
      repeat split.
      * rewrite (encode_cons c). simpl. now rewrite Hl.
      * rewrite (encode_cons c). simpl. exact Hr.
    + now rewrite IH.
Qed.

Lemma utf8_run_app (a b : bytes) (q : Utf8State) :
  utf8_run q (a ++ b)%list
  = match utf8_run q a with
    | Some q' => utf8_run q' b
    | None => None
    end.
Proof.
  revert q. induction a as [|x a IH]; intros q; [reflexivity|].
  simpl. destruct (utf8_step q x); [apply IH | reflexivity].
Qed.

Lemma utf8_valid_app (a b : bytes) :
  utf8_valid a = true -> utf8_valid (a ++ b)%list = utf8_valid b.
Proof.
  unfold utf8_valid. rewrite utf8_run_app.
  destruct (utf8_run U_start a) as [[]|]; try discriminate. reflexivity.
Qed.

(** An ASCII character is accepted at a character boundary only, and
    leaves the automaton there. *)
Lemma utf8_step_ascii (q q' : Utf8State) (x : byte) :
  is_ascii_byte x -> utf8_step q x = Some q' -> q = U_start /\ q' = U_start.
Proof.
  unfold is_ascii_byte, utf8_step, between. intros Hx.
  destruct q.
  - destruct (Nat.ltb_spec (Byte.to_nat x) 128); [|lia].
    intros Hq. now injection Hq as <-.
  - destruct (Nat.leb_spec 128 (Byte.to_nat x)); [lia|]. discriminate.
  - destruct (Nat.leb_spec 128 (Byte.to_nat x)); [lia|]. discriminate.
  - destruct (Nat.leb_spec 128 (Byte.to_nat x)); [lia|]. discriminate.
  - destruct (Nat.leb_spec 160 (Byte.to_nat x)); [lia|]. discriminate.
  - destruct (Nat.leb_spec 128 (Byte.to_nat x)); [lia|]. discriminate.
  - destruct (Nat.leb_spec 144 (Byte.to_nat x)); [lia|]. discriminate.
  - destruct (Nat.leb_spec 128 (Byte.to_nat x)); [lia|]. discriminate.
Qed.

Lemma utf8_step_ascii_start (x : byte) :
  is_ascii_byte x -> utf8_step U_start x = Some U_start.
Proof.
  unfold is_ascii_byte, utf8_step. intros Hx.
  destruct (Nat.ltb_spec (Byte.to_nat x) 128); [reflexivity | lia].
Qed.

(** Well-formed text cut after an ASCII character: both parts are
    well-formed. *)
Lemma utf8_valid_cut (a b : bytes) (x : byte) :
  is_ascii_byte x ->
  utf8_valid (a ++ x :: b)%list = true ->
  utf8_valid (a ++ [x])%list = true /\ utf8_valid b = true.
Proof.
  unfold utf8_valid. intros Hx. rewrite !utf8_run_app.
  destruct (utf8_run U_start a) as [q|]; [|discriminate].
  simpl. destruct (utf8_step q x) as [q'|] eqn:E; [|discriminate].
  destruct (utf8_step_ascii q q' x Hx E) as [-> ->]. auto.
Qed.

Lemma utf8_valid_first_line (s l rest : string) :
  first_line s = Some (l, rest) ->
  utf8_valid (encode_utf8 s) = true ->
  utf8_valid (encode_utf8 l) = true /\ utf8_valid (encode_utf8 rest) = true.
Proof.
  intros Hl Hv. apply first_line_split in Hl. destruct Hl as [-> [l0 ->]].
  rewrite !encode_app in Hv.
  change (encode_utf8 crlf) with [CR; LF] in Hv.
  rewrite <- app_assoc in Hv. simpl in Hv.
  change (CR :: LF :: encode_utf8 rest) with ([CR] ++ LF :: encode_utf8 rest)%list in Hv.
  rewrite app_assoc in Hv.
  apply utf8_valid_cut in Hv; [|unfold is_ascii_byte; simpl; lia].
  destruct Hv as [Hv Hr]. split; [|exact Hr].
  rewrite encode_app. change (encode_utf8 crlf) with ([CR] ++ [LF])%list.
  now rewrite app_assoc.
Qed.

End Encoding.

(** ** The reader under the csv reader *)

Section ReaderText.
Context {D : Decompressor}.
Local Open Scope string_scope.

Lemma str_length_app (a b : string) :
  String.length (a ++ b) = String.length a + String.length b.
Proof. induction a as [|c a IH]; simpl; [reflexivity | now rewrite IH]. Qed.

Lemma reads_size (r : LZMAIterReader) (t : bytes) :
  reads r t -> reader_size r = length t.
Proof.
  intros (Hc & outs & Hd & _ & <-). unfold reader_size.
  rewrite Hc, (pending_output_decode (iter r) (lzmad r) outs Hd), length_app.
  simpl. lia.
Qed.

(** A call of [__next__] on a reader that has the text [s] still to give:
    the first line of [s], or [StopIteration] when [s] has no line. *)
Lemma next_reads (r : LZMAIterReader) (s : string) :
  reads r (encode_utf8 s) ->
  match first_line s with
  | Some (l, rest) =>
      exists r', next r = (Return (encode_utf8 l), r')
                 /\ reads r' (encode_utf8 rest)
  | None => exists r', next r = (Raise StopIteration, r')
  end.
Proof.
  intros (Hc & outs & Hd & Hne & Ht).
  destruct r as [it ch buf d]. cbn [chunk iter lzmad linebuf] in *. subst ch.
  pose proof (readline_spec it buf d outs Hd Hne) as R.
  pose proof (find_crlf_first_line s) as F. rewrite Ht in R.
  unfold next. destruct (first_line s) as [[l rest]|].
  - destruct F as (i & Hf & Hl & Hr). rewrite Hf in R.
    destruct R as (it' & d' & outs' & buf' & E & H1 & H2 & H3 & _).
    rewrite Hl in E. eexists. split; [exact E|].
    split; [reflexivity|]. exists outs'. cbn [chunk iter lzmad linebuf].
    rewrite H3, Hr. auto.
  - rewrite F in R. exact R.
Qed.

End ReaderText.

Section CsvRows.
Context {D : Decompressor}.
Local Open Scope string_scope.
Variable row : list string.
Hypothesis within_limit : Forall (fun f => (char_count f <= field_limit)%N) row.

(** The loop of the csv reader in the middle of the text of [row]: it
    returns [row] and leaves the reader in front of what follows. *)
Lemma csv_lines_loop_row (fuel : nat) :
  forall (p : Parser) (r : LZMAIterReader) (rem follow : string),
  Config row p rem ->
  pstate p = START_RECORD \/ pstate p = IN_QUOTED_FIELD ->
  reads r (encode_utf8 (rem ++ follow)) ->
  utf8_valid (encode_utf8 (rem ++ follow)) = true ->
  String.length (rem ++ follow) < fuel ->
  exists r',
    csv_lines_loop fuel p r = (Return row, r')
    /\ reads r' (encode_utf8 follow)
    /\ utf8_valid (encode_utf8 follow) = true.
Proof.
  induction fuel as [|fuel IH]; intros p r rem follow Hc Hst Hr Hv Hf; [lia|].
  destruct (config_has_line row p rem Hc Hst) as (l & rest & Hl).
  pose proof (first_line_app rem follow l rest Hl) as Hl'.
  pose proof (next_reads r (rem ++ follow) Hr) as N. rewrite Hl' in N.
  destruct N as (r1 & En & Hr1).
  destruct (utf8_valid_first_line _ _ _ Hl' Hv) as [Hvl Hvr].
  destruct (config_parse_line row within_limit rem l rest p Hl Hc)
    as (p' & Hp & [(Hs & Hfs & ->) | (Hq & Hc')]).
  - exists r1. cbn [csv_lines_loop]. rewrite En, (decode_encode l Hvl), Hp, Hs.
    cbn [pstate_eqb]. rewrite Hfs. auto.
  - cbn [csv_lines_loop]. rewrite En, (decode_encode l Hvl), Hp, Hq.
    cbn [pstate_eqb]. apply (IH p' r1 rest follow Hc'); auto.
    apply first_line_split in Hl'. destruct Hl' as [Hs [l0 ->]].
    rewrite Hs in Hf. rewrite !str_length_app in Hf.
    change (String.length crlf) with 2 in Hf. rewrite str_length_app. lia.
Qed.

End CsvRows.

(** ** The text of the csv writer *)

Section WriterText.
Local Open Scope string_scope.

Lemma join_tail (f : string) (todo : list string) :
  join "," (map write_field (f :: todo)) ++ crlf
  = write_field f ++ tail_text todo.
Proof.
  revert f. induction todo as [|f1 todo IH]; intros f; [reflexivity|].
  change (join "," (map write_field (f :: f1 :: todo)))
    with (write_field f ++ "," ++ join "," (map write_field (f1 :: todo))).
  rewrite !append_assoc, IH. reflexivity.
Qed.

Lemma writerow_tail (f : string) (todo : list string) :
  todo <> [] -> writerow (f :: todo) = write_field f ++ tail_text todo.
Proof.
  intros Hne. rewrite <- join_tail. unfold writerow.
  destruct todo as [|f1 todo]; [congruence|]. now destruct f.
Qed.

Lemma csv_text_cons (row : list string) (rows : list (list string)) :
  csv_text (row :: rows) = writerow row ++ csv_text rows.
Proof.
  unfold csv_text. destruct rows as [|row1 rows]; simpl.
  - now rewrite append_nil_r.
  - reflexivity.
Qed.

Lemma writerow_length (row : list string) : 1 <= String.length (writerow row).
Proof.
  unfold writerow.
  assert (H : forall x, 1 <= String.length (x ++ crlf)).
  { intros x. rewrite str_length_app. simpl. lia. }
  destruct row as [|[|c f] [|f1 todo]]; try apply H. simpl. lia.
Qed.

Lemma csv_text_length (rows : list (list string)) :
  length rows <= String.length (csv_text rows).
Proof.
  induction rows as [|row rows IH]; [simpl; lia|].
  rewrite csv_text_cons, str_length_app. simpl.
  pose proof (writerow_length row). lia.
Qed.

(** Doubling the quotes of well-formed text leaves it well-formed. *)
Lemma utf8_run_escape (f : string) (q : Utf8State) :
  utf8_run q (encode_utf8 (escape_quotes f)) = utf8_run q (encode_utf8 f).
Proof.
  revert q. induction f as [|c f IH]; intros q; [reflexivity|].
  simpl escape_quotes. destruct (is_quotechar c) eqn:Hq.
  - apply Ascii.eqb_eq in Hq. subst c. rewrite !encode_cons.
    assert (Hx : is_ascii_byte (byte_of_ascii "034"%char))
      by (unfold is_ascii_byte; simpl; lia).
    revert Hx. generalize (byte_of_ascii "034"%char). intros x Hx.
    cbn [utf8_run].
    destruct (utf8_step q x) as [q'|] eqn:E; [|reflexivity].
    destruct (utf8_step_ascii q q' x Hx E) as [-> ->].
    rewrite (utf8_step_ascii_start x Hx). apply IH.
  - rewrite !encode_cons. cbn [utf8_run].
    destruct (utf8_step q (byte_of_ascii c)); [apply IH | reflexivity].
Qed.

Lemma utf8_valid_text_app (a b : string) :
  utf8_valid (encode_utf8 a) = true -> utf8_valid (encode_utf8 b) = true ->
  utf8_valid (encode_utf8 (a ++ b)) = true.
Proof.
  intros Ha Hb. rewrite encode_app. now rewrite utf8_valid_app.
Qed.

Lemma utf8_valid_write_field (f : string) :
  utf8_valid (encode_utf8 f) = true ->
  utf8_valid (encode_utf8 (write_field f)) = true.
Proof.
  intros Hf. unfold write_field. destruct (has_special f); [|exact Hf].
  apply (utf8_valid_text_app dq); [reflexivity|].
  apply utf8_valid_text_app; [|reflexivity].
  unfold utf8_valid in *. now rewrite utf8_run_escape.
Qed.

Lemma utf8_valid_tail_text (todo : list string) :
  Forall (fun f => utf8_valid (encode_utf8 f) = true) todo ->
  utf8_valid (encode_utf8 (tail_text todo)) = true.
Proof.
  induction 1 as [|f todo Hf _ IH]; [reflexivity|].
  change (tail_text (f :: todo))
    with ("," ++ (write_field f ++ tail_text todo)).
  apply (utf8_valid_text_app ","); [reflexivity|].
  apply utf8_valid_text_app; [now apply utf8_valid_write_field | exact IH].
Qed.

Lemma utf8_valid_writerow (row : list string) :
  Forall (fun f => utf8_valid (encode_utf8 f) = true) row ->
  utf8_valid (encode_utf8 (writerow row)) = true.
Proof.
  intros H. destruct row as [|f todo]; [reflexivity|].
  destruct todo as [|f1 todo].
  - inversion H as [|? ? Hf _]; subst. destruct f as [|c f]; [reflexivity|].
    unfold writerow. apply utf8_valid_text_app; [|reflexivity].
    now apply utf8_valid_write_field.
  - rewrite writerow_tail by discriminate. inversion H; subst.
    apply utf8_valid_text_app;
      [now apply utf8_valid_write_field | now apply utf8_valid_tail_text].
Qed.

Lemma utf8_valid_csv_text (rows : list (list string)) :
  Forall (Forall (fun f => utf8_valid (encode_utf8 f) = true)) rows ->
  utf8_valid (encode_utf8 (csv_text rows)) = true.
Proof.
  induction 1 as [|row rows Hr _ IH]; [reflexivity|].
  rewrite csv_text_cons.
  apply utf8_valid_text_app; [now apply utf8_valid_writerow | exact IH].
Qed.

End WriterText.

Section CsvNext.
Context {D : Decompressor}.
Local Open Scope string_scope.

(** [next(csv_reader)] in front of the text of a row of two fields or
    more: the row. *)
Lemma csv_next_row (row : list string) (r : LZMAIterReader) (follow : string) :
  2 <= length row ->
  Forall (fun f => (char_count f <= field_limit)%N) row ->
  reads r (encode_utf8 (writerow row ++ follow)) ->
  utf8_valid (encode_utf8 (writerow row ++ follow)) = true ->
  exists r',
    csv_next r = (Return row, r')
    /\ reads r' (encode_utf8 follow)
    /\ utf8_valid (encode_utf8 follow) = true.
Proof.
  intros Hlen Hlim Hr Hv. destruct row as [|f todo]; [simpl in Hlen; lia|].
  assert (Hne : todo <> []) by (destruct todo; [simpl in Hlen; lia | discriminate]).
  rewrite (writerow_tail f todo Hne) in *.
  unfold csv_next. rewrite (reads_size r _ Hr), encode_length.
  apply (csv_lines_loop_row (f :: todo) Hlim _ parse_reset r
           (write_field f ++ tail_text todo) follow); auto.
  now apply Cfg_record.
Qed.

(** [next(csv_reader)] when nothing is left. *)
Lemma csv_next_end (r : LZMAIterReader) :
  reads r [] -> exists r', csv_next r = (Raise StopIteration, r').
Proof.
  intros Hr. unfold csv_next. rewrite (reads_size r _ Hr).
  destruct (next_reads r EmptyString Hr) as [r' E].
  exists r'. cbn [length csv_lines_loop]. now rewrite E.
Qed.

End CsvNext.

(** ** Export, then import *)

Section RoundTrip.
Context {D : Decompressor} {E : SqlEngine}.

Lemma reads_rows_nil (s : LZMAIterReader) :
  reads_rows s [] -> exists s', csv_next s = (Raise StopIteration, s').
Proof. intros (Hr & _ & _). now apply csv_next_end. Qed.

Lemma reads_rows_cons (s : LZMAIterReader) (row : list string)
      (rows : list (list string)) :
  reads_rows s (row :: rows) ->
  exists s', csv_next s = (Return row, s') /\ reads_rows s' rows.
Proof.
  intros (Hr & Hv & Hrows). rewrite csv_text_cons in Hr, Hv.
  inversion Hrows as [|? ? [Hlen Hlim] Hrest]; subst.
  destruct (csv_next_row row s (csv_text rows) Hlen Hlim Hr Hv)
    as (s' & En & Hr' & Hv').
  exists s'. split; [exact En|].
  split; [exact Hr' | split; [exact Hv' | exact Hrest]].
Qed.

Lemma valid_fields_readable (row : list string) :
  2 <= length row -> Forall valid_field row -> readable_row row.
Proof.
  intros Hlen Hv. split; [exact Hlen|].
  eapply Forall_impl; [|exact Hv]. now intros f [_ Hf].
Qed.

Lemma valid_fields_utf8 (row : list string) :
  Forall valid_field row ->
  Forall (fun f => utf8_valid (encode_utf8 f) = true) row.
Proof. intros Hv. eapply Forall_impl; [|exact Hv]. now intros f [Hf _]. Qed.

Lemma header_valid : Forall valid_field Gencsv.header.
Proof.
  repeat constructor; try reflexivity; apply N.leb_le; reflexivity.
Qed.

Lemma create_rotation_table_parts (db : DB) :
  parts (snd (create_rotation_table db)) = parts db.
Proof. unfold create_rotation_table. now destruct (rotation db). Qed.

(** The import of a file that is the text of [hdr :: rows], well formed
    and delivered so that no chunk but the last decodes to nothing. *)
Lemma download_rows (chunks : list bytes) (hdr : list string)
      (rs : list (list string)) (store : list Footprint) (elapsed : string)
      (db : DB) (size : Z) :
  reads_rows (init chunks) (hdr :: rs) ->
  forallb plain hdr = true ->
  accepts_columns hdr = true ->
  Forall (fun row => length row = length hdr) rs ->
  size <> 0%Z ->
  true_div_overflows size = false ->
  parts (db_after (download {| status_code := 200;
                               content_length := Length size;
                               body := chunks |} store elapsed db))
  = Some {| columns := hdr; rows := rs |}.
Proof.
  intros Hrep Hplain Hacc Har Hz Hov.
  destruct (reads_rows_cons _ _ _ Hrep) as (l1 & Eh & Hrep1).
  unfold download. cbn [status_code content_length body Z.eqb Pos.eqb negb].
  rewrite Hov, Eh. unfold delete_parts_table. cbn [snd].
  unfold create_parts_table. rewrite Hplain. cbn [parts]. rewrite Hacc.
  cbn [parts rotation].
  rewrite create_rotation_table_parts. cbn [parts].
  destruct Hrep as (_ & _ & Hrows). inversion Hrows as [|? ? [Hlen _] _]; subst.
  set (rt := raw_tell _).
  destruct (@load_rows_rep _ csv_next rt (length hdr) size
              (Some {| columns := hdr; rows := [] |}) reads_rows Hz)
    with (rs := rs) (tb := {| columns := hdr; rows := [] |}) (s := l1)
         (fuel := S (reader_size l1))
    as (st & El & _); auto.
  - cbn. rewrite Nat.eqb_refl. destruct (length hdr); [lia | reflexivity].
  - apply reads_rows_nil.
  - apply reads_rows_cons.
  - destruct Hrep1 as (Hr1 & _ & _). rewrite (reads_size l1 _ Hr1), encode_length.
    pose proof (csv_text_length rs). lia.
  - rewrite El. cbn [columns rows app].
    destruct (update_stock store _) as [[[u | e |] sp] calls]; reflexivity.
Qed.

End RoundTrip.

Section RoundTripClaim.
Context {D : Decompressor} {HS : Streaming D} {C : Compressor D}
        {E : SqlEngine}.

Lemma export_row_length (r : Gencsv.Component) :
  length (Gencsv.export_row r) = length Gencsv.header.
Proof. reflexivity. Qed.

(** The row of the export is the row of the format. *)
Lemma spec_prices_join (ts : list Gencsv.PriceTier) :
  spec_prices ts = join "," (map Gencsv.tier_str ts).
Proof.
  induction ts as [|t ts IH]; [reflexivity|].
  destruct ts as [|t2 ts]; [reflexivity|].
  change (spec_prices (t :: t2 :: ts))
    with (spec_tier t ++ "," ++ spec_prices (t2 :: ts))%string.
  rewrite IH. reflexivity.
Qed.

Lemma export_row_spec (r : Gencsv.Component) :
  Gencsv.export_row r = spec_row r.
Proof.
  unfold Gencsv.export_row, spec_row. rewrite spec_prices_join.
  assert (Hl : Gencsv.libtype r = spec_library_type (Gencsv.basic r)).
  { unfold Gencsv.libtype, spec_library_type.
    destruct (Gencsv.basic r) as [|z|t]; try reflexivity.
    destruct z; reflexivity. }
  rewrite Hl. reflexivity.
Qed.

(** C9 (amended).  For every list of part records, the file that [gencsv]
    writes,
    imported by [download], gives a [parts] table whose columns are the
    header of the export and whose rows are the rows of the export format:
    [C] and the part number, the Library Type [Basic] for the flag 0 and
    [Extended] otherwise, the price tiers as [qFrom-qTo:price] joined by
    commas, a bound that is missing or 0 left empty, and the other fields
    as they are.  This is proved when: the decompressor takes every chunk
    in which the file is delivered and no chunk but the last decodes to
    nothing; every exported field is well-formed text of at most 131072
    characters, the field size limit of the csv reader; the engine accepts
    the twelve column names; the declared length is not zero and small
    enough for the debug line. *)
Theorem export_import_round_trip
    (comps : list Gencsv.Component) (chunks outs : list bytes)
    (store : list Footprint) (elapsed : string) (db : DB) (size : Z) :
  concat chunks = gencsv comps ->
  decode_chunks LZMADecompressor chunks = inr outs ->
  Forall nonempty (removelast outs) ->
  Forall (fun r => Forall valid_field (Gencsv.export_row r)) comps ->
  accepts_columns Gencsv.header = true ->
  size <> 0%Z ->
  true_div_overflows size = false ->
  parts (db_after (download {| status_code := 200;
                               content_length := Length size;
                               body := chunks |} store elapsed db))
  = Some {| columns := Gencsv.header; rows := map spec_row comps |}.
Proof.
  intros Hfile Hdec Hne Hvalid Hacc Hz Hov.
  rewrite <- (map_ext _ _ export_row_spec).
  apply download_rows; auto.
  - (* the reader stands in front of the exported text *)
    assert (Hrows : Forall (Forall valid_field)
                      (Gencsv.header :: map Gencsv.export_row comps)).
    { constructor; [apply header_valid|].
      apply Forall_map. exact Hvalid. }
    split; [|split].
    + split; [reflexivity|].
      exists outs. split; [exact Hdec|]. split; [exact Hne|].
      destruct (decompress_compress (encode_utf8 (Gencsv.export_text comps)))
        as [d Hd].
      unfold gencsv in Hfile. rewrite <- Hfile in Hd.
      destruct (decode_chunks_whole chunks outs Hdec) as [d' Hd'].
      rewrite Hd in Hd'. now injection Hd' as _ <-.
    + apply utf8_valid_csv_text.
      eapply Forall_impl; [|exact Hrows]. apply valid_fields_utf8.
    + apply Forall_forall. intros row Hin.
      apply valid_fields_readable.
      * destruct Hin as [<- | Hin]; [simpl; lia|].
        apply in_map_iff in Hin. destruct Hin as (r & <- & _). simpl. lia.
      * rewrite Forall_forall in Hrows. now apply Hrows.
  - apply Forall_map. apply Forall_forall. intros r _.
    apply export_row_length.
Qed.

End RoundTripClaim.

Lemma export_import_round_trip_witness :
  parts (db_after
           (@download StoredXZ PlainEngine
              {| status_code := 200; content_length := Length 595;
                 body := [@gencsv StoredXZ StoredXZ_compressor sample_components] |}
              [] "0.02"
              {| parts := Some {| columns := ["x"%string]; rows := [] |};
                 rotation := None |}))
  = Some {| columns := Gencsv.header;
            rows := map spec_row sample_components |}.
Proof.
  apply (@export_import_round_trip StoredXZ StoredXZ_streaming
           StoredXZ_compressor PlainEngine sample_components
           [@gencsv StoredXZ StoredXZ_compressor sample_components]
           [encode_utf8 (Gencsv.export_text sample_components)]).
  - exact (app_nil_r _).
  - reflexivity.
  - constructor.
  - repeat constructor; try reflexivity; apply N.leb_le; reflexivity.
  - reflexivity.
  - discriminate.
  - reflexivity.
Defined.

(** ** A field beyond the field size limit *)

Section Oversized.
Local Open Scope string_scope.

Lemma parse_chars_app (a b : string) :
  forall p : Parser,
  parse_chars p (a ++ b)
  = match parse_chars p a with
    | inl e => inl e
    | inr p' => parse_chars p' b
    end.
Proof.
  induction a as [|c a IH]; intros p; [reflexivity|].
  cbn [append parse_chars].
  destruct (parse_process_char p (Chr c)) as [e|p']; [reflexivity | apply IH].
Qed.

(** A field without special characters that is longer than the limit:
    the parser raises inside it. *)
Lemma parse_chars_oversized (t : string) :
  forall (p : Parser) (rest : string),
  pstate p = IN_FIELD \/ pstate p = START_FIELD ->
  has_special t = false ->
  (field_len p <= field_limit)%N ->
  (field_limit < field_len p + char_count t)%N ->
  parse_chars p (t ++ rest) = inl CsvError.
Proof.
  induction t as [|c t IH]; intros p rest Hst Hsp Hle Hlt.
  - simpl in Hlt. lia.
  - cbn [has_special] in Hsp. apply orb_false_iff in Hsp.
    destruct Hsp as [Hq Hsp].
    destruct (needs_quoting_false c Hq) as (Hd & Hqc & Hn).
    destruct p as [st fs f len]. cbn [pstate field_len] in *.
    cbn [append parse_chars char_count] in *.
    assert (Hstep :
      parse_process_char
        {| pstate := st; fields := fs; field := f; field_len := len |} (Chr c)
      = if is_continuation c then
          inr {| pstate := IN_FIELD; fields := fs; field := push f c;
                 field_len := len |}
        else if N.leb field_limit len then inl CsvError
        else inr {| pstate := IN_FIELD; fields := fs; field := push f c;
                    field_len := N.succ len |}).
    { unfold parse_process_char, parse_start_field, parse_add_char.
      destruct Hst as [-> | ->]; cbn [pstate field_len fields field];
        rewrite Hn, Hd, ?Hqc;
        destruct (is_continuation c); try reflexivity;
        destruct (N.leb field_limit len); reflexivity. }
    rewrite Hstep. destruct (is_continuation c).
    + apply IH; cbn [pstate field_len]; auto.
    + destruct (N.leb_spec field_limit len) as [Hge | Hlt']; [reflexivity|].
      apply IH; cbn [pstate field_len]; auto; lia.
Qed.

Lemma letters_plain (n : nat) : has_special (letters n) = false.
Proof. induction n as [|n IH]; [reflexivity | exact IH]. Qed.

Lemma letters_count (n : nat) : char_count (letters n) = N.of_nat n.
Proof.
  induction n as [|n IH]; [reflexivity|].
  cbn [letters char_count]. change (is_continuation "a") with false.
  cbv iota. rewrite IH. lia.
Qed.

Lemma letters_utf8 (n : nat) : utf8_valid (encode_utf8 (letters n)) = true.
Proof.
  induction n as [|n IH]; [reflexivity|].
  change (letters (S n)) with ("a" ++ letters n).
  apply utf8_valid_text_app; [reflexivity | exact IH].
Qed.

Lemma has_special_no_cr (t : string) :
  has_special t = false -> has_char "013"%char t = false.
Proof.
  induction t as [|c t IH]; [reflexivity|].
  cbn [has_special]. intros H. apply orb_false_iff in H. destruct H as [Hq H].
  destruct (needs_quoting_false c Hq) as (_ & _ & Hn).
  unfold is_newline in Hn. apply orb_false_iff in Hn. destruct Hn as [_ Hn].
  unfold has_char in *. cbn [list_ascii_of_string existsb].
  rewrite (IH H), orb_false_r, Ascii.eqb_sym. exact Hn.
Qed.

Lemma has_char_app (c : ascii) (a b : string) :
  has_char c (a ++ b) = has_char c a || has_char c b.
Proof.
  unfold has_char. induction a as [|x a IH]; [reflexivity|].
  cbn [append list_ascii_of_string existsb]. rewrite IH. apply orb_assoc.
Qed.

(** A text without carriage return, then CRLF: one line. *)
Lemma first_line_no_cr (x y : string) :
  has_char "013"%char x = false ->
  first_line (x ++ crlf ++ y) = Some (x ++ crlf, y).
Proof.
  induction x as [|c x IH]; intros H; [reflexivity|].
  unfold has_char in H. cbn [list_ascii_of_string existsb] in H.
  apply orb_false_iff in H. destruct H as [Hc H].
  specialize (IH H).
  destruct (x ++ crlf ++ y) as [|d s] eqn:E.
  { destruct x; discriminate. }
  change (String c x ++ crlf ++ y) with (String c (x ++ crlf ++ y)).
  rewrite E, first_line_cons2. rewrite Ascii.eqb_sym in Hc. rewrite Hc.
  cbn [andb]. rewrite IH. reflexivity.
Qed.

End Oversized.

Section OversizedImport.
Context {D : Decompressor} {C : Compressor D} {E : SqlEngine}.
Local Open Scope string_scope.

Lemma described_row_text (t : string) :
  has_special t = false ->
  writerow (Gencsv.export_row (described_part t))
  = "C1,,,,,2,,Basic," ++ t ++ described_rest ++ crlf.
Proof.
  intros Hsp. unfold writerow, Gencsv.export_row, described_part.
  cbn [map Gencsv.lcsc Gencsv.category Gencsv.subcategory Gencsv.mfr
       Gencsv.package Gencsv.joints Gencsv.manufacturer Gencsv.basic
       Gencsv.description Gencsv.datasheet Gencsv.stock Gencsv.prices
       Gencsv.csv_value Gencsv.str Gencsv.libtype Gencsv.pricestr].
  cbn. unfold write_field. rewrite Hsp.
  now rewrite !append_assoc.
Qed.

Lemma described_row_valid (t : string) :
  utf8_valid (encode_utf8 t) = true ->
  Forall (fun f => utf8_valid (encode_utf8 f) = true)
         (Gencsv.export_row (described_part t)).
Proof. intros H. repeat constructor; try reflexivity. exact H. Qed.

(** The import of the file of one record whose description is longer than
    the field size limit. *)
Lemma oversized_description_raises (t : string) (store : list Footprint)
      (elapsed : string) (db : DB) (size : Z) :
  has_special t = false ->
  utf8_valid (encode_utf8 t) = true ->
  (field_limit < char_count t)%N ->
  accepts_columns Gencsv.header = true ->
  true_div_overflows size = false ->
  let run := download {| status_code := 200; content_length := Length size;
                         body := [gencsv [described_part t]] |}
               store elapsed db in
  outcome run = Raise CsvError
  /\ inserted run = []
  /\ parts (db_after run) = Some {| columns := Gencsv.header; rows := [] |}.
Proof.
  intros Hsp Hv Hlong Hacc Hov.
  set (row := Gencsv.export_row (described_part t)).
  assert (Hvalid : utf8_valid (encode_utf8 (csv_text [Gencsv.header; row]))
                   = true).
  { apply utf8_valid_csv_text. constructor; [|constructor; [|constructor]].
    - apply valid_fields_utf8, header_valid.
    - now apply described_row_valid. }
  assert (Hreads : reads (init [gencsv [described_part t]])
                     (encode_utf8 (csv_text [Gencsv.header; row]))).
  { split; [reflexivity|].
    exists [encode_utf8 (Gencsv.export_text [described_part t])].
    cbn [init iter lzmad linebuf decode_chunks].
    destruct (decompress_compress
                (encode_utf8 (Gencsv.export_text [described_part t])))
      as [d Hd].
    unfold gencsv. rewrite Hd. split; [reflexivity|].
    split; [constructor|]. cbn [concat app]. apply app_nil_r. }
  rewrite csv_text_cons in Hreads, Hvalid.
  assert (Hlim : Forall (fun f => (char_count f <= field_limit)%N)
                   Gencsv.header).
  { eapply Forall_impl; [|apply header_valid]. now intros f [_ Hf]. }
  assert (Hlen : 2 <= length Gencsv.header) by (simpl; lia).
  destruct (csv_next_row Gencsv.header _ (csv_text [row]) Hlen Hlim Hreads
              Hvalid) as (l1 & Eh & Hr1 & Hv1).
  change (csv_text [row]) with (writerow row) in Hr1, Hv1.
  unfold row in Hr1, Hv1. rewrite (described_row_text t Hsp) in Hr1, Hv1.
  assert (Hline :
    first_line ("C1,,,,,2,,Basic," ++ t ++ described_rest ++ crlf)
    = Some ("C1,,,,,2,,Basic," ++ t ++ described_rest ++ crlf, "")).
  { pose proof (first_line_no_cr
                  ("C1,,,,,2,,Basic," ++ t ++ described_rest) "") as F.
    rewrite !append_assoc, append_nil_r in F. apply F.
    rewrite !has_char_app, (has_special_no_cr t Hsp). reflexivity. }
  pose proof (next_reads l1 _ Hr1) as N. rewrite Hline in N.
  destruct N as (l2 & En & _).
  assert (Hrow : csv_next l1 = (Raise CsvError, l2)).
  { unfold csv_next. cbn [csv_lines_loop]. rewrite En.
    rewrite (decode_encode _ Hv1). unfold parse_line.
    rewrite parse_chars_app.
    change (parse_chars parse_reset "C1,,,,,2,,Basic,")
      with (@inr Exn Parser
              {| pstate := START_FIELD;
                 fields := ["C1"; ""; ""; ""; ""; "2"; ""; "Basic"];
                 field := ""; field_len := 0 |}).
    cbv iota.
    rewrite parse_chars_oversized;
      [reflexivity | now right | exact Hsp
      | cbn [field_len]; unfold field_limit; lia
      | cbn [field_len]; lia]. }
  cbv zeta. unfold download.
  cbn [status_code content_length body Z.eqb Pos.eqb negb].
  rewrite Hov, Eh. unfold delete_parts_table. cbn [snd].
  unfold create_parts_table.
  change (forallb plain Gencsv.header) with true. cbv iota.
  cbn [parts]. rewrite Hacc. cbn [parts rotation].
  rewrite create_rotation_table_parts. cbn [parts].
  unfold load_rows. cbn [load_loop source]. rewrite Hrow.
  cbn [outcome db_after inserted batches].
  rewrite create_rotation_table_parts. cbn [parts]. repeat split.
Qed.

End OversizedImport.

(** C9, the record that does not come back.  A record with two price
    tiers whose description has 131073 characters, one more than the field
    size limit of the csv reader: [gencsv] writes it, and the import of
    the file raises [csv.Error] at that row; the parts table is left with
    the columns of the header and no row, not with the exported row. *)
Lemma round_trip_fails_for_an_oversized_field :
  let run := @download StoredXZ PlainEngine
               {| status_code := 200; content_length := Length 131250;
                  body := [@gencsv StoredXZ StoredXZ_compressor
                             [described_part (letters (N.to_nat 131073))]] |}
               [] "0.02" fresh_db in
  outcome run = Raise CsvError
  /\ parts (db_after run) = Some {| columns := Gencsv.header; rows := [] |}
  /\ parts (db_after run)
     <> Some {| columns := Gencsv.header;
                rows := map spec_row
                          [described_part (letters (N.to_nat 131073))] |}.
Proof.
  destruct (@oversized_description_raises StoredXZ StoredXZ_compressor
              PlainEngine (letters (N.to_nat 131073)) [] "0.02" fresh_db
              131250) as (Ho & _ & Hp).
  - apply letters_plain.
  - apply letters_utf8.
  - rewrite letters_count. unfold field_limit. lia.
  - reflexivity.
  - reflexivity.
  - split; [exact Ho|]. split; [exact Hp|].
    rewrite Hp. discriminate.
Qed.

(** ** The budgets are enough *)

Section Budgets.
Context {D : Decompressor}.

(** Whatever [read] does, it does not add to what is left to read. *)
Lemma read_size_le (r : LZMAIterReader) (o : res bytes) (r1 : LZMAIterReader) :
  read r = (o, r1) -> reader_size r1 <= reader_size r.
Proof.
  destruct o as [data | e |]; intros H.
  - apply read_size in H. lia.
  - unfold read in H. unfold reader_size.
    destruct (Nat.eqb (length (chunk r)) 0); [|discriminate].
    destruct (iter r) as [|c rest] eqn:Ei.
    + injection H as _ <-. rewrite Ei. lia.
    + destruct (decompress (lzmad r) c) as [e'|[d' out]] eqn:Ed; [|discriminate].
      injection H as _ <-. cbn [linebuf chunk iter lzmad pending_output].
      rewrite Ed. lia.
  - exfalso. eapply read_no_OutOfFuel; eauto.
Qed.

Lemma readline_loop_size_le (fuel : nat) :
  forall (r : LZMAIterReader) (o : res nat) (r1 : LZMAIterReader),
  readline_loop fuel r = (o, r1) -> reader_size r1 <= reader_size r.
Proof.
  induction fuel as [|fuel IH]; intros r o r1; cbn [readline_loop].
  - destruct (find_crlf (linebuf r)); intros H; injection H as _ <-; lia.
  - destruct (find_crlf (linebuf r)); [intros H; injection H as _ <-; lia|].
    destruct (read r) as [[data | e |] r2] eqn:Er.
    + pose proof (read_size _ _ _ Er) as Hs.
      destruct (Nat.eqb (length data) 0).
      * intros H. injection H as _ <-. lia.
      * intros H. apply IH in H. unfold reader_size in *.
        cbn [linebuf chunk iter lzmad] in H. rewrite length_app in H. lia.
    + apply read_size_le in Er. intros H. injection H as _ <-. exact Er.
    + apply read_size_le in Er. intros H. injection H as _ <-. exact Er.
Qed.

Lemma next_size_le (r : LZMAIterReader) (o : res bytes) (r1 : LZMAIterReader) :
  next r = (o, r1) -> reader_size r1 <= reader_size r.
Proof.
  destruct o as [line | e |]; intros H.
  - apply readline_size in H. lia.
  - unfold next, readline in H.
    destruct (readline_loop (readline_budget r) r) as [[idx | e' |] r2] eqn:El;
      try discriminate.
    injection H as _ <-. now apply readline_loop_size_le in El.
  - exfalso. eapply readline_no_OutOfFuel; eauto.
Qed.

(** The loop of the csv reader ends within its budget.  A record it
    returns took at least one line, unless the parser came with a field
    begun. *)
Lemma csv_lines_loop_enough (fuel : nat) :
  forall (p : Parser) (r : LZMAIterReader) (o : res (list string))
         (r1 : LZMAIterReader),
  reader_size r < fuel ->
  csv_lines_loop fuel p r = (o, r1) ->
  o <> OutOfFuel
  /\ reader_size r1 <= reader_size r
  /\ (forall row, o = Return row ->
        field_len p = 0%N -> pstate p <> IN_QUOTED_FIELD ->
        reader_size r1 < reader_size r).
Proof.
  induction fuel as [|fuel IH]; intros p r o r1 Hf; [lia|].
  cbn [csv_lines_loop].
  destruct (next r) as [[line | e |] r2] eqn:En.
  - pose proof (readline_size _ _ _ En) as Hs.
    destruct (decode_utf8 line) as [text | e |] eqn:Ed.
    + destruct (parse_line p text) as [e | p'].
      * intros H. injection H as <- <-. repeat split; [discriminate | lia |].
        intros row Hrow. discriminate.
      * destruct (pstate_eqb (pstate p') START_RECORD).
        -- intros H. injection H as <- <-.
           repeat split; [discriminate | lia | intros; lia].
        -- intros H. apply IH in H; [|lia].
           destruct H as (Ho & Hle & _).
           repeat split; [exact Ho | lia | intros; lia].
    + intros H. injection H as <- <-. repeat split; [discriminate | lia |].
      intros row Hrow. discriminate.
    + unfold decode_utf8 in Ed. destruct (utf8_valid line); discriminate.
  - pose proof (next_size_le _ _ _ En) as Hs.
    destruct e;
      try (intros H; injection H as <- <-;
           repeat split; [discriminate | lia | intros row Hrow; discriminate]).
    destruct (negb (N.eqb (field_len p) 0) || pstate_eqb (pstate p) IN_QUOTED_FIELD)
      eqn:Eb.
    + intros H. injection H as <- <-. repeat split; [discriminate | lia |].
      intros row _ Hfl Hst. exfalso.
      rewrite Hfl in Eb. simpl in Eb. destruct (pstate p); try discriminate.
      now apply Hst.
    + intros H. injection H as <- <-. repeat split; [discriminate | lia |].
      intros row Hrow. discriminate.
  - exfalso. eapply readline_no_OutOfFuel; eauto.
Qed.

Lemma csv_next_enough (r : LZMAIterReader) (o : res (list string))
      (r1 : LZMAIterReader) :
  csv_next r = (o, r1) ->
  o <> OutOfFuel
  /\ reader_size r1 <= reader_size r
  /\ (forall row, o = Return row -> reader_size r1 < reader_size r).
Proof.
  unfold csv_next. intros H.
  apply csv_lines_loop_enough in H; [|lia].
  destruct H as (Ho & Hle & Hlt). repeat split; auto.
  intros row Hrow. apply (Hlt row Hrow); [reflexivity | discriminate].
Qed.

Lemma executemany_enough (ncols : nat) (t : option Table)
      (buf pend pend' : list (list string)) :
  executemany ncols t buf pend <> (OutOfFuel, pend').
Proof.
  unfold executemany. destruct (prepare_insert ncols t); [|discriminate].
  revert pend. induction buf as [|row buf IH]; intros pend; simpl;
    [discriminate|].
  destruct (Nat.eqb (length row) ncols); [apply IH | discriminate].
Qed.

(** The loop of the bulk load over the csv reader ends within its
    budget. *)
Lemma load_loop_enough (tell : LZMAIterReader -> Z) (ncols : nat) (size : Z)
      (table : option Table) (fuel : nat) :
  forall (count : N) (st : Load LZMAIterReader),
  reader_size (source st) < fuel ->
  fst (load_loop csv_next tell ncols size table fuel count st) <> OutOfFuel.
Proof.
  induction fuel as [|fuel IH]; intros count st Hf; [lia|].
  cbn [load_loop].
  destruct (csv_next (source st)) as [[row | e |] s1] eqn:En.
  - apply csv_next_enough in En. destruct En as (_ & _ & Hlt).
    specialize (Hlt row eq_refl).
    destruct (N.eqb (N.modulo count 1000) 0).
    + destruct (Z.eqb size 0); [discriminate|].
      destruct (executemany ncols table (buffer st ++ [row]) (pending st))
        as [[u | e |] pend] eqn:Ex.
      * apply IH. cbn [source]. lia.
      * discriminate.
      * exfalso. eapply executemany_enough; eauto.
    + apply IH. cbn [source]. lia.
  - destruct e; discriminate.
  - apply csv_next_enough in En. now destruct En as (Ho & _).
Qed.

End Budgets.

Section DownloadTotal.
Context {D : Decompressor} {E : SqlEngine}.

Lemma update_stock_loop_enough (fps : list Footprint) :
  forall (n total : Z) (db : DB) (posted : list Event)
         (calls : list (string * string)),
  fst (fst (update_stock_loop n total fps db posted calls)) <> OutOfFuel.
Proof.
  induction fps as [|fp fps IH]; intros n total db posted calls; simpl;
    [discriminate|].
  unfold get_stock. destruct (fetchall (get_stock_sql (lcsc fp)) db) as [e|rs];
    [discriminate|].
  destruct (hd_error rs) as [[|value row]|]; apply IH.
Qed.

(** [download] always comes to an end: it returns, or an exception ends
    the thread. *)
Theorem download_total (resp : Response) (store : list Footprint)
        (elapsed : string) (db : DB) :
  outcome (download resp store elapsed db) <> OutOfFuel.
Proof.
  unfold download.
  destruct (negb (Z.eqb (status_code resp) 200)); [discriminate|].
  destruct (content_length resp) as [| |size]; try discriminate.
  destruct (true_div_overflows size); [discriminate|].
  destruct (csv_next (init (body resp))) as [[headers | e |] l1] eqn:Eh;
    try discriminate.
  2: { apply csv_next_enough in Eh. now destruct Eh. }
  destruct (create_parts_table headers (snd (delete_parts_table db)))
    as [[u | e |] db2] eqn:Ec; try discriminate.
  2: { exfalso. unfold create_parts_table in Ec.
       destruct (forallb plain headers).
       - destruct (parts (snd (delete_parts_table db))).
         + destruct headers; discriminate.
         + destruct (accepts_columns headers); discriminate.
       - destruct (exec_parts _ _); discriminate. }
  set (tbl := parts (snd (create_rotation_table db2))).
  pose proof (load_loop_enough (raw_tell resp) (length headers) size tbl
                (S (reader_size l1)) 0
                {| source := l1; buffer := []; pending := []; load_posted := [];
                   batches := [] |} ltac:(cbn; lia)) as Hl.
  unfold load_rows.
  destruct (load_loop csv_next (raw_tell resp) (length headers) size tbl
              (S (reader_size l1)) 0 _) as [[u1 | e |] st] eqn:El;
    cbn [fst] in Hl; try discriminate; try congruence.
  destruct (buffer st) as [|row buf].
  - pose proof (update_stock_loop_enough
                  (filter (fun fp => truthy (lcsc fp)) store) 0
                  (Z.of_nat (length (filter (fun fp => truthy (lcsc fp)) store)))
                  {| parts := commit tbl (pending st);
                     rotation := rotation (snd (create_rotation_table db2)) |}
                  [] []) as Hu.
    unfold update_stock.
    destruct (update_stock_loop _ _ _ _ _ _) as [[[u2 | e |] sp] calls];
      cbn [fst] in Hu; try discriminate; congruence.
  - destruct (executemany (length headers) tbl (row :: buf) (pending st))
      as [[u2 | e |] pend] eqn:Ex; try discriminate.
    2: { exfalso. eapply executemany_enough; eauto. }
    pose proof (update_stock_loop_enough
                  (filter (fun fp => truthy (lcsc fp)) store) 0
                  (Z.of_nat (length (filter (fun fp => truthy (lcsc fp)) store)))
                  {| parts := commit tbl pend;
                     rotation := rotation (snd (create_rotation_table db2)) |}
                  [] []) as Hu.
    unfold update_stock.
    destruct (update_stock_loop _ _ _ _ _ _) as [[[u3 | e |] sp] calls];
      cbn [fst] in Hu; try discriminate; congruence.
Qed.

End DownloadTotal.

(* ================================================================== *)
(** * Part III: further properties                                     *)
(* ================================================================== *)

(** ** The reader for any chunking *)

Section ReaderAnyChunking.
Context {D : Decompressor}.

(** The loop of [readline] for any chunking the decompressor accepts: it
    stops at a CRLF of the buffer, having moved text of the stream into
    it, or raises [StopIteration]. *)
Lemma readline_loop_any (it : list bytes) :
  forall (fuel : nat) (buf : bytes) (d : dstate) (outs : list bytes),
  decode_chunks d it = inr outs ->
  length it < fuel ->
  (exists it' d' outs' buf' i,
      readline_loop fuel
        {| iter := it; chunk := []; linebuf := buf; lzmad := d |}
      = (Return i,
         {| iter := it'; chunk := []; linebuf := buf'; lzmad := d' |})
      /\ find_crlf buf' = Some i
      /\ decode_chunks d' it' = inr outs'
      /\ buf' ++ concat outs' = buf ++ concat outs
      /\ length it' <= length it)
  \/ (exists r',
         readline_loop fuel
           {| iter := it; chunk := []; linebuf := buf; lzmad := d |}
         = (Raise StopIteration, r')).
Proof.
  induction it as [|c rest IH]; intros fuel buf d outs Hdec Hfuel;
    (destruct fuel as [|fuel]; [simpl in Hfuel; lia|]);
    cbn [readline_loop linebuf];
    destruct (find_crlf buf) as [i|] eqn:F.
  - left. exists [], d, outs, buf, i. repeat split; auto.
  - right. eexists. reflexivity.
  - left. exists (c :: rest), d, outs, buf, i. repeat split; auto.
  - apply decode_chunks_cons in Hdec.
    destruct Hdec as (d1 & o1 & outs1 & Hd & Hdec1 & ->).
    unfold read. cbn [chunk length Nat.eqb iter lzmad linebuf].
    rewrite Hd. cbn [chunk iter linebuf lzmad].
    rewrite skipn_min_all, firstn_min_all.
    destruct o1 as [|b o1]; [right; eexists; reflexivity|].
    cbn [length Nat.eqb].
    destruct (IH fuel (buf ++ b :: o1) d1 outs1 Hdec1
                 ltac:(simpl in Hfuel; lia))
      as [(it' & d' & outs' & buf' & j & E & H1 & H2 & H3 & H4) | [r' E]].
    + left. exists it', d', outs', buf', j.
      split; [exact E|]. split; [exact H1|]. split; [exact H2|]. split.
      * rewrite H3. cbn [concat]. now rewrite app_assoc.
      * simpl. lia.
    + right. now exists r'.
Qed.

(** One call of [readline]: the line it returns is the first line of the
    text still to come, and the rest of that text is still to come. *)
Lemma readline_any (it : list bytes) (buf : bytes) (d : dstate)
      (outs : list bytes) :
  decode_chunks d it = inr outs ->
  (exists it' d' outs' buf' i,
      readline {| iter := it; chunk := []; linebuf := buf; lzmad := d |}
      = (Return (firstn (i + 2) (buf ++ concat outs)),
         {| iter := it'; chunk := []; linebuf := buf'; lzmad := d' |})
      /\ find_crlf (buf ++ concat outs) = Some i
      /\ decode_chunks d' it' = inr outs'
      /\ buf' ++ concat outs' = skipn (i + 2) (buf ++ concat outs))
  \/ (exists r',
         readline {| iter := it; chunk := []; linebuf := buf; lzmad := d |}
         = (Raise StopIteration, r')).
Proof.
  intros Hdec. unfold readline, readline_budget. cbn [iter].
  destruct (readline_loop_any it (S (S (length it))) buf d outs Hdec
              ltac:(lia))
    as [(it' & d' & outs' & buf' & i & E & H1 & H2 & H3 & H4) | [r' E]];
    rewrite E.
  - left. cbn [linebuf iter chunk lzmad].
    exists it', d', outs', (skipn (i + 2) buf'), i.
    pose proof (find_crlf_bound _ _ H1) as Hb.
    rewrite <- H3. rewrite (firstn_app_le _ _ _ _ Hb).
    rewrite (skipn_app_le _ _ _ _ Hb).
    repeat split; auto. now apply find_crlf_app_Some.
  - right. now exists r'.
Qed.

(** The lines the iteration returns are the first lines of the text. *)
Lemma drain_initial (fuel : nat) :
  forall (it : list bytes) (buf : bytes) (d : dstate) (outs : list bytes)
         (ls : list bytes) (e : res unit) (r' : LZMAIterReader),
  decode_chunks d it = inr outs ->
  drain fuel {| iter := it; chunk := []; linebuf := buf; lzmad := d |}
  = (ls, e, r') ->
  exists more, spec_split_lines (buf ++ concat outs) = ls ++ more.
Proof.
  induction fuel as [|fuel IH]; intros it buf d outs ls e r' Hdec;
    cbn [drain].
  - intros H. injection H as <- _ _. now eexists.
  - unfold next.
    destruct (readline_any it buf d outs Hdec)
      as [(it' & d' & outs' & buf' & i & E & H1 & H2 & H3) | [r1 E]];
      rewrite E.
    + destruct (drain fuel _) as [[ls1 e1] r2] eqn:E1.
      intros H. injection H as <- _ _.
      destruct (IH _ _ _ _ _ _ _ H2 E1) as [more Hm].
      exists more. rewrite spec_split_lines_find, H1, <- H3, Hm.
      reflexivity.
    + intros H. injection H as <- _ _. now eexists.
Qed.

(** The iteration ends with [StopIteration]. *)
Lemma drain_ends (fuel : nat) :
  forall (it : list bytes) (buf : bytes) (d : dstate) (outs : list bytes)
         (ls : list bytes) (e : res unit) (r' : LZMAIterReader),
  decode_chunks d it = inr outs ->
  drain fuel {| iter := it; chunk := []; linebuf := buf; lzmad := d |}
  = (ls, e, r') ->
  e = Raise StopIteration \/ e = OutOfFuel.
Proof.
  induction fuel as [|fuel IH]; intros it buf d outs ls e r' Hdec;
    cbn [drain].
  - intros H. injection H as _ <- _. now right.
  - unfold next.
    destruct (readline_any it buf d outs Hdec)
      as [(it' & d' & outs' & buf' & i & E & H1 & H2 & H3) | [r1 E]];
      rewrite E.
    + destruct (drain fuel _) as [[ls1 e1] r2] eqn:E1.
      intros H. injection H as _ <- _.
      exact (IH _ _ _ _ _ _ _ H2 E1).
    + intros H. injection H as _ <- _. now left.
Qed.

End ReaderAnyChunking.

Lemma until_nul_app (a b : bytes) (o1 : bytes) :
  until_nul a = (o1, false) ->
  until_nul (a ++ b) = (o1 ++ fst (until_nul b), snd (until_nul b)).
Proof.
  revert o1. induction a as [|x a IH]; intros o1 H.
  - injection H as <-. simpl. now destruct (until_nul b).
  - simpl in *. destruct (Byte.eqb x x00); [discriminate|].
    destruct (until_nul a) as [out ended]. injection H as <- ->.
    now rewrite (IH out eq_refl).
Qed.

(** The container that ends at a NUL is streaming, although it refuses
    every call after the end of its stream. *)
Lemma NulTerminated_streaming : Streaming NulTerminated.
Proof.
  split.
  - now exists false.
  - intros d d1 d2 a b o1 o2. cbn [decompress NulTerminated].
    unfold nul_decompress. destruct d; [discriminate|].
    destruct (until_nul a) as [out1 e1] eqn:Ea. intros H. injection H as <- <-.
    destruct e1; [discriminate|].
    destruct (until_nul b) as [out2 e2] eqn:Eb. intros H. injection H as <- <-.
    exists e2. rewrite (until_nul_app a b out1 Ea), Eb. reflexivity.
Qed.

(** X1.  Whatever the chunk boundaries, the reader returns no wrong line.
    The decompressor is one that, for a stream fed in two calls both of
    which it takes, gives in the two calls the two parts of what it gives
    for the stream fed in one call, and that takes an empty input when it
    is new; it may raise on any other call, as lzma does after the end of
    its stream.  When it takes every chunk, the lines the reader returns
    are the first lines of the stream decompressed at once, in order, and
    the iteration ends with [StopIteration].  (It may stop before the
    last line, at a chunk that decodes to nothing.) *)
Theorem reader_returns_first_lines {D : Decompressor} {HS : Streaming D}
    (it : list bytes) (outs : list bytes) :
  decode_chunks LZMADecompressor it = inr outs ->
  exists ls more,
    lines_of_chunks it = (ls, Raise StopIteration)
    /\ spec_lines (concat it) = Some (ls ++ more).
Proof.
  intros Hdec. unfold lines_of_chunks.
  destruct (drain (S (reader_size (init it))) (init it)) as [[ls e] r'] eqn:E.
  exists ls.
  destruct (drain_initial _ it [] LZMADecompressor outs ls e r' Hdec E)
    as [more Hm].
  exists more. split.
  - destruct (drain_ends _ it [] LZMADecompressor outs ls e r' Hdec E)
      as [-> | ->]; [reflexivity|].
    exfalso. apply (drain_enough _ _ ls r' (Nat.lt_succ_diag_r _) E).
  - unfold spec_lines.
    destruct (decode_chunks_whole it outs Hdec) as [d' Ed].
    rewrite Ed. simpl in Hm. now rewrite Hm.
Qed.

Lemma reader_returns_first_lines_witness :
  exists ls more,
    @lines_of_chunks StoredXZ [xz_magic; ab_cd] = (ls, Raise StopIteration)
    /\ @spec_lines StoredXZ (concat [xz_magic; ab_cd]) = Some (ls ++ more).
Proof.
  apply (@reader_returns_first_lines StoredXZ StoredXZ_streaming
           [xz_magic; ab_cd] [[]; ab_cd]).
  reflexivity.
Defined.

(** X2.  Two ways of cutting one stream into chunks give the same lines
    and the same end of the iteration when, in each, the decompressor
    takes every chunk and no chunk but the last decodes to nothing.  The
    decompressor is one that, for a stream fed in two calls both of which
    it takes, gives in the two calls the two parts of what it gives for
    the stream fed in one call, and that takes an empty input when it is
    new; it may raise on any other call, as lzma does after the end of
    its stream. *)
Theorem reader_lines_independent_of_chunking
    {D : Decompressor} {HS : Streaming D}
    (it1 it2 : list bytes) (outs1 outs2 : list bytes) :
  concat it1 = concat it2 ->
  decode_chunks LZMADecompressor it1 = inr outs1 ->
  Forall nonempty (removelast outs1) ->
  decode_chunks LZMADecompressor it2 = inr outs2 ->
  Forall nonempty (removelast outs2) ->
  lines_of_chunks it1 = lines_of_chunks it2.
Proof.
  intros Hc H1 N1 H2 N2.
  destruct (lines_of_chunks_whole it1 outs1 H1 N1) as (ls1 & S1 & L1).
  destruct (lines_of_chunks_whole it2 outs2 H2 N2) as (ls2 & S2 & L2).
  rewrite L1, L2. rewrite Hc in S1. congruence.
Qed.

Lemma reader_lines_independent_of_chunking_witness :
  @lines_of_chunks NulTerminated
    [[x61; x62; x0d]; [x0a; x63; x64; x0d; x0a; x00]]
  = @lines_of_chunks NulTerminated
      [[x61]; [x62]; [x0d; x0a; x63; x64; x0d]; [x0a; x00]].
Proof.
  apply (@reader_lines_independent_of_chunking NulTerminated
           NulTerminated_streaming
           _ _ [[x61; x62; x0d]; [x0a; x63; x64; x0d; x0a]]
           [[x61]; [x62]; [x0d; x0a; x63; x64; x0d]; [x0a]]).
  - reflexivity.
  - reflexivity.
  - repeat constructor; discriminate.
  - reflexivity.
  - repeat constructor; discriminate.
Defined.

Section NoLine.
Context {D : Decompressor} {E : SqlEngine}.

Lemma csv_next_no_line (it : list bytes) (outs : list bytes) :
  decode_chunks LZMADecompressor it = inr outs ->
  find_crlf (concat outs) = None ->
  exists r1, csv_next (init it) = (Raise StopIteration, r1).
Proof.
  intros Hdec Hf. unfold csv_next. cbn [csv_lines_loop]. unfold next, init.
  destruct (readline_any it [] LZMADecompressor outs Hdec)
    as [(it' & d' & outs' & buf' & i & _ & H1 & _) | [r1 Er]].
  - simpl in H1. congruence.
  - rewrite Er. exists r1. reflexivity.
Qed.

(** X3.  For a declared size that the debug line can format (under
    [2^1034 - 2^980] in absolute value; from there on [size / 1024]
    raises [OverflowError] before the reader is made): when the text of
    the remote file has no CRLF at all (an empty body, or a file whose
    lines end with a bare LF), [download] raises [StopIteration] at the
    header: the store is as it was, old [parts] table included, nothing
    is inserted, no stock is set, and the only message posted, if any, is
    a download error. *)
Theorem download_without_line_changes_nothing
    (resp : Response) (store : list Footprint) (elapsed : string) (db : DB)
    (size : Z) (outs : list bytes) :
  status_code resp = 200%Z ->
  content_length resp = Length size ->
  true_div_overflows size = false ->
  decode_chunks LZMADecompressor (body resp) = inr outs ->
  find_crlf (concat outs) = None ->
  let run := download resp store elapsed db in
  outcome run = Raise StopIteration
  /\ db_after run = db
  /\ inserted run = [] /\ stock_set run = []
  /\ Forall (fun ev => match ev with
                       | MessageEvent title _ _ =>
                           title = "Download Error"%string
                       | _ => True
                       end) (run_posted run).
Proof.
  intros Hs Hc Hov Hdec Hf. cbv zeta. unfold download. rewrite Hs, Hc, Hov.
  cbn [Z.eqb Pos.eqb negb].
  destruct (csv_next_no_line (body resp) outs Hdec Hf) as [r1 ->].
  cbn. repeat split. constructor; [exact I|].
  destruct (Z.ltb size 1000); repeat constructor.
Qed.

End NoLine.

Lemma download_without_line_changes_nothing_witness :
  let run := @download StoredXZ PlainEngine
               {| status_code := 200; content_length := Length 14;
                  body := [lf_only_file] |} [] "1" sample_store in
  outcome run = Raise StopIteration
  /\ db_after run = sample_store
  /\ inserted run = [] /\ stock_set run = []
  /\ Forall (fun ev => match ev with
                       | MessageEvent title _ _ =>
                           title = "Download Error"%string
                       | _ => True
                       end) (run_posted run).
Proof.
  apply (@download_without_line_changes_nothing StoredXZ PlainEngine
           {| status_code := 200; content_length := Length 14;
              body := [lf_only_file] |}
           [] "1" sample_store 14
           [[x61; x2c; x62; x0a; x31; x2c; x32; x0a]]);
    reflexivity.
Defined.

(** ** The ordering of the search *)

Lemma getitem_order_columns (n : Z) :
  match getitem order_columns n with
  | inl _ => (n < -9 \/ 9 <= n)%Z
  | inr col =>
      (-9 <= n < 9)%Z /\ In col order_columns
      /\ getitem order_columns (if Z.ltb n 0 then n + 9 else n - 9)%Z
         = inr col
  end.
Proof.
  destruct (Z.ltb_spec n (-9)); [|destruct (Z.leb_spec 9 n)].
  - unfold getitem. destruct (Z.ltb_spec n 0); [|lia].
    destruct (Z.ltb_spec (n + Z.of_nat (length order_columns)) 0); [lia|].
    simpl in H1. lia.
  - unfold getitem at 1. destruct (Z.ltb_spec n 0); [lia|].
    destruct (Z.ltb_spec n 0); [lia|].
    destruct (nth_error order_columns (Z.to_nat n)) eqn:E; [|lia].
    assert (Hs : nth_error order_columns (Z.to_nat n) <> None) by congruence.
    apply nth_error_Some in Hs. simpl in Hs. lia.
  - assert (Hn : In n [-9;-8;-7;-6;-5;-4;-3;-2;-1;0;1;2;3;4;5;6;7;8]%Z).
    { simpl. lia. }
    simpl in Hn.
    repeat (destruct Hn as [<-|Hn];
            [vm_compute; repeat split; try discriminate; tauto|]).
    contradiction.
Qed.

Section OrderFacts.
Local Open Scope string_scope.

(** X4.  After a call of [set_order_by] that went through, the library is
    ordered by the column of that index, and the same call once more
    keeps the column and turns the direction over; a third call gives the
    state after the first again. *)
Theorem set_order_by_again_flips (n : Z) (lib l1 : Library) :
  set_order_by n lib = inr l1 ->
  getitem order_columns n = inr (order_by l1)
  /\ exists l2, set_order_by n l1 = inr l2
       /\ order_by l2 = order_by l1
       /\ order_dir l1 <> order_dir l2
       /\ set_order_by n l2 = inr l1.
Proof.
  unfold set_order_by.
  destruct (getitem order_columns n) as [e|col]; [discriminate|].
  destruct (String.eqb_spec (order_by lib) col) as [Hc|Hc]; cbn [andb].
  - destruct (String.eqb_spec (order_dir lib) "ASC") as [Hd|Hd];
      intros H; injection H as <-; cbn [order_by order_dir].
    + rewrite Hc. split; [reflexivity|]. rewrite String.eqb_refl. cbn.
      eexists. split; [reflexivity|]. cbn. rewrite String.eqb_refl. cbn.
      repeat split. discriminate.
    + split; [reflexivity|]. rewrite String.eqb_refl. cbn.
      eexists. split; [reflexivity|]. cbn. rewrite String.eqb_refl. cbn.
      repeat split. discriminate.
  - intros H; injection H as <-; cbn [order_by order_dir].
    split; [reflexivity|]. rewrite String.eqb_refl. cbn.
    eexists. split; [reflexivity|]. cbn. rewrite String.eqb_refl. cbn.
    repeat split. discriminate.
Qed.

Lemma set_order_by_again_flips_witness :
  getitem order_columns 2 = inr (order_by (mkLibrary "Package" "ASC"))
  /\ exists l2, set_order_by 2 (mkLibrary "Package" "ASC") = inr l2
       /\ order_by l2 = order_by (mkLibrary "Package" "ASC")
       /\ order_dir (mkLibrary "Package" "ASC") <> order_dir l2
       /\ set_order_by 2 l2 = inr (mkLibrary "Package" "ASC").
Proof.
  apply (set_order_by_again_flips 2 Library_init). reflexivity.
Defined.

(** X5.  [set_order_by] accepts the indices from -9 to 8, a negative one
    counting from the end (so [n] and [n + 9] name the same column and
    give the same library), and raises [IndexError] for every other
    index. *)
Theorem set_order_by_index (n : Z) (lib : Library) :
  if Z.leb (-9) n && Z.ltb n 9 then
    exists l', set_order_by n lib = inr l'
               /\ set_order_by (if Z.ltb n 0 then n + 9 else n - 9) lib
                  = inr l'
  else set_order_by n lib = inl list_index_out_of_range.
Proof.
  unfold set_order_by. pose proof (getitem_order_columns n) as H.
  destruct (getitem order_columns n) as [[]|col].
  - destruct (Z.leb_spec (-9) n), (Z.ltb_spec n 9); cbn; try reflexivity; lia.
  - destruct H as (Hr & _ & ->).
    destruct (Z.leb_spec (-9) n), (Z.ltb_spec n 9); cbn; try lia.
    destruct (_ && _); eexists; split; reflexivity.
Qed.

Lemma set_order_by_keeps_columns (n : Z) (lib l' : Library) :
  set_order_by n lib = inr l' ->
  In (order_by lib) order_columns ->
  In (order_by l') order_columns
  /\ (order_dir l' = "ASC" \/ order_dir l' = "DESC").
Proof.
  unfold set_order_by. pose proof (getitem_order_columns n) as H.
  destruct (getitem order_columns n) as [e|col]; [discriminate|].
  destruct H as (_ & Hin & _).
  destruct (_ && _); intros E Hl; injection E as <-; cbn; auto.
Qed.

(** X6.  Whatever calls of [set_order_by] were made on a new library,
    with whatever indices, the column [search] orders by is one of the
    columns it selects, which is also a column of the file [gencsv]
    writes, and the direction is ASC or DESC. *)
Theorem order_stays_among_search_columns (ns : list Z) :
  let lib := set_orders ns Library_init in
  In (order_by lib) search_columns
  /\ In (order_by lib) Gencsv.header
  /\ (order_dir lib = "ASC" \/ order_dir lib = "DESC").
Proof.
  cbv zeta.
  assert (H : In (order_by (set_orders ns Library_init)) order_columns
              /\ (order_dir (set_orders ns Library_init) = "ASC"
                  \/ order_dir (set_orders ns Library_init) = "DESC")).
  { assert (H0 : In (order_by Library_init) order_columns
                 /\ (order_dir Library_init = "ASC"
                     \/ order_dir Library_init = "DESC")).
    { split; [now left | now left]. }
    revert H0. generalize Library_init as lib.
    unfold set_orders.
    induction ns as [|n ns IH]; intros lib H0; [exact H0|].
    cbn [fold_left]. apply IH.
    destruct (set_order_by n lib) as [e|l'] eqn:E; [exact H0|].
    apply (set_order_by_keeps_columns n lib l' E). apply H0. }
  destruct H as [Hin Hd]. split; [exact Hin|]. split; [|exact Hd].
  revert Hin. generalize (order_by (set_orders ns Library_init)) as col.
  intros col Hin. simpl in Hin. simpl.
  repeat (destruct Hin as [<-|Hin]; [tauto|]). contradiction.
Qed.

End OrderFacts.

(** ** Keywords without quoting *)

Lemma truthy_push (s : string) (c : ascii) : truthy (push s c) = true.
Proof. destruct s; reflexivity. Qed.

(** The lexer between two words and inside a word, on a text without
    quoting. *)
Lemma shlex_loop_unquoted (s : string) :
  unquoted s = true ->
  shlex_loop {| lstate := LexSpace; token := EmptyString; quoted := false |} s
  = inr (words_from EmptyString s)
  /\ forall cur,
       truthy cur = true ->
       shlex_loop {| lstate := LexWord; token := cur; quoted := false |} s
       = inr (words_from cur s).
Proof.
  induction s as [|c s IH]; intros Hu.
  - split; [reflexivity|]. intros cur Hc.
    cbn [shlex_loop lstate words_from]. unfold token_result.
    cbn [quoted token negb andb]. rewrite Hc. reflexivity.
  - cbn [unquoted] in Hu. apply andb_prop in Hu. destruct Hu as [Hu Hs].
    apply andb_prop in Hu. destruct Hu as [Hq He].
    apply negb_true_iff in Hq, He.
    destruct (IH Hs) as [IHs IHw]. split.
    + cbn [shlex_loop read_char lstate token quoted truthy orb words_from].
      destruct (is_whitespace c); [exact IHs|].
      rewrite He, Hq. apply (IHw (String c EmptyString)). reflexivity.
    + intros cur Hc.
      cbn [shlex_loop read_char lstate token quoted words_from].
      rewrite Hc. cbn [orb].
      destruct (is_whitespace c).
      * unfold token_result. cbn [quoted token negb andb lstate].
        rewrite Hc. cbn [negb andb]. now rewrite IHs.
      * rewrite Hq, He. apply IHw. apply truthy_push.
Qed.

(** X7.  A keyword text without quote characters and backslashes is
    split at its whitespace: the keywords are its words, the split does
    not fail, [search] posts nothing, and the statement it runs (none if
    there is no clause) has one clause for every word, followed by the
    clauses of the filters. *)
Theorem search_splits_unquoted_keywords_at_whitespace {E : SqlEngine}
    (lib : Library) (p : Parameters) (db : DB) :
  unquoted (keyword p) = true ->
  shlex_split (keyword p) = inr (split_words (keyword p))
  /\ posted (search lib p db) = []
  /\ executed (search lib p db)
     = match query_chunks (split_words (keyword p)) p with
       | [] => []
       | chunks => [(search_query lib chunks, [])]
       end.
Proof.
  intros Hu. destruct (shlex_loop_unquoted _ Hu) as [Hs _].
  unfold search, shlex_split. rewrite Hs. fold (split_words (keyword p)).
  split; [reflexivity|].
  destruct (query_chunks (split_words (keyword p)) p); split; reflexivity.
Qed.

Lemma search_splits_unquoted_keywords_at_whitespace_witness :
  shlex_split " 10k  0603 1% "
  = inr ["10k"; "0603"; "1%"]%string
  /\ posted (@search PlainEngine (mkLibrary "LCSC Part" "ASC")
               (mkParameters " 10k  0603 1% " EmptyString EmptyString
                  EmptyString EmptyString EmptyString false false false)
               fresh_db) = []
  /\ executed (@search PlainEngine (mkLibrary "LCSC Part" "ASC")
                 (mkParameters " 10k  0603 1% " EmptyString EmptyString
                    EmptyString EmptyString EmptyString false false false)
                 fresh_db)
     = [(search_query (mkLibrary "LCSC Part" "ASC")
           (map keyword_chunk ["10k"; "0603"; "1%"]%string), [])].
Proof.
  apply (@search_splits_unquoted_keywords_at_whitespace PlainEngine
           (mkLibrary "LCSC Part" "ASC")
           (mkParameters " 10k  0603 1% " EmptyString EmptyString
              EmptyString EmptyString EmptyString false false false)
           fresh_db).
  reflexivity.
Defined.

(** ** Corrections: writing and reading back *)

Section CorrectionFacts.
Context {E : SqlEngine}.

Lemma hd_error_map_filter_app (f : string * string -> bool)
      (a b : list (string * string)) :
  hd_error (map correction_row (filter f (a ++ b)))
  = match hd_error (map correction_row (filter f a)) with
    | Some row => Some row
    | None => hd_error (map correction_row (filter f b))
    end.
Proof.
  rewrite filter_app, map_app.
  destruct (map correction_row (filter f a)); reflexivity.
Qed.

(** X8.  After [insert_correction_data regex rot], on a store with the
    rotation table and for regexes with no apostrophe and no NUL
    character, [get_correction_data regex] returns the row that was there for the
    regex before, if there was one (the insert adds a row, it does not
    replace), and the new pair otherwise; for every other regex it
    returns what it returned before. *)
Theorem insert_then_get (regex rot other : string) (db : DB)
    (rs : list (string * string)) :
  rotation db = Some rs ->
  plain regex = true -> plain other = true -> other <> regex ->
  let db' := snd (insert_correction_data regex rot db) in
  get_correction_data regex db'
  = match get_correction_data regex db with
    | Return (Some row) => Return (Some row)
    | _ => Return (Some [regex; rot])
    end
  /\ get_correction_data other db' = get_correction_data other db.
Proof.
  intros Hr Hp Hq Hne. cbv zeta.
  unfold insert_correction_data, get_correction_data.
  rewrite Hr, Hp, Hq. cbn [snd rotation].
  rewrite !hd_error_map_filter_app. cbn [filter fst].
  rewrite String.eqb_refl.
  destruct (String.eqb_spec regex other) as [He|_]; [congruence|].
  split.
  - destruct (hd_error _); reflexivity.
  - destruct (hd_error _); reflexivity.
Qed.

Lemma filter_update_same (regex rot : string) (rs : list (string * string)) :
  map correction_row
    (filter (fun r => String.eqb (fst r) regex)
       (map (fun r => if String.eqb (fst r) regex then (fst r, rot) else r)
            rs))
  = map (fun _ => [regex; rot])
      (filter (fun r => String.eqb (fst r) regex) rs).
Proof.
  induction rs as [|[r c] rs IH]; [reflexivity|]. cbn [map filter fst].
  destruct (String.eqb_spec r regex) as [->|Hn]; cbn [fst].
  - rewrite String.eqb_refl. cbn. now rewrite IH.
  - destruct (String.eqb_spec r regex); [contradiction|]. exact IH.
Qed.

Lemma filter_update_other (regex rot other : string)
      (rs : list (string * string)) :
  other <> regex ->
  filter (fun r => String.eqb (fst r) other)
    (map (fun r => if String.eqb (fst r) regex then (fst r, rot) else r) rs)
  = filter (fun r => String.eqb (fst r) other) rs.
Proof.
  intros Hne. induction rs as [|[r c] rs IH]; [reflexivity|].
  cbn [map filter fst].
  destruct (String.eqb_spec r regex) as [->|Hn]; cbn [fst].
  - destruct (String.eqb_spec regex other); [congruence|]. exact IH.
  - destruct (String.eqb r other); [now rewrite IH | exact IH].
Qed.

(** X9.  After [update_correction_data regex rot], on a store with the
    rotation table and for values with no apostrophe and no NUL
    character, [get_correction_data regex] returns the regex with the
    new correction when the regex was stored, and still nothing when it
    was not (the update adds no row: the stored regexes are the same);
    for every other regex it returns what it returned before. *)
Theorem update_then_get (regex rot other : string) (db : DB)
    (rs : list (string * string)) :
  rotation db = Some rs ->
  plain regex = true -> plain rot = true ->
  plain other = true -> other <> regex ->
  let db' := snd (update_correction_data regex rot db) in
  get_correction_data regex db'
  = match get_correction_data regex db with
    | Return (Some _) => Return (Some [regex; rot])
    | o => o
    end
  /\ get_correction_data other db' = get_correction_data other db
  /\ stored_regexes db' = stored_regexes db.
Proof.
  intros Hr Hp Hpr Hq Hne. cbv zeta.
  unfold update_correction_data, get_correction_data, stored_regexes.
  rewrite Hr, Hp, Hpr, Hq. cbn [andb snd rotation].
  rewrite filter_update_same, (filter_update_other _ _ _ _ Hne).
  repeat split.
  - destruct (filter _ rs); reflexivity.
  - rewrite map_map. apply map_ext. intros [r c]. cbn.
    destruct (String.eqb r regex); reflexivity.
Qed.

Lemma filter_delete_same (regex : string) (rs : list (string * string)) :
  filter (fun r => String.eqb (fst r) regex)
    (filter (fun r => negb (String.eqb (fst r) regex)) rs) = [].
Proof.
  induction rs as [|[r c] rs IH]; [reflexivity|]. cbn [filter fst].
  destruct (String.eqb r regex) eqn:Er; cbn [negb]; [exact IH|].
  cbn [filter fst]. now rewrite Er.
Qed.

Lemma filter_delete_other (regex other : string)
      (rs : list (string * string)) :
  other <> regex ->
  filter (fun r => String.eqb (fst r) other)
    (filter (fun r => negb (String.eqb (fst r) regex)) rs)
  = filter (fun r => String.eqb (fst r) other) rs.
Proof.
  intros Hne. induction rs as [|[r c] rs IH]; [reflexivity|].
  cbn [filter fst].
  destruct (String.eqb_spec r regex) as [->|Hn]; cbn [negb].
  - destruct (String.eqb_spec regex other); [congruence|]. exact IH.
  - cbn [filter fst].
    destruct (String.eqb r other); [now rewrite IH | exact IH].
Qed.

(** X10.  After [delete_correction_data regex], on a store with the
    rotation table and for regexes with no apostrophe and no NUL
    character, [get_correction_data regex] returns nothing, however many
    rows the regex had, and for every other regex it returns what it
    returned before. *)
Theorem delete_then_get (regex other : string) (db : DB)
    (rs : list (string * string)) :
  rotation db = Some rs ->
  plain regex = true -> plain other = true -> other <> regex ->
  let db' := snd (delete_correction_data regex db) in
  get_correction_data regex db' = Return None
  /\ get_correction_data other db' = get_correction_data other db.
Proof.
  intros Hr Hp Hq Hne. cbv zeta.
  unfold delete_correction_data, get_correction_data.
  rewrite Hr, Hp, Hq. cbn [snd rotation].
  rewrite filter_delete_same, (filter_delete_other _ _ _ Hne).
  split; reflexivity.
Qed.

End CorrectionFacts.

Lemma insert_then_get_witness :
  @get_correction_data PlainEngine "C.*"
    (snd (@insert_correction_data "C.*" "270" sample_store))
  = Return (Some ["C.*"; "0"]%string)
  /\ @get_correction_data PlainEngine "R.*"
       (snd (@insert_correction_data "C.*" "270" sample_store))
     = @get_correction_data PlainEngine "R.*" sample_store.
Proof.
  apply (@insert_then_get PlainEngine "C.*" "270" "R.*" sample_store
           sample_corrections); try reflexivity.
  discriminate.
Defined.

Lemma update_then_get_witness :
  @get_correction_data PlainEngine "C.*"
    (snd (@update_correction_data PlainEngine "C.*" "270" sample_store))
  = Return (Some ["C.*"; "270"]%string)
  /\ @get_correction_data PlainEngine "R.*"
       (snd (@update_correction_data PlainEngine "C.*" "270" sample_store))
     = @get_correction_data PlainEngine "R.*" sample_store
  /\ stored_regexes
       (snd (@update_correction_data PlainEngine "C.*" "270" sample_store))
     = stored_regexes sample_store.
Proof.
  apply (@update_then_get PlainEngine "C.*" "270" "R.*" sample_store
           sample_corrections); try reflexivity.
  discriminate.
Defined.

Lemma delete_then_get_witness :
  @get_correction_data PlainEngine "C.*"
    (snd (@delete_correction_data PlainEngine "C.*" sample_store))
  = Return None
  /\ @get_correction_data PlainEngine "R.*"
       (snd (@delete_correction_data PlainEngine "C.*" sample_store))
     = @get_correction_data PlainEngine "R.*" sample_store.
Proof.
  apply (@delete_then_get PlainEngine "C.*" "R.*" sample_store
           sample_corrections); try reflexivity.
  discriminate.
Defined.

(** ** The listing of the corrections *)

Lemma insert_row_perm (r : string * string) (l : list (string * string)) :
  Permutation (r :: l) (insert_row r l).
Proof.
  induction l as [|x l IH]; simpl; [reflexivity|].
  destruct (String.leb (fst r) (fst x)); [reflexivity|].
  rewrite perm_swap. now constructor.
Qed.

Lemma insert_row_sorted (r : string * string) (l : list (string * string)) :
  Sorted regex_le l -> Sorted regex_le (insert_row r l).
Proof.
  induction l as [|x l IH]; intros H; simpl.
  - repeat constructor.
  - destruct (String.leb (fst r) (fst x)) eqn:E.
    + constructor; [exact H|]. now constructor.
    + inversion H as [|? ? Hs Hh]; subst. constructor; [now apply IH|].
      assert (Hx : regex_le x r).
      { unfold regex_le.
        destruct (String.leb_total (fst r) (fst x)); congruence. }
      destruct l as [|y l]; simpl.
      * now constructor.
      * inversion Hh; subst.
        destruct (String.leb (fst r) (fst y)); now constructor.
Qed.

#[export] Instance InsertionOrder : OrderBy.
Proof.
  refine {| order_by_regex := insertion_sort |}.
  - induction rs as [|r rs IH]; simpl; [reflexivity|].
    rewrite <- insert_row_perm. now constructor.
  - induction rs as [|r rs IH]; simpl; [constructor|].
    now apply insert_row_sorted.
Defined.

Lemma leb_neq_ltb (a b : string) :
  String.leb a b = true -> a <> b -> String.ltb a b = true.
Proof.
  unfold String.leb, String.ltb. intros H Hn.
  destruct (String.compare a b) eqn:C; try reflexivity; try discriminate.
  apply String.compare_eq_iff in C. contradiction.
Qed.

Lemma sorted_rows_strict (s : list (string * string)) :
  Sorted regex_le s -> NoDup (map fst s) ->
  Sorted row_lt (map correction_row s).
Proof.
  induction 1 as [|x s Hs IH Hh]; intros Hn; cbn [map]; constructor.
  - apply IH. now inversion Hn.
  - destruct Hh as [|y s Hxy]; cbn [map]; constructor.
    unfold row_lt. cbn. apply leb_neq_ltb; [exact Hxy|].
    inversion Hn as [|? ? Hnotin _]; subst.
    intros Heq. apply Hnotin. left. now symmetry.
Qed.

(** X11.  On a store in which no regex is stored twice,
    [get_all_correction_data] returns exactly the stored corrections,
    each regex with its correction, in strictly ascending order of the
    regexes (compared byte by byte). *)
Theorem listing_is_ascending {O : OrderBy} (db : DB)
    (rs : list (string * string)) :
  rotation db = Some rs ->
  unique_regex db ->
  exists l, get_all_correction_data db = Return l
    /\ (forall r c, In [r; c] l <-> In (r, c) rs)
    /\ Sorted row_lt l.
Proof.
  intros Hr Hu. unfold get_all_correction_data. rewrite Hr.
  eexists. split; [reflexivity|].
  pose proof (order_by_regex_perm rs) as Hp. split.
  - intros r c. rewrite in_map_iff. split.
    + intros [[r' c'] [Heq Hin]]. injection Heq as -> ->.
      apply Permutation_sym in Hp. exact (Permutation_in _ Hp Hin).
    + intros Hin. exists (r, c). split; [reflexivity|].
      exact (Permutation_in _ Hp Hin).
  - apply sorted_rows_strict; [apply order_by_regex_sorted|].
    unfold unique_regex, stored_regexes in Hu. rewrite Hr in Hu.
    eapply Permutation_NoDup; [|exact Hu]. now apply Permutation_map.
Qed.

Lemma listing_is_ascending_witness :
  exists l,
    @get_all_correction_data InsertionOrder sample_store = Return l
    /\ (forall r c, In [r; c] l <-> In (r, c) sample_corrections)
    /\ Sorted row_lt l.
Proof.
  apply (@listing_is_ascending InsertionOrder sample_store
           sample_corrections).
  - reflexivity.
  - unfold unique_regex. cbn. repeat constructor; cbn; intuition discriminate.
Defined.

(** ** The import: what is committed *)

Ltac nat_divmod m :=
  pose proof (Nat.div_mod_eq m 1000);
  pose proof (Nat.mod_upper_bound m 1000 ltac:(discriminate)).

Ltac N_divmod m :=
  let q := fresh "q" in
  let r := fresh "r" in
  pose proof (N.div_mod' m 1000);
  pose proof (N.mod_upper_bound m 1000 ltac:(discriminate));
  set (q := (m / 1000)%N) in *; set (r := (m mod 1000)%N) in *;
  clearbody q r.

Lemma div_1000_step (m : nat) : (1000 + m) / 1000 = S (m / 1000).
Proof. nat_divmod m. nat_divmod (1000 + m). lia. Qed.

Lemma group_sizes_ge (m : nat) :
  group_sizes (1000 + m) = 1000 :: group_sizes m.
Proof.
  unfold group_sizes.
  assert (Hr : (1000 + m) mod 1000 = m mod 1000).
  { nat_divmod m. nat_divmod (1000 + m). lia. }
  rewrite div_1000_step, Hr. reflexivity.
Qed.

Lemma group_sizes_lt (m : nat) :
  m < 1000 -> group_sizes m = if Nat.eqb m 0 then [] else [m].
Proof.
  intros H. unfold group_sizes.
  rewrite Nat.div_small, Nat.mod_small by exact H. reflexivity.
Qed.

Section LoadFacts.
Variable Src : Type.
Variable nxt : Src -> res (list string) * Src.
Variable tell : Src -> Z.
Variable ncols : nat.
Variable size : Z.
Variable table : option Table.

Lemma bind_rows_Return (buf pend pend' : list (list string)) (u : unit) :
  bind_rows ncols buf pend = (Return u, pend') -> pend' = pend ++ buf.
Proof.
  revert pend. induction buf as [|row buf IH]; intros pend; simpl.
  - intros H. injection H as _ <-. now rewrite app_nil_r.
  - destruct (Nat.eqb (length row) ncols); [|discriminate].
    intros H. apply IH in H. now rewrite <- app_assoc in H.
Qed.

Lemma executemany_Return (buf pend pend' : list (list string)) (u : unit) :
  executemany ncols table buf pend = (Return u, pend') -> pend' = pend ++ buf.
Proof.
  unfold executemany. destruct (prepare_insert ncols table); [|discriminate].
  apply bind_rows_Return.
Qed.

(** When the loop ends well, the rows of the open transaction are those
    of the batches, in order. *)
Lemma load_loop_committed (fuel : nat) :
  forall (count : N) (st st' : Load Src) (u : unit),
  load_loop nxt tell ncols size table fuel count st = (Return u, st') ->
  pending st = concat (batches st) ->
  pending st' = concat (batches st').
Proof.
  induction fuel as [|fuel IH]; intros count st st' u; cbn [load_loop];
    [discriminate|].
  destruct (nxt (source st)) as [[row | e |] s1]; try discriminate.
  - destruct (N.eqb (N.modulo count 1000) 0).
    + destruct (Z.eqb size 0); [discriminate|].
      destruct (executemany ncols table (buffer st ++ [row]) (pending st))
        as [[u1 | e |] pend] eqn:Ex; try discriminate.
      intros H Hp. apply (IH _ _ _ _ H). cbn [pending batches].
      apply executemany_Return in Ex. rewrite Ex, Hp, concat_app. cbn.
      now rewrite app_nil_r.
    + intros H Hp. exact (IH _ _ _ _ H Hp).
  - destruct e; try discriminate.
    intros H Hp. injection H as _ <-. exact Hp.
Qed.

Lemma load_rows_committed (fuel : nat) (s : Src) (t : option Table)
      (st : Load Src) :
  load_rows nxt tell ncols size table fuel s = (Return t, st) ->
  t = commit table (concat (batches st)).
Proof.
  unfold load_rows.
  destruct (load_loop nxt tell ncols size table fuel 0 _)
    as [[u | e |] st1] eqn:El; try discriminate.
  apply load_loop_committed in El; [|reflexivity].
  destruct (buffer st1) as [|row buf].
  - intros H. injection H as <- <-. now rewrite El.
  - destruct (executemany ncols table (row :: buf) (pending st1))
      as [[u1 | e |] pend] eqn:Ex; try discriminate.
    intros H. injection H as <- <-. cbn [batches].
    apply executemany_Return in Ex. rewrite Ex, El, concat_app. cbn.
    now rewrite app_nil_r.
Qed.

End LoadFacts.

Section ImportFacts.
Context {D : Decompressor} {E : SqlEngine}.

(** X12.  The import is all or nothing, and the old rows are gone either
    way.  For a declared size that the debug line can format (under
    [2^1034 - 2^980] in absolute value): once the header line is read and
    SQLite has taken its column names, which have no apostrophe and no
    NUL, the [parts] table after [download] has the header's columns and
    either every row handed to [executemany], in order (the load was
    committed), or no row at all, and then [download] ended with an
    exception: a load that fails on the way leaves no part of it, and
    what the table held before the download is not brought back. *)
Theorem import_is_all_or_nothing
    (resp : Response) (store : list Footprint) (elapsed : string) (db : DB)
    (size : Z) (headers : list string) (l1 : LZMAIterReader) :
  status_code resp = 200%Z ->
  content_length resp = Length size ->
  true_div_overflows size = false ->
  csv_next (init (body resp)) = (Return headers, l1) ->
  forallb plain headers = true ->
  accepts_columns headers = true ->
  let run := download resp store elapsed db in
  parts (db_after run)
  = Some {| columns := headers; rows := concat (inserted run) |}
  \/ (parts (db_after run) = Some {| columns := headers; rows := [] |}
      /\ exists e, outcome run = Raise e).
Proof.
  intros Hs Hc Hov Hh Hp Ha. cbv zeta.
  pose proof (download_total resp store elapsed db) as Ht. revert Ht.
  unfold download. rewrite Hs, Hc, Hov, Hh. cbn [Z.eqb Pos.eqb negb].
  unfold delete_parts_table. cbn [snd].
  unfold create_parts_table. rewrite Hp. cbn [parts]. rewrite Ha.
  cbn [parts rotation].
  rewrite create_rotation_table_parts. cbn [parts].
  destruct (load_rows _ _ _ _ _ _ _) as [[t | e |] st] eqn:El.
  - intros _. left. apply load_rows_committed in El. subst t.
    destruct (update_stock store _) as [[[u | e |] sp] calls]; reflexivity.
  - intros _. right. cbn. rewrite create_rotation_table_parts. cbn.
    split; [reflexivity|]. now exists e.
  - cbn. congruence.
Qed.

(** X13.  For a declared size that the debug line can format (under
    [2^1034 - 2^980] in absolute value) and a header whose column names
    have no apostrophe and no NUL: when SQLite rejects the column names
    (a name that occurs twice, say), [download] raises [OperationalError]
    with the old [parts] table already dropped: the store has no [parts]
    table afterwards, the rotation table is as it was, and nothing was
    inserted. *)
Theorem rejected_header_leaves_no_parts_table
    (resp : Response) (store : list Footprint) (elapsed : string) (db : DB)
    (size : Z) (headers : list string) (l1 : LZMAIterReader) :
  status_code resp = 200%Z ->
  content_length resp = Length size ->
  true_div_overflows size = false ->
  csv_next (init (body resp)) = (Return headers, l1) ->
  forallb plain headers = true ->
  accepts_columns headers = false ->
  let run := download resp store elapsed db in
  outcome run = Raise OperationalError
  /\ parts (db_after run) = None
  /\ rotation (db_after run) = rotation db
  /\ inserted run = [].
Proof.
  intros Hs Hc Hov Hh Hp Ha. cbv zeta.
  unfold download. rewrite Hs, Hc, Hov, Hh. cbn [Z.eqb Pos.eqb negb].
  unfold delete_parts_table. cbn [snd].
  unfold create_parts_table. rewrite Hp. cbn [parts]. rewrite Ha.
  cbn. repeat split.
Qed.

End ImportFacts.

Lemma import_is_all_or_nothing_witness :
  let run := @download StoredXZ PlainEngine
               {| status_code := 200; content_length := Length 21;
                  body := [short_row_file] |} [] "1" sample_store in
  parts (db_after run)
  = Some {| columns := ["a"; "b"]%string; rows := concat (inserted run) |}
  \/ (parts (db_after run)
      = Some {| columns := ["a"; "b"]%string; rows := [] |}
      /\ exists e, outcome run = Raise e).
Proof.
  eapply (@import_is_all_or_nothing StoredXZ PlainEngine
            {| status_code := 200; content_length := Length 21;
               body := [short_row_file] |} [] "1" sample_store 21);
    reflexivity.
Defined.

Lemma rejected_header_leaves_no_parts_table_witness :
  let run := @download StoredXZ PlainEngine
               {| status_code := 200; content_length := Length 16;
                  body := [twice_a_file] |} [] "1" sample_store in
  outcome run = Raise OperationalError
  /\ parts (db_after run) = None
  /\ rotation (db_after run) = rotation sample_store
  /\ inserted run = [].
Proof.
  eapply (@rejected_header_leaves_no_parts_table StoredXZ PlainEngine
            {| status_code := 200; content_length := Length 16;
               body := [twice_a_file] |} [] "1" sample_store 16);
    reflexivity.
Defined.

(** ** The import: the batches *)

Section ListLoad.
Variable tell : list (list string) -> Z.
Variable ncols : nat.
Variable size : Z.
Variable tb : Table.
Hypothesis size_nonzero : size <> 0%Z.
Hypothesis prepared : prepare_insert ncols (Some tb) = true.

Let arity (row : list string) : Prop := length row = ncols.
Let bad (row : list string) : Prop := length row <> ncols.
Let run_loop := load_loop (@list_next (list string)) tell ncols size (Some tb).

(** After the first row the loop flushes every 1000 rows. *)
Lemma load_loop_sizes (l : list (list string)) :
  forall (fuel : nat) (count : N) (st : Load (list (list string))),
  source st = l ->
  Forall arity l -> Forall arity (buffer st) ->
  (1 <= count)%N ->
  N.of_nat (length (buffer st)) = ((count - 1) mod 1000)%N ->
  length l < fuel ->
  exists st',
    run_loop fuel count st = (Return tt, st')
    /\ Forall arity (buffer st')
    /\ map (@length _) (batches st')
       ++ group_sizes (length (buffer st'))
       = map (@length _) (batches st)
         ++ group_sizes (length (buffer st) + length l)
    /\ length (buffer st') < 1000
    /\ length (load_posted st')
       = length (load_posted st) + (length (buffer st) + length l) / 1000.
Proof.
  unfold run_loop.
  induction l as [|row l IH]; intros fuel count st Hs Hl Hb Hc Hn Hf;
    (destruct fuel as [|fuel]; [simpl in Hf; lia|]); cbn [load_loop];
    rewrite Hs; cbn [list_next].
  - eexists. split; [reflexivity|]. cbn [buffer batches load_posted length].
    rewrite Nat.add_0_r.
    assert (Hlt : length (buffer st) < 1000).
    { N_divmod (count - 1)%N. lia. }
    repeat split; auto. rewrite Nat.div_small by exact Hlt. lia.
  - inversion Hl as [|? ? Hrow Hrest]; subst.
    assert (Hbuf : Forall arity (buffer st ++ [row])).
    { apply Forall_app. split; [exact Hb | now constructor]. }
    destruct (N.eqb_spec (N.modulo count 1000) 0) as [Hm|Hm].
    + destruct (Z.eqb_spec size 0) as [Hz|_]; [contradiction|].
      rewrite (executemany_all _ _ _ _ prepared Hbuf).
      assert (H999 : length (buffer st) = 999).
      { N_divmod count. N_divmod (count - 1)%N. lia. }
      edestruct (IH fuel (N.succ count)) as (st' & E & H1 & H2 & H3 & H4);
        [| | | | | | exists st'; split; [exact E|]].
      * reflexivity.
      * exact Hrest.
      * constructor.
      * lia.
      * cbn [buffer length]. N_divmod count. N_divmod (N.succ count - 1)%N.
        lia.
      * simpl in Hf. lia.
      * cbn [buffer batches load_posted length] in H2, H4.
        split; [exact H1|]. split; [|split; [exact H3|]].
        -- rewrite H2, map_app, <- app_assoc. f_equal. cbn [map app].
           rewrite length_app, H999. cbn [length].
           replace (999 + S (length l)) with (1000 + length l) by lia.
           rewrite group_sizes_ge. reflexivity.
        -- rewrite H4, length_app, H999. cbn [length].
           replace (999 + S (length l)) with (1000 + length l) by lia.
           rewrite div_1000_step, Nat.add_0_l. lia.
    + edestruct (IH fuel (N.succ count)) as (st' & E & H1 & H2 & H3 & H4);
        [| | | | | | exists st'; split; [exact E|]].
      * reflexivity.
      * exact Hrest.
      * exact Hbuf.
      * lia.
      * cbn [buffer]. rewrite length_app. cbn [length].
        N_divmod count. N_divmod (count - 1)%N.
        N_divmod (N.succ count - 1)%N. lia.
      * simpl in Hf. lia.
      * cbn [buffer batches load_posted] in H2, H4.
        rewrite length_app in H2, H4. cbn [length] in H2, H4.
        replace (length (buffer st) + 1 + length l)
          with (length (buffer st) + S (length l)) in H2, H4 by lia.
        repeat split; auto.
Qed.

(** X14.  Over rows that all have as many values as the table has
    columns, the bulk load hands every row to [executemany] once, in
    order, the first row in a batch of its own and the rows after it in
    batches of 1000 (the last batch takes what is left), and it updates
    the gauge once for every 1000 rows begun. *)
Theorem load_groups_rows_by_1000_after_the_first
    (rs : list (list string)) :
  Forall (fun row => length row = ncols) rs ->
  let st := snd (load_rows (@list_next _) tell ncols size (Some tb)
                   (S (length rs)) rs) in
  concat (batches st) = rs
  /\ map (@length _) (batches st)
     = match rs with
       | [] => []
       | _ :: rest => 1 :: group_sizes (length rest)
       end
  /\ length (load_posted st) = (length rs + 999) / 1000.
Proof.
  intros Hr. cbv zeta.
  destruct (load_rows_list tell ncols size rs tb size_nonzero prepared Hr)
    as (st0 & E0 & Hc0).
  revert E0. unfold load_rows.
  destruct rs as [|row rest].
  - cbn. intros _. repeat split.
  - cbn [length]. remember (S (length rest)) as fuel eqn:Hfuel.
    cbn [load_loop list_next source]. subst fuel.
    change (N.eqb (N.modulo 0 1000) 0) with true. cbv iota.
    destruct (Z.eqb_spec size 0) as [Hz|_]; [contradiction|].
    pose proof (Forall_inv Hr) as Hrow. cbv beta in Hrow.
    pose proof (Forall_inv_tail Hr) as Hrest.
    rewrite (executemany_all _ _ _ _ prepared
               (Forall_cons _ Hrow (Forall_nil _)
                : Forall arity ([] ++ [row]))).
    cbn [app buffer pending load_posted batches].
    destruct (load_loop_sizes rest (S (length rest)) (N.succ 0)
                {| source := rest; buffer := []; pending := [row];
                   load_posted := [UpdateGaugeEvent (tell rest) size];
                   batches := [[row]] |}
                eq_refl Hrest (Forall_nil _) ltac:(lia) eq_refl ltac:(lia))
      as (st' & E & H1 & H2 & H3 & H4).
    unfold run_loop in E. rewrite E.
    cbn [buffer batches load_posted length map app] in H2, H4.
    rewrite Nat.add_0_l in H2, H4.
    assert (Hev : 1 + length rest / 1000 = (S (length rest) + 999) / 1000).
    { replace (S (length rest) + 999) with (1000 + length rest) by lia.
      now rewrite div_1000_step. }
    destruct (buffer st') as [|r0 buf] eqn:Eb.
    + intros E0. injection E0 as _ <-. cbn [snd].
      split; [exact Hc0|].
      rewrite group_sizes_lt in H2 by (simpl; lia).
      cbn in H2. rewrite app_nil_r in H2. split; [exact H2|].
      rewrite H4. exact Hev.
    + rewrite (executemany_all _ _ _ _ prepared H1).
      intros E0. injection E0 as _ <-. cbn [snd batches load_posted].
      cbn [batches] in Hc0. split; [exact Hc0|].
      rewrite map_app. cbn [map].
      rewrite group_sizes_lt in H2 by exact H3. cbn [length Nat.eqb] in H2.
      split; [exact H2|].
      rewrite H4. exact Hev.
Qed.

Lemma bind_rows_bad (buf pend : list (list string)) :
  Exists bad buf ->
  exists pend', bind_rows ncols buf pend = (Raise ProgrammingError, pend').
Proof.
  revert pend. induction buf as [|row buf IH]; intros pend H.
  - inversion H.
  - cbn [bind_rows]. destruct (Nat.eqb_spec (length row) ncols) as [He|Hn].
    + apply IH. inversion H as [? ? Hb|]; [contradiction | assumption].
    + now eexists.
Qed.

Lemma arity_or_bad (l : list (list string)) : Forall arity l \/ Exists bad l.
Proof.
  induction l as [|row l [IH|IH]].
  - left. constructor.
  - destruct (Nat.eq_dec (length row) ncols) as [He|Hn].
    + left. now constructor.
    + right. now constructor.
  - right. now constructor.
Qed.

(** A row of another length, once buffered or still to come, ends the
    loop with [ProgrammingError] or is in the buffer when the loop ends. *)
Lemma load_loop_bad (l : list (list string)) :
  forall (fuel : nat) (count : N) (st : Load (list (list string))),
  source st = l ->
  Exists bad (buffer st ++ l) ->
  length l < fuel ->
  exists st',
    (run_loop fuel count st = (Raise ProgrammingError, st'))
    \/ (run_loop fuel count st = (Return tt, st') /\ Exists bad (buffer st')).
Proof.
  unfold run_loop.
  induction l as [|row l IH]; intros fuel count st Hs Hb Hf;
    (destruct fuel as [|fuel]; [simpl in Hf; lia|]); cbn [load_loop];
    rewrite Hs; cbn [list_next].
  - eexists. right. split; [reflexivity|]. cbn [buffer].
    now rewrite app_nil_r in Hb.
  - assert (Hb' : Exists bad ((buffer st ++ [row]) ++ l)).
    { now rewrite <- app_assoc. }
    destruct (N.eqb (N.modulo count 1000) 0).
    + destruct (Z.eqb_spec size 0) as [Hz|_]; [contradiction|].
      destruct (arity_or_bad (buffer st ++ [row])) as [Hg|Hx].
      * rewrite (executemany_all _ _ _ _ prepared Hg).
        apply IH; [reflexivity | | simpl in Hf; lia]. cbn [buffer app].
        apply Exists_app in Hb'. destruct Hb' as [Hx|Hx]; [|exact Hx].
        exfalso. apply Exists_exists in Hx. destruct Hx as (r & Hin & Hr).
        rewrite Forall_forall in Hg. exact (Hr (Hg r Hin)).
      * unfold executemany. rewrite prepared.
        destruct (bind_rows_bad _ (pending st) Hx) as [pend' ->].
        eexists. left. reflexivity.
    + apply IH; [reflexivity | exact Hb' | simpl in Hf; lia].
Qed.

(** X15.  The bulk load raises [ProgrammingError] exactly when some row
    of the stream has another number of values than the table has
    columns, wherever in the stream that row is; with no such row it
    goes through. *)
Theorem load_raises_iff_a_row_has_another_length
    (rs : list (list string)) :
  fst (load_rows (@list_next _) tell ncols size (Some tb) (S (length rs)) rs)
  = Raise ProgrammingError
  <-> Exists (fun row => length row <> ncols) rs.
Proof.
  split.
  - intros H. destruct (arity_or_bad rs) as [Hg|Hx]; [|exact Hx].
    destruct (load_rows_list tell ncols size rs tb size_nonzero prepared Hg)
      as (st & E & _).
    rewrite E in H. discriminate.
  - intros Hx. unfold load_rows.
    destruct (load_loop_bad rs (S (length rs)) 0
                {| source := rs; buffer := []; pending := [];
                   load_posted := []; batches := [] |}
                eq_refl Hx ltac:(lia)) as [st' [E | [E Hb]]];
      unfold run_loop in E; rewrite E; [reflexivity|].
    destruct (buffer st') as [|row buf] eqn:Eb; [inversion Hb|].
    unfold executemany. rewrite prepared.
    destruct (bind_rows_bad _ (pending st') Hb) as [pend' ->]. reflexivity.
Qed.

End ListLoad.

Lemma load_groups_rows_by_1000_after_the_first_witness :
  let st := snd (load_rows (@list_next _) (fun _ => 0%Z) 5 71446
                   (Some {| columns := header5; rows := [] |})
                   (S (length (numbered_rows 3))) (numbered_rows 3)) in
  concat (batches st) = numbered_rows 3
  /\ map (@length _) (batches st) = 1 :: group_sizes 2
  /\ length (load_posted st) = (3 + 999) / 1000.
Proof.
  apply (load_groups_rows_by_1000_after_the_first (fun _ => 0%Z) 5 71446
           {| columns := header5; rows := [] |}).
  - discriminate.
  - reflexivity.
  - repeat constructor.
Defined.

Lemma load_raises_iff_a_row_has_another_length_witness :
  fst (load_rows (@list_next _) (fun _ => 0%Z) 2 21
         (Some {| columns := ["a"; "b"]%string; rows := [] |})
         3 [["1"; "2"]; ["3"]]%string)
  = Raise ProgrammingError
  <-> Exists (fun row => length row <> 2) [["1"; "2"]; ["3"]]%string.
Proof.
  apply (load_raises_iff_a_row_has_another_length (fun _ => 0%Z) 2 21
           {| columns := ["a"; "b"]%string; rows := [] |}).
  - discriminate.
  - reflexivity.
Defined.

(** ** The stock update *)

Section StockFacts.
Context {E : SqlEngine}.

Lemma update_stock_loop_calls (total : Z) (db : DB) (fps : list Footprint) :
  forall (n : Z) (posted : list Event) (calls : list (string * string))
         (o : res unit) (posted' : list Event)
         (calls' : list (string * string)),
  update_stock_loop n total fps db posted calls = (o, posted', calls') ->
  Forall (fun fp => truthy (lcsc fp) = true) fps ->
  (0 <= n)%Z -> (n + Z.of_nat (length fps) <= total)%Z ->
  exists pnew cnew,
    posted' = posted ++ pnew /\ calls' = calls ++ cnew
    /\ length pnew = length cnew
    /\ Forall (fun ev => exists k, ev = UpdateGaugeEvent k total
                                   /\ (0 <= k < total)%Z) pnew
    /\ (forall ref value, In (ref, value) cnew ->
          exists fp, In fp fps /\ reference fp = ref
                     /\ stock_found db fp value)
    /\ (o = Return tt ->
        forall fp value, In fp fps -> stock_found db fp value ->
                         In (reference fp, value) cnew).
Proof.
  induction fps as [|fp fps IH];
    intros n posted calls o posted' calls' H Ht Hn Hb;
    cbn [update_stock_loop] in H.
  - injection H as <- <- <-. exists [], []. rewrite !app_nil_r.
    repeat split; auto; intros; simpl in *; contradiction.
  - pose proof (Forall_inv Ht) as Hfp.
    pose proof (Forall_inv_tail Ht) as Hrest.
    cbn [length] in Hb.
    destruct (get_stock (lcsc fp) db) as [[[|value row]|] | e |] eqn:G.
    + destruct (IH _ _ _ _ _ _ H Hrest ltac:(lia) ltac:(lia))
        as (pnew & cnew & -> & -> & Hl & Hg & Hs & Hc).
      exists pnew, cnew. repeat split; auto.
      * intros ref v Hin. destruct (Hs ref v Hin) as (fp' & Hin' & Hr & Hf).
        exists fp'. split; [now right|]. split; [exact Hr | exact Hf].
      * intros Ho fp' v [<-|Hin] Hf; [|now apply Hc].
        destruct Hf as (_ & row' & G'). congruence.
    + destruct (IH _ _ _ _ _ _ H Hrest ltac:(lia) ltac:(lia))
        as (pnew & cnew & -> & -> & Hl & Hg & Hs & Hc).
      exists (UpdateGaugeEvent n total :: pnew),
             ((reference fp, value) :: cnew).
      rewrite <- !app_assoc. repeat split; auto.
      * simpl. now rewrite Hl.
      * constructor; [|exact Hg]. exists n. split; [reflexivity | lia].
      * intros ref v [Heq|Hin].
        -- injection Heq as <- <-. exists fp. split; [now left|].
           split; [reflexivity|]. split; [exact Hfp | now exists row].
        -- destruct (Hs ref v Hin) as (fp' & Hin' & Hr & Hf).
           exists fp'. split; [now right|]. split; [exact Hr | exact Hf].
      * intros Ho fp' v [<-|Hin] Hf; [|right; now apply Hc].
        destruct Hf as (_ & row' & G'). left. congruence.
    + destruct (IH _ _ _ _ _ _ H Hrest ltac:(lia) ltac:(lia))
        as (pnew & cnew & -> & -> & Hl & Hg & Hs & Hc).
      exists pnew, cnew. repeat split; auto.
      * intros ref v Hin. destruct (Hs ref v Hin) as (fp' & Hin' & Hr & Hf).
        exists fp'. split; [now right|]. split; [exact Hr | exact Hf].
      * intros Ho fp' v [<-|Hin] Hf; [|now apply Hc].
        destruct Hf as (_ & row' & G'). congruence.
    + injection H as <- <- <-. exists [], []. rewrite !app_nil_r.
      repeat split; auto; try discriminate; intros; simpl in *;
        contradiction.
    + injection H as <- <- <-. exists [], []. rewrite !app_nil_r.
      repeat split; auto; try discriminate; intros; simpl in *;
        contradiction.
Qed.

(** X16.  [update_stock] calls [set_stock] only for footprints of the
    project that have an LCSC number and for which [get_stock] finds a
    row, with the reference of the footprint and the first value of that
    row; when it returns, it has done so for every such footprint.  It
    updates the gauge once for each call, with a position that is below
    the number of footprints with a number: never a division by zero,
    never 100 percent. *)
Theorem update_stock_sets_the_stock_found
    (store : list Footprint) (db : DB) :
  let '(o, posted, calls) := update_stock store db in
  let total :=
    Z.of_nat (length (filter (fun fp => truthy (lcsc fp)) store)) in
  (forall ref value, In (ref, value) calls ->
     exists fp, In fp store /\ reference fp = ref /\ stock_found db fp value)
  /\ (o = Return tt ->
      forall fp value, In fp store -> stock_found db fp value ->
                       In (reference fp, value) calls)
  /\ length posted = length calls
  /\ Forall (fun ev => exists k, ev = UpdateGaugeEvent k total
                                 /\ (0 <= k < total)%Z) posted.
Proof.
  unfold update_stock.
  set (fps := filter (fun fp => truthy (lcsc fp)) store).
  destruct (update_stock_loop 0 (Z.of_nat (length fps)) fps db [] [])
    as [[o posted] calls] eqn:H.
  apply update_stock_loop_calls in H; [| |lia|lia].
  2: { apply Forall_forall. intros fp Hin. unfold fps in Hin.
       apply filter_In in Hin. tauto. }
  destruct H as (pnew & cnew & -> & -> & Hl & Hg & Hs & Hc). cbn [app].
  repeat split; auto.
  - intros ref v Hin. destruct (Hs ref v Hin) as (fp & Hin' & Hr & Hf).
    exists fp. split; [|split; [exact Hr | exact Hf]]. unfold fps in Hin'.
    apply filter_In in Hin'. tauto.
  - intros Ho fp v Hin Hf. apply (Hc Ho fp v); [|exact Hf].
    unfold fps. apply filter_In. split; [exact Hin|]. apply Hf.
Qed.

End StockFacts.

(** ** The events of a run *)

Lemma total_length_app (a b : list bytes) :
  total_length (a ++ b) = (total_length a + total_length b)%Z.
Proof.
  induction a as [|c a IH]; simpl; [reflexivity|]. rewrite IH. lia.
Qed.

Lemma total_length_nonneg (a : list bytes) : (0 <= total_length a)%Z.
Proof. induction a as [|c a IH]; simpl; lia. Qed.

Section IterFacts.
Context {D : Decompressor}.

Lemma taken_trans (a b c : LZMAIterReader) :
  taken a b -> taken b c -> taken a c.
Proof.
  intros [p Hp] [q Hq]. exists (p ++ q). now rewrite Hp, Hq, app_assoc.
Qed.

Lemma read_taken (r : LZMAIterReader) (o : res bytes) (r1 : LZMAIterReader) :
  read r = (o, r1) -> taken r r1.
Proof.
  unfold read, taken. destruct (Nat.eqb (length (chunk r)) 0).
  - destruct (iter r) as [|c rest] eqn:Ei.
    + intros H. injection H as _ <-. exists []. now rewrite Ei.
    + destruct (decompress (lzmad r) c) as [e|[d' out]];
        intros H; injection H as _ <-; exists [c]; reflexivity.
  - intros H. injection H as _ <-. now exists [].
Qed.

Lemma readline_loop_taken (fuel : nat) :
  forall (r : LZMAIterReader) (o : res nat) (r1 : LZMAIterReader),
  readline_loop fuel r = (o, r1) -> taken r r1.
Proof.
  induction fuel as [|fuel IH]; intros r o r1; cbn [readline_loop];
    destruct (find_crlf (linebuf r));
    try (intros H; injection H as _ <-; now exists []).
  destruct (read r) as [[data | e |] r2] eqn:Er; apply read_taken in Er.
  - destruct (Nat.eqb (length data) 0).
    + intros H. injection H as _ <-. exact Er.
    + intros H. apply IH in H. apply (taken_trans _ _ _ Er).
      destruct H as [p Hp]. now exists p.
  - intros H. injection H as _ <-. exact Er.
  - intros H. injection H as _ <-. exact Er.
Qed.

Lemma next_taken (r : LZMAIterReader) (o : res bytes) (r1 : LZMAIterReader) :
  next r = (o, r1) -> taken r r1.
Proof.
  unfold next, readline.
  destruct (readline_loop (readline_budget r) r) as [[idx | e |] r2] eqn:E;
    apply readline_loop_taken in E; intros H; injection H as _ <-;
    exact E.
Qed.

Lemma csv_lines_loop_taken (fuel : nat) :
  forall (p : Parser) (r : LZMAIterReader) (o : res (list string))
         (r1 : LZMAIterReader),
  csv_lines_loop fuel p r = (o, r1) -> taken r r1.
Proof.
  induction fuel as [|fuel IH]; intros p r o r1; cbn [csv_lines_loop].
  - intros H. injection H as _ <-. now exists [].
  - destruct (next r) as [[line | e |] r2] eqn:En; apply next_taken in En.
    + destruct (decode_utf8 line) as [text | e |];
        try (intros H; injection H as _ <-; exact En).
      destruct (parse_line p text) as [e|p'];
        try (intros H; injection H as _ <-; exact En).
      destruct (pstate_eqb (pstate p') START_RECORD).
      * intros H; injection H as _ <-; exact En.
      * intros H. apply IH in H. exact (taken_trans _ _ _ En H).
    + destruct e; try (intros H; injection H as _ <-; exact En).
      destruct (_ || _); intros H; injection H as _ <-; exact En.
    + intros H; injection H as _ <-; exact En.
Qed.

Lemma csv_next_taken (r : LZMAIterReader) (o : res (list string))
      (r1 : LZMAIterReader) :
  csv_next r = (o, r1) -> taken r r1.
Proof. apply csv_lines_loop_taken. Qed.

End IterFacts.

Section GaugeFacts.
Context {D : Decompressor} {E : SqlEngine}.

(** The events of the loop are updates of the gauge, each with what
    [tell] answers for a reader that has part of the body behind it. *)
Lemma load_loop_posted (resp : Response) (ncols : nat) (size : Z)
      (table : option Table) (P : Event -> Prop) :
  (forall s pre, body resp = pre ++ iter s ->
                 P (UpdateGaugeEvent (raw_tell resp s) size)) ->
  forall (fuel : nat) (count : N) (st st' : Load LZMAIterReader)
         (o : res unit),
  load_loop csv_next (raw_tell resp) ncols size table fuel count st
  = (o, st') ->
  (exists pre, body resp = pre ++ iter (source st)) ->
  Forall P (load_posted st) ->
  Forall P (load_posted st').
Proof.
  intros HP. induction fuel as [|fuel IH]; intros count st st' o;
    cbn [load_loop].
  - intros H _ Hp. injection H as _ <-. exact Hp.
  - destruct (csv_next (source st)) as [[row | e |] s1] eqn:En;
      apply csv_next_taken in En.
    + intros H [pre Hpre] Hp.
      assert (Hs1 : exists pre1, body resp = pre1 ++ iter s1).
      { destruct En as [q Hq]. exists (pre ++ q).
        now rewrite Hpre, Hq, app_assoc. }
      destruct (N.eqb (N.modulo count 1000) 0).
      * destruct (Z.eqb size 0); [injection H as _ <-; exact Hp|].
        assert (Hp' : Forall P (load_posted st
                                ++ [UpdateGaugeEvent (raw_tell resp s1) size])).
        { apply Forall_app. split; [exact Hp|]. constructor; [|constructor].
          destruct Hs1 as [pre1 H1]. exact (HP s1 pre1 H1). }
        destruct (executemany ncols table (buffer st ++ [row]) (pending st))
          as [[u | e |] pend];
          try (injection H as _ <-; exact Hp').
        exact (IH _ _ _ _ H Hs1 Hp').
      * exact (IH _ _ _ _ H Hs1 Hp).
    + intros H _ Hp. destruct e; injection H as _ <-; exact Hp.
    + intros H _ Hp. injection H as _ <-; exact Hp.
Qed.

Lemma load_rows_posted (resp : Response) (ncols : nat) (size : Z)
      (table : option Table) (P : Event -> Prop) (fuel : nat)
      (s : LZMAIterReader) (o : res (option Table))
      (st : Load LZMAIterReader) :
  (forall s pre, body resp = pre ++ iter s ->
                 P (UpdateGaugeEvent (raw_tell resp s) size)) ->
  load_rows csv_next (raw_tell resp) ncols size table fuel s = (o, st) ->
  (exists pre, body resp = pre ++ iter s) ->
  Forall P (load_posted st).
Proof.
  intros HP. unfold load_rows.
  destruct (load_loop csv_next (raw_tell resp) ncols size table fuel 0 _)
    as [o1 st1] eqn:El.
  intros H Hs.
  pose proof (load_loop_posted resp ncols size table P HP _ _ _ _ _ El Hs
                (Forall_nil _)) as Hp.
  destruct o1 as [u | e |]; try (injection H as _ <-; exact Hp).
  destruct (buffer st1) as [|row buf]; [injection H as _ <-; exact Hp|].
  destruct (executemany ncols table (row :: buf) (pending st1))
    as [[u1 | e |] pend]; injection H as _ <-; exact Hp.
Qed.

Lemma update_stock_posted (store : list Footprint) (db : DB)
      (o : res unit) (posted : list Event) (calls : list (string * string)) :
  update_stock store db = (o, posted, calls) ->
  Forall (fun ev => is_update ev /\ gauge_in_range ev) posted.
Proof.
  unfold update_stock. intros H.
  apply update_stock_loop_calls in H; [| |lia|lia].
  2: { apply Forall_forall. intros fp Hin. apply filter_In in Hin. tauto. }
  destruct H as (pnew & cnew & -> & _ & _ & Hg & _). cbn [app].
  eapply Forall_impl; [|exact Hg].
  intros ev (k & -> & Hk). split; [exact I | simpl; lia].
Qed.

(** X17.  When the declared size is at least the number of bytes of the
    body (it is that number, if the server is right), every update of
    the gauge that [download] posts, during the bulk load and during the
    stock update, has a value from 0 to 100 percent. *)
Theorem gauge_stays_within_range
    (resp : Response) (store : list Footprint) (elapsed : string) (db : DB)
    (size : Z) :
  content_length resp = Length size ->
  (total_length (body resp) <= size)%Z ->
  Forall gauge_in_range (run_posted (download resp store elapsed db)).
Proof.
  intros Hc Hsize. unfold download.
  destruct (negb (Z.eqb (status_code resp) 200)); [repeat constructor|].
  rewrite Hc.
  assert (H0 : Forall gauge_in_range
                 (ResetGaugeEvent
                  :: (if Z.ltb size 1000
                      then [download_error
                              ("file too small (" ++ str_int size
                               ++ " bytes)")]
                      else []))).
  { destruct (Z.ltb size 1000); repeat constructor. }
  destruct (true_div_overflows size); [exact H0|].
  destruct (csv_next (init (body resp))) as [[headers | e |] l1] eqn:Eh;
    try exact H0.
  apply csv_next_taken in Eh. cbn [init iter] in Eh.
  destruct (create_parts_table headers (snd (delete_parts_table db)))
    as [[u | e |] db2]; try exact H0.
  destruct (load_rows csv_next (raw_tell resp) (length headers) size _ _ l1)
    as [o st] eqn:El.
  apply (load_rows_posted resp _ _ _ gauge_in_range) in El; [| |exact Eh].
  2: { intros s pre Hpre. unfold raw_tell. cbn.
       rewrite Hpre, total_length_app.
       pose proof (total_length_nonneg pre).
       pose proof (total_length_nonneg (iter s)).
       rewrite Hpre, total_length_app in Hsize. lia. }
  destruct o as [t | e |]; try (apply Forall_app; split; assumption).
  destruct (update_stock store _) as [[o2 sp] calls] eqn:Eu.
  apply update_stock_posted in Eu.
  assert (Hsp : Forall gauge_in_range sp).
  { eapply Forall_impl; [|exact Eu]. intros ev [_ H]. exact H. }
  destruct o2 as [u2 | e |]; cbn [run_posted];
    repeat (apply Forall_app; split); try assumption; repeat constructor.
Qed.

Lemma updates_no_success (l : list Event) :
  Forall is_update l -> ~ Exists is_success l.
Proof.
  intros H Hx. apply Exists_exists in Hx. destruct Hx as (ev & Hin & Hs).
  rewrite Forall_forall in H. specialize (H ev Hin).
  destruct ev; simpl in *; contradiction.
Qed.

(** X18.  [download] posts the message titled Success exactly when the
    response had status 200 and a declared size and the run returned
    without an exception, that is after the rows were committed and the
    stock update was through; no run that was refused or that died with
    an exception posts it. *)
Theorem success_is_posted_iff_the_import_went_through
    (resp : Response) (store : list Footprint) (elapsed : string) (db : DB) :
  let run := download resp store elapsed db in
  Exists is_success (run_posted run)
  <-> (status_code resp = 200%Z
       /\ (exists size, content_length resp = Length size)
       /\ outcome run = Return tt).
Proof.
  cbv zeta. unfold download.
  destruct (Z.eqb_spec (status_code resp) 200) as [Hs|Hs]; cbn [negb].
  2: { split; [|tauto]. intros H.
       inversion H as [? ? H1|? ? H1]; subst; [contradiction|].
       inversion H1 as [? ? H2|? ? H2]; subst; [discriminate | inversion H2]. }
  destruct (content_length resp) as [| |size] eqn:Hc.
  - split; [|intros (_ & [sz Hsz] & _); discriminate]. intros H.
    inversion H as [? ? H1|? ? H1]; subst; [contradiction|].
    inversion H1 as [? ? H2|? ? H2]; subst; [discriminate | inversion H2].
  - split; [|intros (_ & [sz Hsz] & _); discriminate]. intros H.
    inversion H as [? ? H1|? ? H1]; subst; [contradiction | inversion H1].
  - assert (H0 : ~ Exists is_success
                   (ResetGaugeEvent
                    :: (if Z.ltb size 1000
                        then [download_error
                                ("file too small (" ++ str_int size
                                 ++ " bytes)")]
                        else []))).
    { intros H. inversion H as [? ? H1|? ? H1]; subst; [contradiction|].
      destruct (Z.ltb size 1000); [|inversion H1].
      inversion H1 as [? ? H2|? ? H2]; subst; [discriminate | inversion H2]. }
    destruct (true_div_overflows size); cbn [run_posted outcome];
      [split; [intros H; contradiction | intros (_ & _ & H); discriminate]|].
    destruct (csv_next (init (body resp))) as [[headers | e |] l1] eqn:Eh;
      cbn [run_posted outcome];
      try (split; [intros H; contradiction
                  | intros (_ & _ & H); discriminate]).
    apply csv_next_taken in Eh. cbn [init iter] in Eh.
    destruct (create_parts_table headers (snd (delete_parts_table db)))
      as [[u | e |] db2] eqn:Ec; cbn [run_posted outcome];
      try (split; [intros H; contradiction
                  | intros (_ & _ & H); discriminate]).
    destruct (load_rows csv_next (raw_tell resp) (length headers) size _ _ l1)
      as [o st] eqn:El.
    apply (load_rows_posted resp _ _ _ is_update) in El;
      [|intros; exact I | exact Eh].
    apply updates_no_success in El.
    destruct o as [t | e |]; cbn [run_posted outcome];
      try (split; [intros H; apply Exists_app in H; tauto
                  | intros (_ & _ & H); discriminate]).
    destruct (update_stock store _) as [[o2 sp] calls] eqn:Eu.
    apply update_stock_posted in Eu.
    assert (Hsp : ~ Exists is_success sp).
    { apply updates_no_success. eapply Forall_impl; [|exact Eu].
      intros ev [H _]. exact H. }
    destruct o2 as [u2 | e |]; cbn [run_posted outcome].
    + split; [intros _; split; [exact Hs|]; split; [now exists size|];
              reflexivity |].
      intros _. do 4 (apply Exists_app; right).
      apply Exists_cons_tl. apply Exists_cons_hd. reflexivity.
    + split; [|intros (_ & _ & H); discriminate]. intros H.
      repeat (apply Exists_app in H; destruct H as [H|H];
              [try contradiction|]); try contradiction.
      inversion H as [? ? H1|? ? H1]; subst; [contradiction | inversion H1].
    + split; [|intros (_ & _ & H); discriminate]. intros H.
      repeat (apply Exists_app in H; destruct H as [H|H];
              [try contradiction|]); try contradiction.
      inversion H as [? ? H1|? ? H1]; subst; [contradiction | inversion H1].
Qed.

End GaugeFacts.

Lemma gauge_stays_within_range_witness :
  Forall gauge_in_range
    (run_posted (@download StoredXZ PlainEngine
                   {| status_code := 200; content_length := Length 131;
                      body := [sample_file 3] |}
                   [mkFootprint "R1" "C1"] "1" fresh_db)).
Proof.
  apply (@gauge_stays_within_range StoredXZ PlainEngine
           {| status_code := 200; content_length := Length 131;
              body := [sample_file 3] |}
           [mkFootprint "R1" "C1"] "1" fresh_db 131).
  - reflexivity.
  - vm_compute. discriminate.
Defined.

(** ** The price field of the export *)

Section PriceField.
Local Open Scope string_scope.

Lemma has_special_app (a b : string) :
  has_special (a ++ b) = has_special a || has_special b.
Proof.
  induction a as [|c a IH]; [reflexivity|]. simpl. rewrite IH.
  now rewrite orb_assoc.
Qed.

Lemma has_special_uint (d : Decimal.uint) :
  has_special (NilEmpty.string_of_uint d) = false.
Proof. induction d; simpl; auto. Qed.

Lemma has_special_str_int (z : Z) : has_special (str_int z) = false.
Proof.
  unfold str_int, NilZero.string_of_int, NilZero.string_of_uint.
  destruct (Z.to_int z) as [d|d]; destruct d; simpl;
    try reflexivity; apply has_special_uint.
Qed.

Lemma has_special_bound_str (b : option Z) :
  has_special (Gencsv.bound_str b) = false.
Proof.
  destruct b as [z|]; [|reflexivity]. unfold Gencsv.bound_str.
  destruct (Z.eqb z 0); [reflexivity | apply has_special_str_int].
Qed.

Lemma has_special_tier_str (t : Gencsv.PriceTier) :
  has_special (Gencsv.tier_str t) = has_special (Gencsv.price t).
Proof.
  unfold Gencsv.tier_str. rewrite !has_special_app, !has_special_bound_str.
  reflexivity.
Qed.

Lemma escape_quotes_plain (s : string) :
  has_special s = false -> escape_quotes s = s.
Proof.
  induction s as [|c s IH]; [reflexivity|]. simpl. intros H.
  apply orb_false_iff in H. destruct H as [Hc Hs].
  unfold needs_quoting in Hc. apply orb_false_iff in Hc.
  destruct Hc as [Hc _]. apply orb_false_iff in Hc. destruct Hc as [_ Hq].
  rewrite Hq. now rewrite IH.
Qed.

Lemma escape_quotes_app (a b : string) :
  escape_quotes (a ++ b) = escape_quotes a ++ escape_quotes b.
Proof.
  induction a as [|c a IH]; [reflexivity|]. simpl.
  destruct (is_quotechar c); simpl; now rewrite IH.
Qed.

Lemma join_cons2 (sep x y : string) (l : list string) :
  join sep (x :: y :: l) = x ++ sep ++ join sep (y :: l).
Proof. reflexivity. Qed.

Lemma escape_quotes_tiers (ts : list Gencsv.PriceTier) :
  Forall (fun t => has_special (Gencsv.price t) = false) ts ->
  escape_quotes (join "," (map Gencsv.tier_str ts))
  = join "," (map Gencsv.tier_str ts).
Proof.
  induction ts as [|t ts IH]; intros H; [reflexivity|].
  pose proof (Forall_inv H) as Ht. pose proof (Forall_inv_tail H) as Hts.
  cbv beta in Ht. rewrite <- has_special_tier_str in Ht.
  destruct ts as [|t2 ts]; cbn [map].
  - apply escape_quotes_plain. exact Ht.
  - rewrite join_cons2, !escape_quotes_app, (escape_quotes_plain _ Ht).
    cbn [map] in IH. rewrite (IH Hts). reflexivity.
Qed.

Lemma has_special_tiers (ts : list Gencsv.PriceTier) :
  Forall (fun t => has_special (Gencsv.price t) = false) ts ->
  has_special (join "," (map Gencsv.tier_str ts)) = Nat.leb 2 (length ts).
Proof.
  intros H. destruct ts as [|t [|t2 ts]]; cbn [map length Nat.leb].
  - reflexivity.
  - pose proof (Forall_inv H) as Ht. cbv beta in Ht.
    rewrite <- has_special_tier_str in Ht. exact Ht.
  - rewrite join_cons2, !has_special_app. cbn. apply orb_true_r.
Qed.

End PriceField.

(** X19.  When the price texts of a component hold no comma, double
    quote, CR or LF (as the texts of numbers do), the price field that
    [gencsv] hands to the writer is written between double quotes, as it
    is, exactly when the component has two price tiers or more (the
    tiers are joined with commas), and bare, as it is, otherwise. *)
Theorem price_field_is_quoted_from_two_tiers_on (r : Gencsv.Component) :
  Forall (fun t => has_special (Gencsv.price t) = false) (Gencsv.prices r) ->
  write_field (Gencsv.pricestr r)
  = if Nat.leb 2 (length (Gencsv.prices r))
    then (dq ++ Gencsv.pricestr r ++ dq)%string
    else Gencsv.pricestr r.
Proof.
  intros H. unfold write_field, Gencsv.pricestr.
  rewrite (has_special_tiers _ H), (escape_quotes_tiers _ H). reflexivity.
Qed.

Lemma price_field_is_quoted_from_two_tiers_on_witness :
  write_field (Gencsv.pricestr two_tier_part)
  = (dq ++ "1-9:0.5,10-:0.4" ++ dq)%string.
Proof.
  apply (price_field_is_quoted_from_two_tiers_on two_tier_part).
  repeat constructor.
Defined.

(** ** The declared size 0 *)

Section ZeroSize.
Context {D : Decompressor} {E : SqlEngine}.

(** X20.  With a declared size of 0 and a file that has a header and at
    least one data row, [download] raises [ZeroDivisionError] at the
    first row, where the progress is computed: by then the old [parts]
    table is dropped and the new one created, so the table is left with
    the header's columns and no row; nothing is inserted, no stock is
    set and the gauge is never updated. *)
Theorem declared_size_zero_divides_by_zero
    (resp : Response) (store : list Footprint) (elapsed : string) (db : DB)
    (headers row : list string) (l1 l2 : LZMAIterReader) :
  status_code resp = 200%Z ->
  content_length resp = Length 0 ->
  csv_next (init (body resp)) = (Return headers, l1) ->
  forallb plain headers = true ->
  accepts_columns headers = true ->
  csv_next l1 = (Return row, l2) ->
  let run := download resp store elapsed db in
  outcome run = Raise ZeroDivisionError
  /\ parts (db_after run) = Some {| columns := headers; rows := [] |}
  /\ inserted run = [] /\ stock_set run = []
  /\ Forall (fun ev => ~ is_update ev) (run_posted run).
Proof.
  intros Hs Hc Hh Hp Ha Hr. cbv zeta.
  unfold download. rewrite Hs, Hc, Hh.
  change (true_div_overflows 0) with false.
  cbn [Z.eqb Pos.eqb negb].
  unfold delete_parts_table. cbn [snd].
  unfold create_parts_table. rewrite Hp. cbn [parts]. rewrite Ha.
  cbn [parts rotation].
  rewrite create_rotation_table_parts. cbn [parts].
  unfold load_rows. cbn [load_loop source]. rewrite Hr.
  change (N.eqb (N.modulo 0 1000) 0) with true. cbv iota.
  cbn [Z.eqb].
  cbn [outcome db_after inserted stock_set run_posted batches load_posted].
  rewrite create_rotation_table_parts. cbn [parts app].
  repeat split. change (Z.ltb 0 1000) with true. cbv iota.
  repeat constructor; intros [].
Qed.

End ZeroSize.

Lemma declared_size_zero_divides_by_zero_witness :
  let run := @download StoredXZ PlainEngine
               {| status_code := 200; content_length := Length 0;
                  body := [sample_file 1] |} [] "1" sample_store in
  outcome run = Raise ZeroDivisionError
  /\ parts (db_after run) = Some {| columns := header5; rows := [] |}
  /\ inserted run = [] /\ stock_set run = []
  /\ Forall (fun ev => ~ is_update ev) (run_posted run).
Proof.
  assert (H1 : exists l1 row l2,
             @csv_next StoredXZ (init [sample_file 1]) = (Return header5, l1)
             /\ csv_next l1 = (Return row, l2)).
  { do 3 eexists. split; vm_compute; reflexivity. }
  destruct H1 as (l1 & row & l2 & H1 & H2).
  exact (@declared_size_zero_divides_by_zero StoredXZ PlainEngine
           {| status_code := 200; content_length := Length 0;
              body := [sample_file 1] |} [] "1" sample_store
           header5 row l1 l2 eq_refl eq_refl H1 eq_refl eq_refl H2).
Defined.

(** ** The reader in front of a rejected chunk *)

Section ReaderError.
Context {D : Decompressor}.
Variable bad : bytes.
Variable rest : list bytes.
Variable e : Exn.

Lemma decode_chunks_bad_nil (d : dstate) :
  decode_chunks d [bad] = inl e -> decompress d bad = inl e.
Proof.
  simpl. destruct (decompress d bad) as [e'|[d' out]]; [|discriminate].
  congruence.
Qed.

Lemma decode_chunks_bad_cons (d d1 : dstate) (c o1 : bytes)
      (pre : list bytes) :
  decompress d c = inr (d1, o1) ->
  decode_chunks d ((c :: pre) ++ [bad]) = inl e ->
  decode_chunks d1 (pre ++ [bad]) = inl e.
Proof.
  intros Hd. simpl. rewrite Hd.
  destruct (decode_chunks d1 (pre ++ [bad])); [congruence | discriminate].
Qed.

(** The loop of [readline] in front of chunks that decode to something
    and a chunk the decompressor rejects: it stops at the first CRLF of
    the text before the rejected chunk, or raises the decompressor's
    exception when there is none. *)
Lemma readline_loop_bad (pre : list bytes) :
  forall (fuel : nat) (buf : bytes) (d : dstate) (outs : list bytes),
  decode_chunks d pre = inr outs ->
  Forall nonempty outs ->
  decode_chunks d (pre ++ [bad]) = inl e ->
  length pre + 1 < fuel ->
  match find_crlf (buf ++ concat outs) with
  | Some i =>
      exists pre' d' outs' buf',
        readline_loop fuel
          {| iter := pre ++ bad :: rest; chunk := []; linebuf := buf;
             lzmad := d |}
        = (Return i,
           {| iter := pre' ++ bad :: rest; chunk := []; linebuf := buf';
              lzmad := d' |})
        /\ find_crlf buf' = Some i
        /\ decode_chunks d' pre' = inr outs'
        /\ Forall nonempty outs'
        /\ decode_chunks d' (pre' ++ [bad]) = inl e
        /\ buf' ++ concat outs' = buf ++ concat outs
  | None =>
      exists r',
        readline_loop fuel
          {| iter := pre ++ bad :: rest; chunk := []; linebuf := buf;
             lzmad := d |}
        = (Raise e, r')
  end.
Proof.
  induction pre as [|c pre IH]; intros fuel buf d outs Hdec Hne Hbad Hfuel;
    (destruct fuel as [|fuel]; [lia|]); cbn [readline_loop linebuf].
  - injection Hdec as <-. cbn [concat]. rewrite app_nil_r.
    destruct (find_crlf buf) as [i|] eqn:F.
    + exists [], d, [], buf. cbn [concat app]. rewrite app_nil_r.
      repeat split; auto.
    + apply decode_chunks_bad_nil in Hbad.
      unfold read. cbn [chunk length Nat.eqb iter lzmad linebuf app].
      rewrite Hbad. eexists. reflexivity.
  - destruct (find_crlf buf) as [i|] eqn:F.
    + rewrite (find_crlf_app_Some buf _ i F).
      exists (c :: pre), d, outs, buf. repeat split; auto.
    + apply decode_chunks_cons in Hdec.
      destruct Hdec as (d1 & o1 & outs1 & Hd & Hdec1 & ->).
      pose proof (decode_chunks_bad_cons d d1 c o1 pre Hd Hbad) as Hbad1.
      pose proof (Forall_inv Hne) as Ho1.
      pose proof (Forall_inv_tail Hne) as Hne1.
      unfold read. cbn [chunk length Nat.eqb iter lzmad linebuf app].
      rewrite Hd. cbn [chunk iter linebuf lzmad].
      rewrite skipn_min_all, firstn_min_all.
      destruct o1 as [|b o1]; [now elim Ho1|]. cbn [length Nat.eqb].
      specialize (IH fuel (buf ++ b :: o1) d1 outs1 Hdec1 Hne1 Hbad1
                     ltac:(simpl in Hfuel; lia)).
      cbn [concat]. rewrite app_assoc.
      destruct (find_crlf ((buf ++ b :: o1) ++ concat outs1)) as [i|].
      * destruct IH as (pre' & d' & outs' & buf' & E & H1 & H2 & H3 & H4 & H5).
        exists pre', d', outs', buf'. repeat split; auto.
      * exact IH.
Qed.

Lemma readline_bad (pre : list bytes) (buf : bytes) (d : dstate)
      (outs : list bytes) :
  decode_chunks d pre = inr outs ->
  Forall nonempty outs ->
  decode_chunks d (pre ++ [bad]) = inl e ->
  match find_crlf (buf ++ concat outs) with
  | Some i =>
      exists pre' d' outs' buf',
        readline {| iter := pre ++ bad :: rest; chunk := []; linebuf := buf;
                    lzmad := d |}
        = (Return (firstn (i + 2) (buf ++ concat outs)),
           {| iter := pre' ++ bad :: rest; chunk := []; linebuf := buf';
              lzmad := d' |})
        /\ decode_chunks d' pre' = inr outs'
        /\ Forall nonempty outs'
        /\ decode_chunks d' (pre' ++ [bad]) = inl e
        /\ buf' ++ concat outs' = skipn (i + 2) (buf ++ concat outs)
  | None =>
      exists r',
        readline {| iter := pre ++ bad :: rest; chunk := []; linebuf := buf;
                    lzmad := d |}
        = (Raise e, r')
  end.
Proof.
  intros Hdec Hne Hbad. unfold readline, readline_budget. cbn [iter].
  pose proof (readline_loop_bad pre (S (S (length (pre ++ bad :: rest))))
                buf d outs Hdec Hne Hbad
                ltac:(rewrite length_app; simpl; lia)) as H.
  destruct (find_crlf (buf ++ concat outs)) as [i|].
  - destruct H as (pre' & d' & outs' & buf' & E & H1 & H2 & H3 & H4 & H5).
    rewrite E. cbn [linebuf iter chunk lzmad].
    exists pre', d', outs', (skipn (i + 2) buf').
    pose proof (find_crlf_bound _ _ H1) as Hb.
    rewrite <- H5. rewrite (firstn_app_le _ _ _ _ Hb).
    rewrite (skipn_app_le _ _ _ _ Hb). repeat split; auto.
  - destruct H as [r' E]. rewrite E. now exists r'.
Qed.

Lemma drain_bad (fuel : nat) :
  forall (pre : list bytes) (buf : bytes) (d : dstate) (outs : list bytes),
  decode_chunks d pre = inr outs ->
  Forall nonempty outs ->
  decode_chunks d (pre ++ [bad]) = inl e ->
  length (buf ++ concat outs) < fuel ->
  exists r',
    drain fuel {| iter := pre ++ bad :: rest; chunk := []; linebuf := buf;
                  lzmad := d |}
    = (spec_split_lines (buf ++ concat outs), Raise e, r').
Proof.
  induction fuel as [|fuel IH]; intros pre buf d outs Hdec Hne Hbad Hfuel;
    [lia|].
  cbn [drain]. unfold next.
  pose proof (readline_bad pre buf d outs Hdec Hne Hbad) as R.
  rewrite spec_split_lines_find.
  destruct (find_crlf (buf ++ concat outs)) as [i|] eqn:F.
  - destruct R as (pre' & d' & outs' & buf' & E & H1 & H2 & H3 & H4).
    rewrite E. apply find_crlf_bound in F.
    destruct (IH pre' buf' d' outs' H1 H2 H3) as [r' E'].
    { rewrite H4, length_skipn. lia. }
    rewrite E', H4. now exists r'.
  - destruct R as [r' E]. rewrite E. now exists r'.
Qed.

Lemma pending_output_prefix (pre l : list bytes) :
  forall (d : dstate) (outs : list bytes),
  decode_chunks d pre = inr outs ->
  length (concat outs) <= pending_output d (pre ++ l).
Proof.
  induction pre as [|c pre IH]; intros d outs H.
  - injection H as <-. simpl. lia.
  - apply decode_chunks_cons in H.
    destruct H as (d1 & o1 & outs1 & Hd & H & ->).
    simpl. rewrite Hd, length_app. specialize (IH d1 outs1 H). lia.
Qed.

End ReaderError.

(** X21.  When the decompressor rejects a chunk (corrupt data, or data
    after the end of the stream) and every chunk before it decodes to
    something, the reader returns the complete lines of the text that
    was decoded before that chunk, all of them and in order, and then
    raises the decompressor's exception; the chunks after the rejected
    one are never looked at. *)
Theorem reader_raises_the_decompressor_error {D : Decompressor}
    (pre : list bytes) (bad : bytes) (rest : list bytes)
    (outs : list bytes) (e : Exn) :
  decode_chunks LZMADecompressor pre = inr outs ->
  Forall nonempty outs ->
  decode_chunks LZMADecompressor (pre ++ [bad]) = inl e ->
  lines_of_chunks (pre ++ bad :: rest)
  = (spec_split_lines (concat outs), Raise e).
Proof.
  intros Hdec Hne Hbad. unfold lines_of_chunks, init, reader_size.
  cbn [linebuf chunk iter lzmad length].
  pose proof (pending_output_prefix pre (bad :: rest) _ outs Hdec) as Hp.
  destruct (drain_bad bad rest e
              (S (pending_output LZMADecompressor (pre ++ bad :: rest)))
              pre [] LZMADecompressor outs Hdec Hne Hbad
              ltac:(simpl; lia)) as [r' E].
  simpl in E |- *. rewrite E. reflexivity.
Qed.

Lemma reader_raises_the_decompressor_error_witness :
  @lines_of_chunks NulTerminated
    ([[x61; x62; x0d; x0a; x63; x64; x00]] ++ [x65; x0d; x0a] :: [[x66]])
  = (spec_split_lines (concat [[x61; x62; x0d; x0a; x63; x64]]),
     Raise EOFError).
Proof.
  apply (@reader_raises_the_decompressor_error NulTerminated
           [[x61; x62; x0d; x0a; x63; x64; x00]] [x65; x0d; x0a] [[x66]]
           [[x61; x62; x0d; x0a; x63; x64]] EOFError).
  - reflexivity.
  - repeat constructor; discriminate.
  - reflexivity.
Defined.
